(** * hvox/rat: ordered sets and the LR(1) parser generator

    A shallow embedding of
      - [libs/sequential_sets_v169.py]  (the sequential sets),
      - [libs/token_parsers.py]         (the built-in scanners),
      - [libs/syntax_lsp_friendly_v208.py] (grammar analysis, tables, driver),
      - [rat.py]                        (the demo grammar and its scanner),
    followed by the properties proved about them.

    Python integers are [Z]; a Python [str] is a [string] whose characters
    are code points below 256; a [list] is a [list] indexed the way Python
    indexes it (negative positions count from the end); a [dict] is an
    association list in insertion order, looked up with the keys' [==]. *)

From Stdlib Require Import ZArith List String Ascii Bool Lia Arith Permutation.
Import ListNotations.
Open Scope string_scope.
Open Scope list_scope.
Open Scope Z_scope.

Set Implicit Arguments.

(** ** Exceptions and outcomes *)

(** The [ValueError]s of the repository, by the message they carry. *)
Inductive value_error : Type :=
| NoKeywordHere (keyword : string)
| NotAnIdentifier
| UnrecognizedToken (position : Z)
| UnexpectedToken (i j : Z) (token : option string)
                  (expected : list (option string))
| AlreadyInSet
| AlreadyAtDifferentIndex
| ProhibitedToModify
| EmptySeparator
| NotEnoughValues.

Inductive exn : Type :=
| ValueError (v : value_error)
| IndexError
| KeyError
| TypeError
| AttributeError
| OverflowError
| AssertionError (msg : string).

(** What running a piece of code gives: a value, an exception, or (for the
    loops that are bounded by a fuel argument) the fuel ran out. *)
Inductive outcome (A : Type) : Type :=
| Ok (a : A)
| Raise (e : exn)
| OutOfFuel.
Arguments Ok {A} a.
Arguments Raise {A} e.
Arguments OutOfFuel {A}.

Definition obind {A B} (m : outcome A) (k : A -> outcome B) : outcome B :=
  match m with
  | Ok a => k a
  | Raise e => Raise e
  | OutOfFuel => OutOfFuel
  end.

Notation "x <~ m ;; k" := (obind m (fun x => k))
  (at level 61, m at next level, right associativity).
Notation "' p <~ m ;; k" := (obind m (fun x => match x with p => k end))
  (at level 61, p pattern, m at next level, right associativity).

(** Code that mutates an object: the object's state is threaded through and
    survives an exception, so that what a failed call left behind can be
    observed. *)
Definition M (S A : Type) : Type := S -> outcome A * S.

Definition ret {S A} (a : A) : M S A := fun s => (Ok a, s).
Definition raise {S A} (e : exn) : M S A := fun s => (Raise e, s).
Definition bind {S A B} (m : M S A) (k : A -> M S B) : M S B :=
  fun s => match m s with
           | (Ok a, s') => k a s'
           | (Raise e, s') => (Raise e, s')
           | (OutOfFuel, s') => (OutOfFuel, s')
           end.
Definition gets {S A} (f : S -> A) : M S A := fun s => (Ok (f s), s).
Definition modify {S} (f : S -> S) : M S unit := fun s => (Ok tt, f s).

Notation "x <- m ;; k" := (bind m (fun x => k))
  (at level 61, m at next level, right associativity).
Notation "m ;;; k" := (bind m (fun _ => k))
  (at level 61, right associativity).

Fixpoint for_each {S A} (l : list A) (body : A -> M S unit) : M S unit :=
  match l with
  | [] => ret tt
  | x :: rest => body x ;;; for_each rest body
  end.

(** ** Python lists *)

Section PyList.
Context {A : Type}.

Definition len (l : list A) : Z := Z.of_nat (List.length l).

(** [l[i]]: a negative position counts from the end. *)
Definition norm_index (l : list A) (i : Z) : option nat :=
  let i' := if i <? 0 then i + len l else i in
  if (0 <=? i') && (i' <? len l) then Some (Z.to_nat i') else None.

(** The bounds of a slice are clamped instead. *)
Definition clamp_index (l : list A) (i : Z) : nat :=
  Z.to_nat (if i <? 0 then Z.max (i + len l) 0 else Z.min i (len l)).

Definition list_getitem (l : list A) (i : Z) : outcome A :=
  match norm_index l i with
  | Some n => match nth_error l n with
              | Some x => Ok x
              | None => Raise IndexError
              end
  | None => Raise IndexError
  end.

Definition list_setitem (l : list A) (i : Z) (x : A) : outcome (list A) :=
  match norm_index l i with
  | Some n => Ok (firstn n l ++ x :: skipn (S n) l)
  | None => Raise IndexError
  end.

(** [list.pop] and [list.insert] take the position as a C [Py_ssize_t]:
    an integer outside [-2^63, 2^63) raises [OverflowError] before the
    list is looked at.  A Python list has fewer than 2^63 elements, so a
    position within the list always converts; the lists here have no
    bound on their length, and a position within the list converts here
    too. *)
Definition fits_ssize (l : list A) (i : Z) : bool :=
  (- 2 ^ 63 <=? i) && (i <? 2 ^ 63) || (- len l <=? i) && (i <=? len l).

(** [l.pop(i)]: the element and what is left. *)
Definition list_pop (l : list A) (i : Z) : outcome (A * list A) :=
  if fits_ssize l i then
    match norm_index l i with
    | Some n => match nth_error l n with
                | Some x => Ok (x, firstn n l ++ skipn (S n) l)
                | None => Raise IndexError
                end
    | None => Raise IndexError
    end
  else Raise OverflowError.

(** [l.insert(i, x)]: the position is clamped to the list. *)
Definition list_insert (l : list A) (i : Z) (x : A) : outcome (list A) :=
  if fits_ssize l i then
    Ok (firstn (clamp_index l i) l ++ x :: skipn (clamp_index l i) l)
  else Raise OverflowError.

(** [l[i:]] and [l[:i]]. *)
Definition slice_from (l : list A) (i : Z) : list A := skipn (clamp_index l i) l.
Definition slice_to (l : list A) (i : Z) : list A := firstn (clamp_index l i) l.

(** [l[i::2]]. *)
Fixpoint every_other (l : list A) : list A :=
  match l with
  | [] => []
  | x :: rest => x :: match rest with
                      | [] => []
                      | _ :: rest' => every_other rest'
                      end
  end.
Definition slice_from_step2 (l : list A) (i : Z) : list A :=
  every_other (slice_from l i).

Fixpoint enumerate (l : list A) (start : Z) : list (Z * A) :=
  match l with
  | [] => []
  | x :: rest => (start, x) :: enumerate rest (start + 1)
  end.
End PyList.

(** ** Python dicts *)

(** [==] on the values of a type. *)
Class PyEq (T : Type) := py_eqb : T -> T -> bool.
#[global] Hint Mode PyEq ! : typeclass_instances.

Section PyDict.
Context {K V : Type} `{PyEq K}.

Definition dict : Type := list (K * V).

Fixpoint dict_get (d : dict) (k : K) : option V :=
  match d with
  | [] => None
  | (k', v) :: rest => if py_eqb k' k then Some v else dict_get rest k
  end.

Definition dict_mem (d : dict) (k : K) : bool :=
  match dict_get d k with Some _ => true | None => false end.

(** [d[k] = v]: an existing key keeps its place, a new one goes last. *)
Fixpoint dict_set (d : dict) (k : K) (v : V) : dict :=
  match d with
  | [] => [(k, v)]
  | (k', v') :: rest =>
      if py_eqb k' k then (k', v) :: rest else (k', v') :: dict_set rest k v
  end.

Fixpoint dict_remove (d : dict) (k : K) : dict :=
  match d with
  | [] => []
  | (k', v') :: rest =>
      if py_eqb k' k then rest else (k', v') :: dict_remove rest k
  end.

Definition dict_keys (d : dict) : list K := map fst d.
End PyDict.
Arguments dict K V : clear implicits.

(** [list(dict.fromkeys(iterable))]: the first occurrence of each value, in
    order. *)
Definition fromkeys {T} `{PyEq T} (iterable : list T) : list T :=
  dict_keys (fold_left (fun d x => dict_set d x tt) iterable []).

(** ** libs/sequential_sets_v169.py *)

Module SequentialSets.
Section Sets.
Context {T : Type} `{PyEq T}.
(** [hash] on the elements, an interpreter built-in. *)
Variable hash_of : T -> Z.

(** The slots of [SequentialSet]. *)
Record SequentialSet : Type := mkSet {
  values : list T;
  indexes : dict T Z
}.

(** [SequentialSet.__init__] *)
Definition init (iterable : list T) : SequentialSet :=
  let vs := fromkeys iterable in
  {| values := vs;
     indexes := fold_left (fun d '(i, v) => dict_set d v i) (enumerate vs 0) [] |}.

Definition contains (s : SequentialSet) (element : T) : bool :=
  dict_mem (indexes s) element.

Definition iter (s : SequentialSet) : list T := values s.

Definition set_len (s : SequentialSet) : Z := len (values s).

Definition getitem (s : SequentialSet) (i : Z) : outcome T :=
  list_getitem (values s) i.

(** [SequentialSet.index]; [stop = None] is the omitted argument. *)
Definition index (s : SequentialSet) (value : T) (start : Z)
                 (stop : option Z) : Z :=
  let real_stop := match stop with Some n => n | None => 2 ^ 30 end in
  let i := match dict_get (indexes s) value with Some i => i | None => -1 end in
  if negb (i =? -1) && (start <=? i) && (i <? real_stop) then i else -1.

(** *** MutableSequentialSet *)

Definition values_pop (i : Z) : M SequentialSet T :=
  fun s => match list_pop (values s) i with
           | Ok (x, rest) => (Ok x, {| values := rest; indexes := indexes s |})
           | Raise e => (Raise e, s)
           | OutOfFuel => (OutOfFuel, s)
           end.

Definition values_get (i : Z) : M SequentialSet T :=
  fun s => (list_getitem (values s) i, s).

Definition values_set (i : Z) (x : T) : M SequentialSet unit :=
  fun s => match list_setitem (values s) i x with
           | Ok l => (Ok tt, {| values := l; indexes := indexes s |})
           | Raise e => (Raise e, s)
           | OutOfFuel => (OutOfFuel, s)
           end.

Definition values_append (x : T) : M SequentialSet unit :=
  modify (fun s => {| values := values s ++ [x]; indexes := indexes s |}).

Definition values_insert (i : Z) (x : T) : M SequentialSet unit :=
  fun s => match list_insert (values s) i x with
           | Ok l => (Ok tt, {| values := l; indexes := indexes s |})
           | Raise e => (Raise e, s)
           | OutOfFuel => (OutOfFuel, s)
           end.

(** [self.indexes[k] = v] *)
Definition indexes_set (k : T) (v : Z) : M SequentialSet unit :=
  modify (fun s => {| values := values s; indexes := dict_set (indexes s) k v |}).

(** [del self.indexes[k]] and [self.indexes.pop(k)] *)
Definition indexes_pop (k : T) : M SequentialSet Z :=
  fun s => match dict_get (indexes s) k with
           | Some v => (Ok v, {| values := values s;
                                 indexes := dict_remove (indexes s) k |})
           | None => (Raise KeyError, s)
           end.

(** [MutableSequentialSet.__delitem__] at an [int]. *)
Definition delitem (i : Z) : M SequentialSet unit :=
  value <- values_pop i ;;
  indexes_pop value ;;;
  tail <- gets (fun s => slice_from (values s) i) ;;
  for_each (enumerate tail i) (fun '(index, value) => indexes_set value index).

(** [MutableSequentialSet.__setitem__] at an [int]. *)
Definition setitem (i : Z) (new_value : T) : M SequentialSet unit :=
  old_value <- values_get i ;;
  if py_eqb new_value old_value then ret tt
  else
    present <- gets (fun s => contains s new_value) ;;
    if (present : bool) then raise (ValueError AlreadyAtDifferentIndex)
    else
      indexes_pop old_value ;;;
      values_set i new_value ;;;
      indexes_set new_value i.

(** [MutableSequentialSet.insert] *)
Definition insert (index : Z) (value : T) : M SequentialSet unit :=
  present <- gets (fun s => contains s value) ;;
  if (present : bool) then raise (ValueError AlreadyInSet)
  else
    values_insert index value ;;;
    tail <- gets (fun s => slice_from (values s) index) ;;
    for_each (enumerate tail index) (fun '(i, element) => indexes_set element i).

(** [MutableSequentialSet.add] *)
Definition add (value : T) : M SequentialSet unit :=
  present <- gets (fun s => contains s value) ;;
  if (present : bool) then ret tt
  else
    n <- gets (fun s => len (values s)) ;;
    indexes_set value n ;;;
    values_append value.

(** [MutableSequentialSet.push] *)
Definition push (element : T) : M SequentialSet Z :=
  i <- gets (fun s => match dict_get (indexes s) element with
                      | Some i => i
                      | None => len (indexes s)
                      end) ;;
  n <- gets (fun s => len (values s)) ;;
  (if i =? n then indexes_set element i ;;; values_append element
   else ret tt) ;;;
  ret i.

(** [MutableSequentialSet.remove] *)
Definition remove (value : T) : M SequentialSet unit :=
  i <- indexes_pop value ;;
  filler <- values_pop (-1) ;;
  n <- gets (fun s => len (indexes s)) ;;
  if i <? n then values_set i filler ;;; indexes_set filler i
  else ret tt.

(** [MutableSequentialSet.discard] *)
Definition discard (value : T) : M SequentialSet unit :=
  present <- gets (fun s => contains s value) ;;
  if (present : bool) then remove value else ret tt.

(** [MutableSequentialSet.update] *)
Definition update (elements : list T) : M SequentialSet unit :=
  for_each elements add.

(** *** HashableSequentialSet and DynSet

    Both have the slots of [SequentialSet] and a [hash] slot, [None] until
    the set is hashed. *)
Record HashableSequentialSet : Type := mkHashable {
  hashable_set : SequentialSet;
  hashable_hash : option Z
}.

Record DynSet : Type := mkDyn {
  base : SequentialSet;
  hash : option Z
}.

Definition hashable_init (iterable : list T) : HashableSequentialSet :=
  {| hashable_set := init iterable; hashable_hash := None |}.

Definition dyn_init (iterable : list T) : DynSet :=
  {| base := init iterable; hash := None |}.

Definition sum_hashes (l : list T) : Z :=
  fold_left (fun acc x => acc + hash_of x) l 0.

(** [HashableSequentialSet.__hash__], inherited by [DynSet]. *)
Definition dyn_hash : M DynSet Z :=
  fun s => match hash s with
           | Some h => (Ok h, s)
           | None => let h := sum_hashes (values (base s)) in
                     (Ok h, {| base := base s; hash := Some h |})
           end.

(** [SequentialSet.freeze]: a [DynSet] is an instance of
    [HashableSequentialSet], the call returns the set itself; any other
    mutable set is copied into a [HashableSequentialSet]. *)
Definition dyn_freeze (s : DynSet) : DynSet := s.
Definition freeze (s : SequentialSet) : HashableSequentialSet :=
  hashable_init (values s).

(** A method of the base class run on a [DynSet]. *)
Definition super {A} (m : M SequentialSet A) : M DynSet A :=
  fun s => let (r, b) := m (base s) in (r, {| base := b; hash := hash s |}).

Definition check_mutable : M DynSet unit :=
  fun s => match hash s with
           | Some _ => (Raise (ValueError ProhibitedToModify), s)
           | None => (Ok tt, s)
           end.

Definition dyn_delitem (index : Z) : M DynSet unit :=
  check_mutable ;;; super (delitem index).

(** [DynSet.__setitem__] only checks the type of the position. *)
Definition dyn_setitem (i : Z) (new_value : T) : M DynSet unit :=
  super (setitem i new_value).

Definition dyn_insert (index : Z) (value : T) : M DynSet unit :=
  check_mutable ;;; super (insert index value).

Definition dyn_add (value : T) : M DynSet unit :=
  check_mutable ;;; super (add value).

Definition dyn_push (element : T) : M DynSet Z :=
  check_mutable ;;; super (push element).

Definition dyn_remove (value : T) : M DynSet unit :=
  check_mutable ;;; super (remove value).

(** [discard] and [update] are inherited; their calls to [self.remove] and
    [self.add] reach the overrides of [DynSet]. *)
Definition dyn_discard (value : T) : M DynSet unit :=
  present <- gets (fun s => contains (base s) value) ;;
  if (present : bool) then dyn_remove value else ret tt.

Definition dyn_update (elements : list T) : M DynSet unit :=
  for_each elements dyn_add.

Definition dyn_contains (s : DynSet) (element : T) : bool :=
  contains (base s) element.

Definition dyn_iter (s : DynSet) : list T := values (base s).

(** [==] between two sets is [collections.abc.Set.__eq__]: equal lengths
    and every element of the left one in the right one. *)
Definition dyn_eqb (a b : DynSet) : bool :=
  (len (dyn_iter a) =? len (dyn_iter b))
  && forallb (dyn_contains b) (dyn_iter a).

(** *** MutableOrHashableSequentialSet

    The class has the slots of [SequentialSet] and a [hash] slot, and
    methods of its own, none inherited from [MutableSequentialSet]. *)
Record MutableOrHashableSequentialSet : Type := mkMoh {
  moh_base : SequentialSet;
  moh_slot_hash : option Z
}.

Definition moh_init (iterable : list T) : MutableOrHashableSequentialSet :=
  {| moh_base := init iterable; moh_slot_hash := None |}.

(** An operation on the [values] and [indexes] slots. *)
Definition on_slots {A} (m : M SequentialSet A)
  : M MutableOrHashableSequentialSet A :=
  fun s => let (r, b) := m (moh_base s) in
           (r, {| moh_base := b; moh_slot_hash := moh_slot_hash s |}).

(** [MutableOrHashableSequentialSet.__hash__] *)
Definition moh_hash : M MutableOrHashableSequentialSet Z :=
  fun s => match moh_slot_hash s with
           | Some h => (Ok h, s)
           | None => let h := sum_hashes (values (moh_base s)) in
                     (Ok h, {| moh_base := moh_base s; moh_slot_hash := Some h |})
           end.

(** [if self.hash is not None: raise ValueError(...)] *)
Definition moh_check : M MutableOrHashableSequentialSet unit :=
  fun s => match moh_slot_hash s with
           | Some _ => (Raise (ValueError ProhibitedToModify), s)
           | None => (Ok tt, s)
           end.

Definition moh_delitem (index : Z) : M MutableOrHashableSequentialSet unit :=
  moh_check ;;;
  value <- on_slots (values_pop index) ;;
  on_slots (indexes_pop value) ;;;
  tail <- gets (fun s => slice_from (values (moh_base s)) index) ;;
  for_each (enumerate tail index)
           (fun '(i, value) => on_slots (indexes_set value i)).

Definition moh_setitem (i : Z) (new_value : T)
  : M MutableOrHashableSequentialSet unit :=
  old_value <- on_slots (values_get i) ;;
  if py_eqb new_value old_value then ret tt
  else
    present <- gets (fun s => contains (moh_base s) new_value) ;;
    if (present : bool) then raise (ValueError AlreadyAtDifferentIndex)
    else
      moh_check ;;;
      on_slots (indexes_pop old_value) ;;;
      on_slots (values_set i new_value) ;;;
      on_slots (indexes_set new_value i).

Definition moh_insert (index : Z) (value : T)
  : M MutableOrHashableSequentialSet unit :=
  moh_check ;;;
  present <- gets (fun s => contains (moh_base s) value) ;;
  if (present : bool) then raise (ValueError AlreadyInSet)
  else
    on_slots (values_insert index value) ;;;
    tail <- gets (fun s => slice_from (values (moh_base s)) index) ;;
    for_each (enumerate tail index)
             (fun '(i, element) => on_slots (indexes_set element i)).

Definition moh_add (value : T) : M MutableOrHashableSequentialSet unit :=
  present <- gets (fun s => contains (moh_base s) value) ;;
  if (present : bool) then ret tt
  else
    moh_check ;;;
    n <- gets (fun s => len (values (moh_base s))) ;;
    on_slots (indexes_set value n) ;;;
    on_slots (values_append value).

Definition moh_push (element : T) : M MutableOrHashableSequentialSet Z :=
  i <- gets (fun s => match dict_get (indexes (moh_base s)) element with
                      | Some i => i
                      | None => len (indexes (moh_base s))
                      end) ;;
  n <- gets (fun s => len (values (moh_base s))) ;;
  (if i =? n
   then moh_check ;;;
        on_slots (indexes_set element i) ;;;
        on_slots (values_append element)
   else ret tt) ;;;
  ret i.

Definition moh_update (elements : list T)
  : M MutableOrHashableSequentialSet unit :=
  for_each elements moh_add.

Definition moh_remove (value : T) : M MutableOrHashableSequentialSet unit :=
  moh_check ;;;
  i <- on_slots (indexes_pop value) ;;
  filler <- on_slots (values_pop (-1)) ;;
  n <- gets (fun s => len (indexes (moh_base s))) ;;
  if i <? n
  then on_slots (values_set i filler) ;;; on_slots (indexes_set filler i)
  else ret tt.

Definition moh_discard (value : T) : M MutableOrHashableSequentialSet unit :=
  present <- gets (fun s => contains (moh_base s) value) ;;
  if (present : bool) then moh_remove value else ret tt.
End Sets.
Arguments SequentialSet T : clear implicits.
Arguments HashableSequentialSet T : clear implicits.
Arguments DynSet T : clear implicits.
Arguments MutableOrHashableSequentialSet T : clear implicits.
End SequentialSets.

(** ** Python strings *)

Definition chars (s : string) : list ascii := list_ascii_of_string s.
Definition str (l : list ascii) : string := string_of_list_ascii l.

Definition str_len (s : string) : Z := len (chars s).

(** [s[i]] *)
Definition str_getitem (s : string) (i : Z) : outcome ascii :=
  list_getitem (chars s) i.

(** [s[a:b]] *)
Definition str_slice (s : string) (a b : Z) : string :=
  str (skipn (clamp_index (chars s) a)
             (firstn (clamp_index (chars s) b) (chars s))).

Fixpoint is_prefix (p l : list ascii) : bool :=
  match p, l with
  | [], _ => true
  | _ :: _, [] => false
  | x :: p', y :: l' => Ascii.eqb x y && is_prefix p' l'
  end.

Definition startswith (s p : string) : bool := is_prefix (chars p) (chars s).

(** [s.split(sep, maxsplit)] for a non-empty [sep], read left to right:
    [skip] characters of a separator just found are still to be dropped,
    [budget] is the number of splits left ([None]: no limit) and [word]
    the word being read. *)
Fixpoint split_go (sep : list ascii) (s : list ascii) (budget : option nat)
                  (skip : nat) (word : list ascii) : list string :=
  match s with
  | [] => [str word]
  | c :: rest =>
      match skip with
      | S k => split_go sep rest budget k word
      | O =>
          let may_split := match budget with Some O => false | _ => true end in
          if may_split && is_prefix sep s
          then str word :: split_go sep rest (option_map Nat.pred budget)
                                    (Nat.pred (List.length sep)) []
          else split_go sep rest budget O (word ++ [c])
      end
  end.

Definition str_split (s sep : string) (maxsplit : Z) : outcome (list string) :=
  match chars sep with
  | [] => Raise (ValueError EmptySeparator)
  | _ => Ok (split_go (chars sep) (chars s)
                      (if maxsplit <? 0 then None else Some (Z.to_nat maxsplit))
                      O [])
  end.

(** Character classes of [str.isalpha] and [str.isalnum] on the code points
    below 256. *)
Definition isalpha (c : ascii) : bool :=
  let n := N.to_nat (N_of_ascii c) in
  ((65 <=? n) && (n <=? 90) || (97 <=? n) && (n <=? 122)
   || (n =? 170) || (n =? 181) || (n =? 186)
   || (192 <=? n) && (n <=? 214) || (216 <=? n) && (n <=? 246)
   || (248 <=? n) && (n <=? 255))%nat.

Definition isalnum (c : ascii) : bool :=
  let n := N.to_nat (N_of_ascii c) in
  (isalpha c || (48 <=? n) && (n <=? 57)
   || (n =? 178) || (n =? 179) || (n =? 185)
   || (188 <=? n) && (n <=? 190))%nat.

(** A scanner: the length consumed at an offset, or an exception. *)
Definition scanner : Type := string -> Z -> outcome Z.

(** ** libs/token_parsers.py *)

Module TokenParsers.

Definition get_keyword_parser (keyword : string) : scanner :=
  fun source offset =>
    if String.eqb (str_slice source offset (offset + str_len keyword)) keyword
    then Ok (str_len keyword)
    else Raise (ValueError (NoKeywordHere keyword)).

(** The loop of [ignore_spaces] and of [ignore_spaces_and_newlines]; it
    runs at most [len(source) - offset] times. *)
Fixpoint skip_while (skipped : ascii -> bool) (source : string) (offset : Z)
                    (fuel : nat) (spaces : Z) : outcome Z :=
  if offset + spaces <? str_len source then
    c <~ str_getitem source (offset + spaces) ;;
    if skipped c then
      match fuel with
      | O => OutOfFuel
      | S fuel' => skip_while skipped source offset fuel' (spaces + 1)
      end
    else Ok spaces
  else Ok spaces.

Definition space_or_tab (c : ascii) : bool :=
  Ascii.eqb c " " || Ascii.eqb c "009".
Definition space_tab_or_newline (c : ascii) : bool :=
  Ascii.eqb c " " || Ascii.eqb c "009" || Ascii.eqb c "010".

Definition ignore_spaces : scanner :=
  fun source offset =>
    skip_while space_or_tab source offset
               (Z.to_nat (str_len source - offset)) 0.

Definition ignore_spaces_and_newlines : scanner :=
  fun source offset =>
    skip_while space_tab_or_newline source offset
               (Z.to_nat (str_len source - offset)) 0.

Definition TOKEN_PARSERS : dict string scanner :=
  [("", ignore_spaces); (" ", ignore_spaces_and_newlines)].

End TokenParsers.

#[export] Instance string_PyEq : PyEq string := String.eqb.
#[export] Instance Z_PyEq : PyEq Z := Z.eqb.
#[export] Instance option_PyEq {A} `{PyEq A} : PyEq (option A) :=
  fun a b => match a, b with
             | Some x, Some y => py_eqb x y
             | None, None => true
             | _, _ => false
             end.
#[export] Instance pair_PyEq {A B} `{PyEq A} `{PyEq B} : PyEq (A * B) :=
  fun a b => py_eqb (fst a) (fst b) && py_eqb (snd a) (snd b).

Fixpoint list_eqb {A} `{PyEq A} (a b : list A) : bool :=
  match a, b with
  | [], [] => true
  | x :: a', y :: b' => py_eqb x y && list_eqb a' b'
  | _, _ => false
  end.
#[export] Instance list_PyEq {A} `{PyEq A} : PyEq (list A) := list_eqb.

(** ** libs/syntax_lsp_friendly_v208.py *)

Module Syntax.
Import SequentialSets TokenParsers.

(** [split_str]: the words of [string.split(sep, maxsplit)], an empty word
    that follows an empty word or a run of separators being merged into
    it. *)
Definition split_str_step (sep : string) (result : list string)
                          (word : string) : list string :=
  match rev result with
  | last :: before =>
      if String.eqb word "" && (String.eqb last "" || startswith last sep)
      then rev before ++ [last ++ sep]%string
      else result ++ [word]
  | [] => result ++ [word]
  end.

Definition split_str (text sep : string) (maxsplit : Z)
  : outcome (list string) :=
  words <~ str_split text sep maxsplit ;;
  Ok (fold_left (split_str_step sep) words []).

(** [Rule]; the head of the synthetic root rule is [None]. *)
Record Rule : Type := mkRule {
  head : option string;
  body : list string
}.

Record LR1Item : Type := mkItem {
  dot : Z;
  rule : Rule;
  follower : option string
}.

#[export] Instance Rule_PyEq : PyEq Rule :=
  fun a b => py_eqb (head a) (head b) && py_eqb (body a) (body b).
#[export] Instance LR1Item_PyEq : PyEq LR1Item :=
  fun a b => py_eqb (dot a) (dot b) && py_eqb (rule a) (rule b)
             && py_eqb (follower a) (follower b).
#[export] Instance DynSet_PyEq {T} `{PyEq T} : PyEq (DynSet T) :=
  dyn_eqb.

(** [LR1Item.next] *)
Definition item_next (item : LR1Item) : outcome (option string) :=
  if dot item <? len (body (rule item))
  then x <~ list_getitem (body (rule item)) (dot item) ;; Ok (Some x)
  else Ok None.

(** [LR1Item.tail] *)
Definition item_tail (item : LR1Item) : list string :=
  slice_from (body (rule item)) (dot item + 1).

(** [Node]; a parse stack holds states and nodes, and the children of an
    interior node are the stack cells it was reduced from. *)
Inductive Node : Type :=
| mkNode (name : option string) (span : Z * Z) (value : node_value)
with node_value : Type :=
| Text (s : string)
| Cells (l : list cell)
with cell : Type :=
| State (state : Z)
| Tree (n : Node).

Definition node_span (n : Node) : Z * Z :=
  match n with mkNode _ span _ => span end.

Record Syntax : Type := mkSyntax {
  rule_list : list Rule;
  token_parsers : dict string scanner
}.

(** Running a method on a set held in a variable. *)
Definition run {S A} (m : M S A) (s : S) : outcome (A * S) :=
  match m s with
  | (Ok a, s') => Ok (a, s')
  | (Raise e, _) => Raise e
  | (OutOfFuel, _) => OutOfFuel
  end.

Definition exec {S A} (m : M S A) (s : S) : outcome S :=
  '(_, s') <~ run m s ;; Ok s'.

(** [d[k]] and a method run on the set [d[k]]. *)
Definition dict_getitem {K V} `{PyEq K} (d : dict K V) (k : K) : outcome V :=
  match dict_get d k with
  | Some v => Ok v
  | None => Raise KeyError
  end.

Definition dict_exec {K V A} `{PyEq K} (d : dict K V) (k : K) (m : M V A)
  : outcome (dict K V) :=
  v <~ dict_getitem d k ;;
  v' <~ exec m v ;;
  Ok (dict_set d k v').

(** [Syntax.from_rules] *)
Definition from_rules (rules : list Rule)
                      (extra_parsers : option (dict string scanner)) : Syntax :=
  let extra_parsers := match extra_parsers with Some d => d | None => [] end in
  let nodes := map head rules in
  let tokens :=
    dyn_init (flat_map (fun r => filter (fun t => negb (existsb (py_eqb (Some t)) nodes))
                                        (body r)) rules) in
  let token_parsers :=
    fold_left
      (fun parsers token =>
         match dict_get extra_parsers token with
         | Some p => dict_set parsers token p
         | None =>
             match dict_get TOKEN_PARSERS token with
             | Some p => dict_set parsers token p
             | None => dict_set parsers token (get_keyword_parser token)
             end
         end)
      (dyn_iter tokens) [] in
  mkSyntax rules token_parsers.

(** [Syntax.from_description]: a rule is a shorthand string or a [Rule]. *)
Fixpoint real_rules (rules : list (string + Rule)) : outcome (list Rule) :=
  match rules with
  | [] => Ok []
  | r :: rest =>
      rule <~ match r with
              | inl text =>
                  words <~ split_str text " " (-1) ;;
                  match words with
                  | h :: b => Ok (mkRule (Some h) b)
                  | [] => Raise (ValueError NotEnoughValues)
                  end
              | inr rule => Ok rule
              end ;;
      rest' <~ real_rules rest ;;
      Ok (rule :: rest')
  end.

Definition from_description (rules : list (string + Rule))
                            (extra_parsers : option (dict string scanner))
  : outcome Syntax :=
  rules' <~ real_rules rules ;;
  Ok (from_rules rules' extra_parsers).

Fixpoint ofold {A B} (f : A -> B -> outcome A) (l : list B) (a : A)
  : outcome A :=
  match l with
  | [] => Ok a
  | x :: rest => a' <~ f a x ;; ofold f rest a'
  end.

(** A symbol is a head or a body symbol; a prefix set holds terminals and
    the nullability marker [None]. *)
Definition symbol_set : Type := DynSet (option string).

Section Grammar.
Variable self : Syntax.

(** [Syntax.nodes] *)
Definition nodes : symbol_set := dyn_init (map head (rule_list self)).

(** [Syntax.symbols] *)
Definition symbols : outcome symbol_set :=
  exec (dyn_update (dyn_iter nodes))
       (dyn_init (map Some (flat_map body (rule_list self)))).

(** [Syntax.tokens] *)
Definition tokens : outcome symbol_set :=
  symbols <~ symbols ;;
  Ok (dyn_init (filter (fun symbol => negb (dyn_contains nodes symbol))
                       (dyn_iter symbols))).

(** [Syntax.rules] *)
Definition rules : outcome (dict (option string) (DynSet Rule)) :=
  ofold (fun rules rule => dict_exec rules (head rule) (dyn_add rule))
        (rule_list self)
        (fold_left (fun d node => dict_set d node (dyn_init []))
                   (dyn_iter nodes) []).

(** One turn of the inner [while] of [Syntax.prefixes] and what follows
    it: [body] is what is left of the rule's body. The [for] loop adds
    to [prefixes[node]] only what is absent from it, so the set it walks
    does not grow under it even when [node] is [body[0]]. *)
Definition prefix_table : Type := dict (option string) symbol_set.

Definition add_first (node : option string) (st : prefix_table * bool)
                     (first : option string) : outcome (prefix_table * bool) :=
  let (prefixes, done) := st in
  of_node <~ dict_getitem prefixes node ;;
  if dyn_contains of_node first then Ok (prefixes, done)
  else
    prefixes' <~ dict_exec prefixes node (dyn_add first) ;;
    Ok (prefixes', false).

Definition exclude_nones {A} (l : list (option A)) : list (option A) :=
  filter (fun x => match x with Some _ => true | None => false end) l.

Fixpoint scan_body (node : option string) (body : list string)
                   (st : prefix_table * bool) : outcome (prefix_table * bool) :=
  match body with
  | [] =>
      let (prefixes, done) := st in
      of_node <~ dict_getitem prefixes node ;;
      if dyn_contains of_node None then Ok (prefixes, done)
      else
        prefixes' <~ dict_exec prefixes node (dyn_add None) ;;
        Ok (prefixes', false)
  | symbol :: rest =>
      of_symbol <~ dict_getitem (fst st) (Some symbol) ;;
      st' <~ ofold (add_first node) (exclude_nones (dyn_iter of_symbol)) st ;;
      of_symbol' <~ dict_getitem (fst st') (Some symbol) ;;
      if negb (dyn_contains of_symbol' None) then Ok st'
      else scan_body node rest st'
  end.

(** One turn of the outer [while]: [done = True] and the [for] loop. *)
Definition prefixes_pass (prefixes : prefix_table)
  : outcome (prefix_table * bool) :=
  ofold (fun st rule => scan_body (head rule) (body rule) st)
        (rule_list self) (prefixes, true).

Fixpoint prefixes_loop (fuel : nat) (prefixes : prefix_table)
  : outcome prefix_table :=
  match fuel with
  | O => OutOfFuel
  | S fuel' =>
      '(prefixes', done) <~ prefixes_pass prefixes ;;
      if (done : bool) then Ok prefixes' else prefixes_loop fuel' prefixes'
  end.

(** [Syntax.prefixes] *)
Definition prefixes (fuel : nat) : outcome prefix_table :=
  tokens <~ tokens ;;
  let prefixes0 : prefix_table :=
    fold_left (fun d node => dict_set d node (dyn_init []))
              (dyn_iter nodes) [] in
  let prefixes1 : prefix_table :=
    fold_left (fun d token => dict_set d token (dyn_init [token]))
              (dyn_iter tokens) prefixes0 in
  prefixes_loop fuel prefixes1.

(** [Syntax.get_sequence_prefixes], given the computed [self.prefixes]. *)
Fixpoint sequence_prefixes_loop (table : prefix_table)
                                (sequence : list (option string))
                                (prefixes : symbol_set) : outcome symbol_set :=
  match sequence with
  | [] => Ok prefixes
  | symbol :: rest =>
      if dyn_contains prefixes None
         && match symbol with Some _ => true | None => false end
      then
        prefixes1 <~ exec (dyn_remove None) prefixes ;;
        of_symbol <~ dict_getitem table symbol ;;
        prefixes2 <~ exec (dyn_update (dyn_iter of_symbol)) prefixes1 ;;
        sequence_prefixes_loop table rest prefixes2
      else Ok prefixes
  end.

Definition get_sequence_prefixes (table : prefix_table)
                                 (sequence : list (option string))
  : outcome symbol_set :=
  sequence_prefixes_loop table sequence (dyn_init [None]).

Definition item_set : Type := DynSet LR1Item.

(** The body of the [for] loop of [Syntax.lr1_closure]. *)
Definition close_item (rules : dict (option string) (DynSet Rule))
                      (table : prefix_table)
                      (items : item_set) (item : LR1Item) : outcome item_set :=
  followers <~ get_sequence_prefixes table
                 (map Some (item_tail item) ++ [follower item]) ;;
  next <~ item_next item ;;
  ofold (fun items rule =>
           ofold (fun items follower =>
                    exec (dyn_add (mkItem 0 rule follower)) items)
                 (dyn_iter followers) items)
        (match dict_get rules next with
         | Some of_head => dyn_iter of_head
         | None => []
         end)
        items.

(** The loop walks [item_set] while it grows: [cursor] is the position
    of the list iterator. *)
Fixpoint closure_loop (rules : dict (option string) (DynSet Rule))
                      (table : prefix_table) (fuel : nat) (cursor : nat)
                      (items : item_set) : outcome item_set :=
  match nth_error (dyn_iter items) cursor with
  | None => Ok items
  | Some item =>
      match fuel with
      | O => OutOfFuel
      | S fuel' =>
          items' <~ close_item rules table items item ;;
          closure_loop rules table fuel' (S cursor) items'
      end
  end.

(** [Syntax.lr1_closure], given [self.rules] and [self.prefixes]. *)
Definition lr1_closure (rules : dict (option string) (DynSet Rule))
                       (table : prefix_table) (fuel : nat)
                       (core_items : item_set) : outcome item_set :=
  closure_loop rules table fuel O (dyn_init (dyn_iter core_items)).

(** [Syntax.scan_token]; the [print] calls are left out. *)
Definition try_scanner (source : string) (i : Z) (best : Z * string)
                       (entry : string * scanner) : outcome (Z * string) :=
  let (max_len, recognised_token) := best in
  let (token, scan) := entry in
  match scan source i with
  | Ok length => if length >? max_len then Ok (length, token)
                 else Ok (max_len, recognised_token)
  | Raise (ValueError _) => Ok (max_len, recognised_token)
  | Raise e => Raise e
  | OutOfFuel => OutOfFuel
  end.

Definition scan_token (source : string) (i : Z)
  : outcome (option string * (Z * Z)) :=
  if i >=? str_len source then Ok (None, (i, i))
  else
    '(max_len, recognised_token) <~
      ofold (try_scanner source i) (token_parsers self) (-1, "???") ;;
    if max_len =? -1 then Raise (ValueError (UnrecognizedToken i))
    else Ok (Some recognised_token, (i, i + max_len)).
End Grammar.

(** *** LR1Parser *)

Inductive action : Type :=
| Shift (state : Z)
| Reduce (rule : Rule)
| Accept.

Definition goto_table : Type := dict (Z * option string) Z.
Definition action_table : Type := dict (Z * option string) action.

Section Parser.
(** [hash] on items, an interpreter built-in. *)
Variable hash_item : LR1Item -> Z.
Variable syntax : Syntax.
Variable root_node : string.

(** Hashing a set of items, which a set of sets does to its elements,
    fills the [hash] slot of the element. *)
Definition hashed (items : item_set) : item_set :=
  snd (dyn_hash hash_item items).

(** [item.dot < len(rule.body) and rule.body[item.dot] == next_symbol] *)
Definition expects (next_symbol : option string) (item : LR1Item)
  : outcome bool :=
  if dot item <? len (body (rule item)) then
    x <~ list_getitem (body (rule item)) (dot item) ;;
    Ok (py_eqb (Some x) next_symbol)
  else Ok false.

Fixpoint advanced (next_symbol : option string) (items : list LR1Item)
  : outcome (list LR1Item) :=
  match items with
  | [] => Ok []
  | item :: rest =>
      keep <~ expects next_symbol item ;;
      rest' <~ advanced next_symbol rest ;;
      Ok (if (keep : bool)
          then mkItem (dot item + 1) (rule item) (follower item) :: rest'
          else rest')
  end.

(** The body of the inner [for] of [item_sets_and_gotos]. *)
Definition add_goto (i : Z) (closure : item_set)
                    (st : DynSet item_set * goto_table)
                    (next_symbol : option string)
  : outcome (DynSet item_set * goto_table) :=
  let (item_sets, gotos) := st in
  moved <~ advanced next_symbol (dyn_iter closure) ;;
  let next_set := dyn_init moved in
  if len (dyn_iter next_set) =? 0 then Ok st
  else
    '(j, item_sets') <~ run (dyn_push (hashed next_set)) item_sets ;;
    Ok (item_sets', dict_set gotos (i, next_symbol) j).

(** The outer [for] walks [item_sets] while it grows. *)
Fixpoint item_sets_loop (rules : dict (option string) (DynSet Rule))
                        (table : prefix_table) (symbols : symbol_set)
                        (closure_fuel fuel : nat) (cursor : nat)
                        (st : DynSet item_set * goto_table)
  : outcome (DynSet item_set * goto_table) :=
  match nth_error (dyn_iter (fst st)) cursor with
  | None => Ok st
  | Some core =>
      match fuel with
      | O => OutOfFuel
      | S fuel' =>
          closure <~ lr1_closure rules table closure_fuel core ;;
          st' <~ ofold (add_goto (Z.of_nat cursor) closure)
                       (dyn_iter symbols) st ;;
          item_sets_loop rules table symbols closure_fuel fuel' (S cursor) st'
      end
  end.

(** [LR1Parser.item_sets_and_gotos] *)
Definition item_sets_and_gotos (fuel : nat)
  : outcome (DynSet item_set * goto_table) :=
  let root_item := mkItem 0 (mkRule None [root_node]) None in
  let item_sets := dyn_init [hashed (dyn_init [root_item])] in
  rules <~ rules syntax ;;
  table <~ prefixes syntax fuel ;;
  symbols <~ symbols syntax ;;
  item_sets_loop rules table symbols fuel fuel O (item_sets, []).

(** An assignment to [actions] behind its [assert]. *)
Definition assign (actions : action_table) (key : Z * option string)
                  (a : action) : outcome action_table :=
  if dict_mem actions key then Raise (AssertionError "Conflict!")
  else Ok (dict_set actions key a).

Definition add_shift (gotos : goto_table) (i : Z) (actions : action_table)
                     (t : option string) : outcome action_table :=
  match dict_get gotos (i, t) with
  | Some j => if j =? 0 then Ok actions else assign actions (i, t) (Shift j)
  | None => Ok actions
  end.

Definition add_reduce (i : Z) (actions : action_table) (item : LR1Item)
  : outcome action_table :=
  if dot item =? len (body (rule item)) then
    match head (rule item), follower item with
    | Some _, _ => assign actions (i, follower item) (Reduce (rule item))
    | None, None => assign actions (i, None) Accept
    | None, Some _ => Ok actions
    end
  else Ok actions.

(** The body of the [for] loop of [actions], for state [i]. *)
Definition state_actions (rules : dict (option string) (DynSet Rule))
                         (table : prefix_table) (tokens : symbol_set)
                         (gotos : goto_table) (fuel : nat)
                         (st : Z * action_table) (core : item_set)
  : outcome (Z * action_table) :=
  let (i, actions) := st in
  closure <~ lr1_closure rules table fuel core ;;
  actions1 <~ ofold (add_shift gotos i) (dyn_iter tokens) actions ;;
  actions2 <~ ofold (add_reduce i) (dyn_iter closure) actions1 ;;
  Ok (i + 1, actions2).

(** [LR1Parser.actions], given the item sets and gotos. *)
Definition build_actions (item_sets : DynSet item_set)
                         (gotos : goto_table) (fuel : nat)
  : outcome action_table :=
  rules <~ rules syntax ;;
  table <~ prefixes syntax fuel ;;
  tokens <~ tokens syntax ;;
  '(_, actions) <~ ofold (state_actions rules table tokens gotos fuel)
                         (dyn_iter item_sets) (0, []) ;;
  Ok actions.

Definition actions (fuel : nat) : outcome action_table :=
  '(item_sets, gotos) <~ item_sets_and_gotos fuel ;;
  build_actions item_sets gotos fuel.

Definition gotos (fuel : nat) : outcome goto_table :=
  '(_, gotos) <~ item_sets_and_gotos fuel ;;
  Ok gotos.

(** A configuration of the driver: the stack, the current token and its
    span. *)
Record config : Type := mkConfig {
  stack : list cell;
  token : option string;
  span : Z * Z
}.

Inductive progress : Type :=
| Continue (c : config)
| Return (result : cell).

Definition expected_tokens (actions : action_table) (state : Z)
  : list (option string) :=
  fromkeys (map snd (filter (fun key => fst key =? state) (dict_keys actions))).

Definition cell_span (c : cell) : outcome (Z * Z) :=
  match c with
  | Tree n => Ok (node_span n)
  | State _ => Raise AttributeError
  end.

(** One turn of the [while True] of [parse]. [tables] is what reading
    [self.actions] and [self.gotos] gives. *)
Definition parse_step (tables : outcome (action_table * goto_table))
                      (source : string) (c : config) : outcome progress :=
  let (i, j) := span c in
  '(actions, gotos) <~ tables ;;
  top <~ list_getitem (stack c) (-1) ;;
  match top with
  | Tree (mkNode _ _ (Cells _)) => Raise TypeError
  | Tree (mkNode _ _ (Text _)) =>
      Raise (ValueError (UnexpectedToken i j (token c) []))
  | State state =>
      match dict_get actions (state, token c) with
      | None =>
          Raise (ValueError (UnexpectedToken i j (token c)
                               (expected_tokens actions state)))
      | Some (Shift target) =>
          let stack1 :=
            (stack c ++ [Tree (mkNode (token c) (i, j) (Text (str_slice source i j)))])
              ++ [State target] in
          '(token', span') <~ scan_token syntax source j ;;
          Ok (Continue (mkConfig stack1 token' span'))
      | Some (Reduce rule) =>
          let n := len (body rule) in
          let stack1 := slice_to (stack c) (- n * 2) in
          let children := slice_from_step2 (stack c) (- n * 2) in
          below <~ list_getitem stack1 (-1) ;;
          state' <~ match below with
                    | State s => dict_getitem gotos (s, head rule)
                    | Tree (mkNode _ _ (Cells _)) => Raise TypeError
                    | Tree (mkNode _ _ (Text _)) => Raise KeyError
                    end ;;
          first <~ list_getitem children 0 ;;
          first_span <~ cell_span first ;;
          last <~ list_getitem children (-1) ;;
          last_span <~ cell_span last ;;
          Ok (Continue
                (mkConfig
                   (stack1 ++ [Tree (mkNode (head rule)
                                       (fst first_span, snd last_span)
                                       (Cells children));
                               State state'])
                   (token c) (span c)))
      | Some Accept =>
          result <~ list_getitem (stack c) 1 ;;
          Ok (Return result)
      end
  end.

Fixpoint parse_loop (tables : outcome (action_table * goto_table))
                    (source : string) (fuel : nat) (c : config)
  : outcome cell :=
  match fuel with
  | O => OutOfFuel
  | S fuel' =>
      p <~ parse_step tables source c ;;
      match p with
      | Continue c' => parse_loop tables source fuel' c'
      | Return result => Ok result
      end
  end.

(** [self.actions] and [self.gotos] as [parse] reads them. *)
Definition tables (fuel : nat) : outcome (action_table * goto_table) :=
  '(item_sets, gotos) <~ item_sets_and_gotos fuel ;;
  actions <~ build_actions item_sets gotos fuel ;;
  Ok (actions, gotos).

(** [LR1Parser.parse]: [build] bounds the loops that build the tables,
    [steps] the turns of the driver. *)
Definition parse (build steps : nat) (source : string) (offset : Z)
  : outcome cell :=
  '(token, span) <~ scan_token syntax source offset ;;
  parse_loop (tables build) source steps (mkConfig [State 0] token span).
End Parser.
End Syntax.

(** ** rat.py *)

Module Rat.
Import Syntax.

Definition parse_identifier : scanner :=
  fun source offset =>
    c <~ str_getitem source offset ;;
    if negb (isalpha c) then Raise (ValueError NotAnIdentifier)
    else
      let i := offset in
      let j := offset + 1 in
      j' <~ (if j <? str_len source then
               d <~ str_getitem source j ;;
               Ok (if isalnum d || Ascii.eqb d "_" then j + 1 else j)
             else Ok j) ;;
      Ok (j' - i).

Definition rules : list (string + Rule) :=
  [inl "stmts identifier  =  expr"; inl "expr identifier"].

Definition token_parsers : dict string scanner :=
  [("identifier", parse_identifier)].

Definition syntax : outcome Syntax :=
  from_description rules (Some token_parsers).

(** [syntax.get_parser_for("stmts").parse(source)] *)
Definition parse (hash_item : LR1Item -> Z) (build steps : nat)
                 (source : string) : outcome cell :=
  syntax <~ syntax ;;
  Syntax.parse hash_item syntax "stmts" build steps source 0.
End Rat.

(** ** Notions the properties are stated with *)

Unset Implicit Arguments.

(** A type whose [==] is Leibniz equality. *)
Class PyEqLeibniz (T : Type) `{PyEq T} : Prop :=
  py_eqb_eq : forall x y : T, py_eqb x y = true <-> x = y.
#[global] Hint Mode PyEqLeibniz ! - : typeclass_instances.

Module SetSpec.
Import SequentialSets.
Section Spec.
Context {T : Type} `{PyEq T}.

(** The class invariant of a sequential set: [values] holds no value
    twice, and [indexes] maps each value to its position and holds
    nothing else. *)
Definition coherent (s : SequentialSet T) : Prop :=
  NoDup (values s)
  /\ NoDup (dict_keys (indexes s))
  /\ List.length (indexes s) = List.length (values s)
  /\ forall i v, nth_error (values s) i = Some v ->
                 dict_get (indexes s) v = Some (Z.of_nat i).

(** The position the set records for a value. *)
Definition position (s : SequentialSet T) (v : T) : option Z :=
  dict_get (indexes s) v.

(** The upper bound [index] works with. *)
Definition real_stop (stop : option Z) : Z :=
  match stop with Some n => n | None => 2 ^ 30 end.

(** What [add] and [push] do to a set that lacks the value. *)
Definition appended (s : SequentialSet T) (v : T) : SequentialSet T :=
  {| values := values s ++ [v];
     indexes := dict_set (indexes s) v (len (values s)) |}.

(** The values of [l] that are not in [seen], each kept at its first
    occurrence. *)
Fixpoint unseen (seen l : list T) : list T :=
  match l with
  | [] => []
  | x :: rest =>
      if existsb (py_eqb x) seen then unseen seen rest
      else x :: unseen (seen ++ [x]) rest
  end.

Definition first_occurrences (l : list T) : list T := unseen [] l.

(** A set that has been hashed. *)
Definition frozen (s : DynSet T) : Prop := hash s <> None.
End Spec.
End SetSpec.

Module SyntaxSpec.
Import SequentialSets Syntax.

(** The contract of a scanner at an offset: a consumed length, which is
    not negative, or a [ValueError] for "no match". *)
Definition obeys_contract (source : string) (i : Z)
                          (entry : string * scanner) : bool :=
  match snd entry source i with
  | Ok n => 0 <=? n
  | Raise (ValueError _) => true
  | _ => false
  end.

Definition no_match (source : string) (i : Z)
                    (entry : string * scanner) : bool :=
  match snd entry source i with
  | Raise (ValueError _) => true
  | _ => false
  end.

(** [n] copies of the separator character. *)
Fixpoint run_of (c : ascii) (n : nat) : string :=
  match n with
  | O => ""
  | S n' => String c (run_of c n')
  end.

(** A symbol of a shorthand rule: not empty, without the separator. *)
Definition is_word (c : ascii) (w : string) : bool :=
  negb (String.eqb w "")
  && forallb (fun ch => negb (Ascii.eqb ch c)) (chars w).

(** A shorthand rule: a first word, then runs of separators, each
    followed by a word. *)
Fixpoint shorthand (c : ascii) (w0 : string) (rest : list (nat * string))
  : string :=
  match rest with
  | [] => w0
  | (n, w) :: rest' => (w0 ++ run_of c n ++ shorthand c w rest')%string
  end.

(** What a run of [n] separators leaves between two words. *)
Definition run_symbol (c : ascii) (n : nat) : list string :=
  match n with
  | O | S O => []
  | S (S k) => [run_of c k]
  end.

Definition symbols_of (c : ascii) (w0 : string) (rest : list (nat * string))
  : list string :=
  w0 :: flat_map (fun '(n, w) => run_symbol c n ++ [w]) rest.

(** The terminals of a list of rules: the body symbols that are the head
    of no rule, in the order in which they first occur. *)
Definition is_head (rules : list Rule) (t : string) : bool :=
  existsb (py_eqb (Some t)) (map head rules).

Definition rule_tokens (rules : list Rule) : list string :=
  SetSpec.first_occurrences
    (filter (fun t => negb (is_head rules t)) (flat_map body rules)).
End SyntaxSpec.

Module TokenSpec.
(** [n] is the length of the longest run of characters accepted by
    [blank] that starts at [offset]. *)
Definition blank_run (blank : ascii -> bool) (source : string)
                     (offset n : Z) : Prop :=
  0 <= n
  /\ (forall k, 0 <= k < n ->
                exists c, str_getitem source (offset + k) = Ok c /\ blank c = true)
  /\ (offset + n < str_len source ->
      exists c, str_getitem source (offset + n) = Ok c /\ blank c = false).

(** The keyword stands in the source at the offset. *)
Definition keyword_at (keyword source : string) (offset : Z) : bool :=
  is_prefix (chars keyword) (skipn (Z.to_nat offset) (chars source)).
End TokenSpec.

Module GrammarSpec.
Import SequentialSets SetSpec Syntax.

(** The table [rules] has built after the rules [done]: one key for
    each head, mapped to the rules of that head seen so far. *)
Definition grouped (self : Syntax) (done : list Rule)
                   (d : dict (option string) (DynSet Rule)) : Prop :=
  dict_keys d = dyn_iter (nodes self)
  /\ forall h, In h (dyn_iter (nodes self)) ->
       exists set, dict_get d h = Some set
                   /\ hash set = None /\ coherent (base set)
                   /\ dyn_iter set
                      = unseen [] (filter (fun r => py_eqb (head r) h) done).

Definition is_none {A} (x : option A) : bool :=
  match x with Some _ => false | None => true end.

(** The terminals a sequence of symbols can start with, given the
    prefixes of its symbols; [None] stands for the end of the sequence. *)
Fixpoint first_of (table : prefix_table) (sequence : list (option string))
  : list (option string) :=
  match sequence with
  | [] => [None]
  | None :: _ => [None]
  | Some s :: rest =>
      match dict_get table (Some s) with
      | Some set =>
          if existsb is_none (dyn_iter set)
          then filter (fun x => negb (is_none x)) (dyn_iter set)
               ++ first_of table rest
          else dyn_iter set
      | None => []
      end
  end.

(** An item the closure adds: the dot in front of a rule of the table. *)
Definition fresh_item (rules : dict (option string) (DynSet Rule))
                      (item : LR1Item) : Prop :=
  dot item = 0
  /\ exists h set, dict_get rules h = Some set /\ In (rule item) (dyn_iter set).

(** [items] holds what the closure asks for because of [item]: for each
    rule of the symbol behind the dot and each terminal that can follow
    that symbol, the item with the dot in front of the rule. *)
Definition closed_under (rules : dict (option string) (DynSet Rule))
                        (table : prefix_table)
                        (items : item_set) (item : LR1Item) : Prop :=
  forall followers next set rule follower,
    get_sequence_prefixes table (map Some (item_tail item) ++ [Syntax.follower item])
    = Ok followers ->
    item_next item = Ok next ->
    dict_get rules next = Some set ->
    In rule (dyn_iter set) ->
    In follower (dyn_iter followers) ->
    In (mkItem 0 rule follower) (dyn_iter items).

(** [new] is an item the closure asks for because of [item]. *)
Definition asked_by (rules : dict (option string) (DynSet Rule))
                    (table : prefix_table)
                    (item new : LR1Item) : Prop :=
  exists followers next set rule follower,
    get_sequence_prefixes table (map Some (item_tail item) ++ [Syntax.follower item])
    = Ok followers
    /\ item_next item = Ok next
    /\ dict_get rules next = Some set
    /\ In rule (dyn_iter set)
    /\ In follower (dyn_iter followers)
    /\ new = mkItem 0 rule follower.

(** The table has the prefixes of every symbol of the body of [r]. *)
Definition known (table : prefix_table) (r : Rule) : Prop :=
  forall b, In b (body r) -> dict_get table (Some b) <> None.

(** The table has the prefixes of every symbol that is a prefix in it. *)
Definition prefixes_known (table : prefix_table) : Prop :=
  forall k set x,
    dict_get table k = Some set -> In (Some x) (dyn_iter set) ->
    dict_get table (Some x) <> None.

(** An item the loop of the closure can work on: its dot is not
    negative and the table knows its symbols. *)
Definition expandable (table : prefix_table) (item : LR1Item) : Prop :=
  0 <= dot item
  /\ known table (rule item)
  /\ forall x, Syntax.follower item = Some x -> dict_get table (Some x) <> None.

(** The items a closure of [core] is made of: the core, and the dot in
    front of a rule of the table with a prefix of the table, or [None],
    as follower. *)
Definition closure_universe (rules : dict (option string) (DynSet Rule))
                            (table : prefix_table)
                            (core : item_set) : list LR1Item :=
  dyn_iter core
  ++ flat_map (fun rule =>
                 map (mkItem 0 rule)
                     (None :: flat_map (fun e => dyn_iter (snd e)) table))
              (flat_map (fun e => dyn_iter (snd e)) rules).
End GrammarSpec.

Module StateSpec.
Import SequentialSets SetSpec Syntax.

(** The position map of a set that has only been appended to: the
    values with their positions, in order.  It needs no assumption on
    [==]. *)
Definition aligned {T} `{PyEq T} (s : SequentialSet T) : Prop :=
  indexes s = map (fun '(i, v) => (v, i)) (enumerate (values s) 0).

Definition root_item (root_node : string) : LR1Item :=
  mkItem 0 (mkRule None [root_node]) None.

Definition root_set (hash_item : LR1Item -> Z) (root_node : string) : item_set :=
  hashed hash_item (dyn_init [root_item root_node]).

(** The symbol behind the dot of an item, and the item with the dot
    moved over it. *)
Definition symbol_at_dot (item : LR1Item) : option string :=
  nth_error (body (rule item)) (Z.to_nat (dot item)).

Definition advance (item : LR1Item) : LR1Item :=
  mkItem (dot item + 1) (rule item) (follower item).

Definition waits_for (next_symbol : option string) (item : LR1Item) : bool :=
  match symbol_at_dot item with
  | Some x => py_eqb (Some x) next_symbol
  | None => false
  end.

(** The states and gotos while [item_sets_and_gotos] runs: state 0 is
    the root set, every state is a hashed set of items whose dot is not
    negative, and is past the start in every state but the first, and
    every goto leads to a state other than 0. *)
Definition states_ok (hash_item : LR1Item -> Z) (root_node : string)
                     (st : DynSet item_set * goto_table) : Prop :=
  hash (fst st) = None
  /\ aligned (base (fst st))
  /\ nth_error (dyn_iter (fst st)) 0 = Some (root_set hash_item root_node)
  /\ (forall k set, nth_error (dyn_iter (fst st)) k = Some set ->
        hash set <> None /\ coherent (base set)
        /\ forall item, In item (dyn_iter set) ->
                        (match k with O => 0 | S _ => 1 end) <= dot item)
  /\ (forall key j, dict_get (snd st) key = Some j ->
                    0 < j < len (dyn_iter (fst st))).
End StateSpec.

Module ActionSpec.
Import SequentialSets Syntax.

Definition entry : Type := (Z * option string) * action.

(** The assignments the loop of [actions] makes for state [i]: first the
    shifts, then the reduces and the accept. *)
Definition shift_entries (gotos : goto_table) (i : Z)
                         (tokens : list (option string)) : list entry :=
  flat_map (fun t => match dict_get gotos (i, t) with
                     | Some j => if j =? 0 then [] else [((i, t), Shift j)]
                     | None => []
                     end) tokens.

Definition reduce_entries (i : Z) (items : list LR1Item) : list entry :=
  flat_map (fun item =>
              if dot item =? len (body (rule item)) then
                match head (rule item), follower item with
                | Some _, _ => [((i, follower item), Reduce (rule item))]
                | None, None => [((i, None), Accept)]
                | None, Some _ => []
                end
              else []) items.

Definition state_entries (gotos : goto_table) (tokens : symbol_set) (i : Z)
                         (closure : item_set) : list entry :=
  shift_entries gotos i (dyn_iter tokens) ++ reduce_entries i (dyn_iter closure).

Fixpoint all_entries (gotos : goto_table) (tokens : symbol_set) (i : Z)
                     (closures : list item_set) : list entry :=
  match closures with
  | [] => []
  | closure :: rest =>
      state_entries gotos tokens i closure ++ all_entries gotos tokens (i + 1) rest
  end.

Fixpoint closures_of (rules : dict (option string) (DynSet Rule))
                     (table : prefix_table) (fuel : nat)
                     (cores : list item_set) : outcome (list item_set) :=
  match cores with
  | [] => Ok []
  | core :: rest =>
      closure <~ lr1_closure rules table fuel core ;;
      rest' <~ closures_of rules table fuel rest ;;
      Ok (closure :: rest')
  end.

(** All the assignments the construction of the ACTION table would make,
    in order. *)
Definition planned_entries (hash_item : LR1Item -> Z) (syntax : Syntax)
                           (root_node : string) (fuel : nat)
  : outcome (list entry) :=
  '(item_sets, gotos) <~ item_sets_and_gotos hash_item syntax root_node fuel ;;
  rules <~ rules syntax ;;
  table <~ prefixes syntax fuel ;;
  tokens <~ tokens syntax ;;
  closures <~ closures_of rules table fuel (dyn_iter item_sets) ;;
  Ok (all_entries gotos tokens 0 closures).

(** Two assignments go to the same (state, lookahead) pair. *)
Fixpoint has_conflict (entries : list entry) : bool :=
  match entries with
  | [] => false
  | e :: rest =>
      existsb (fun e' => py_eqb (fst e') (fst e)) rest || has_conflict rest
  end.

Definition assign_all (entries : list entry) (actions : action_table)
  : outcome action_table :=
  ofold (fun actions e => assign actions (fst e) (snd e)) entries actions.

Definition conflict : exn := AssertionError "Conflict!".
End ActionSpec.

Module DemoSpec.
Import Syntax.

(** The rules the two shorthand strings of [rat.py] stand for. *)
Definition demo_rules : list Rule :=
  [mkRule (Some "stmts") ["identifier"; ""; "="; ""; "expr"];
   mkRule (Some "expr") ["identifier"]].

Definition demo : Syntax := from_rules demo_rules (Some Rat.token_parsers).

(** The tree the demo is said to print for ["x=fuy"]. *)
Definition claimed_tree : cell :=
  Tree (mkNode (Some "stmts") (0, 5)
          (Cells [Tree (mkNode (Some "identifier") (0, 1) (Text "x"));
                  Tree (mkNode (Some "=") (1, 2) (Text "="));
                  Tree (mkNode (Some "expr") (2, 5)
                          (Cells [Tree (mkNode (Some "identifier") (2, 5)
                                          (Text "fuy"))]))])).

(** The error the demo ends with. *)
Definition demo_error : exn :=
  ValueError (UnexpectedToken 1 2 (Some "=") [Some ""]).

(** The demo with single spaces in its first rule, which then reads
    [stmts -> identifier "=" expr]. *)
Definition single_spaced : outcome Syntax :=
  from_description [inl "stmts identifier = expr"; inl "expr identifier"]
                   (Some Rat.token_parsers).

(** The tree of ["x=fu"], the text whose identifiers have at most two
    characters. *)
Definition short_tree : cell :=
  Tree (mkNode (Some "stmts") (0, 4)
          (Cells [Tree (mkNode (Some "identifier") (0, 1) (Text "x"));
                  Tree (mkNode (Some "=") (1, 2) (Text "="));
                  Tree (mkNode (Some "expr") (2, 4)
                          (Cells [Tree (mkNode (Some "identifier") (2, 4)
                                          (Text "fu"))]))])).

(** A grammar with [A -> epsilon | "x" B] and a head [C] whose only rule
    is [C -> "t"]. *)
Definition nullable_grammar : Syntax :=
  from_rules [mkRule (Some "A") []; mkRule (Some "A") ["x"; "B"];
              mkRule (Some "C") ["t"]] None.

(** [S -> A | B], [A -> "x"], [B -> "x"]: after ["x"] two rules can be
    reduced at the end of the input. *)
Definition ambiguous_grammar : Syntax :=
  from_rules [mkRule (Some "S") ["A"]; mkRule (Some "S") ["B"];
              mkRule (Some "A") ["x"]; mkRule (Some "B") ["x"]] None.

(** [S -> "" S | "x"], where [""] is the terminal of the built-in scanner
    that skips spaces and tabs, and matches the empty text too. *)
Definition looping_grammar : Syntax :=
  from_rules [mkRule (Some "S") [""; "S"]; mkRule (Some "S") ["x"]] None.

(** The configuration [parse] starts from on ["x=fuy"]. *)
Definition demo_start : config :=
  mkConfig [State 0] (Some "identifier") (0, 1).

(** The rules and the prefixes of the grammar with [A -> epsilon], and
    the item set its parser for [A] starts from. *)
Definition nullable_rules : dict (option string) (SequentialSets.DynSet Rule) :=
  match rules nullable_grammar with Ok d => d | _ => [] end.

Definition nullable_prefixes : prefix_table :=
  match prefixes nullable_grammar 3 with Ok t => t | _ => [] end.

Definition nullable_root : item_set :=
  SequentialSets.dyn_init [mkItem 0 (mkRule None ["A"]) None].

(** Two terminals with scanners that match the same text. *)
Definition twins : Syntax :=
  mkSyntax [] [("first", TokenParsers.get_keyword_parser "x");
               ("second", TokenParsers.get_keyword_parser "x")].
End DemoSpec.

Module FuelSpec.
(** More fuel only ever turns "out of fuel" into a result. *)
Definition settles {A} (r r' : outcome A) : Prop := r = OutOfFuel \/ r = r'.
End FuelSpec.

Module PrefixSpec.
Import SequentialSets SetSpec Syntax.

Definition size (s : symbol_set) : nat := List.length (dyn_iter s).

(** The number of elements in all the sets of a prefix table: what the
    fixpoint makes grow. *)
Definition total (p : prefix_table) : nat :=
  list_sum (map (fun e => size (snd e)) p).

(** A set of the table while [prefixes] runs: never hashed, coherent, and
    within the alphabet [U]. *)
Definition sound_set (U : list (option string)) (s : symbol_set) : Prop :=
  hash s = None /\ coherent (base s) /\ incl (dyn_iter s) U.

Definition sound (U : list (option string)) (p : prefix_table) : Prop :=
  Forall (fun e => sound_set U (snd e)) p.

Definition has_key (p : prefix_table) (k : option string) : Prop :=
  dict_get p k <> None.

(** Every symbol of every rule has its set in the table. *)
Definition covers (p : prefix_table) (rules : list Rule) : Prop :=
  forall r, In r rules ->
    has_key p (head r) /\ forall b, In b (body r) -> has_key p (Some b).

(** How a pass moves the table and the [done] flag: nothing changes, or
    the flag is cleared and the table has grown. *)
Definition advances (st st' : prefix_table * bool) : Prop :=
  List.length (fst st') = List.length (fst st)
  /\ ((snd st' = snd st /\ total (fst st') = total (fst st))
      \/ (snd st' = false /\ (total (fst st) < total (fst st'))%nat)).

(** The set that holds the terminal [t] and nothing else, as [add] builds
    it from the empty set. *)
Definition singleton_of (t : string) : symbol_set :=
  mkDyn (appended (base (dyn_init [])) (Some t)) None.

(** The entries of a terminal [t] and of a head [h] whose only rule is
    [h -> t]: the terminal's set is the one it started with, and the
    head's set is the singleton, or still empty before the rule was
    first reached ([strict = false]). *)
Definition settled (h : option string) (t : string) (strict : bool)
                   (p : prefix_table) : Prop :=
  dict_get p (Some t) = Some (dyn_init [Some t])
  /\ (dict_get p h = Some (singleton_of t)
      \/ (strict = false /\ dict_get p h = Some (dyn_init []))).

(** The set [prefixes[k]] holds [x]. *)
Definition holds (p : prefix_table) (k x : option string) : Prop :=
  exists s, dict_get p k = Some s /\ dyn_contains s x = true.

(** The table satisfies the equation of the rule [h -> body]: [h] starts
    with whatever the first symbol starts with, and, when that symbol
    can be empty, with whatever the rest of the body starts with; a body
    whose symbols can all be empty makes [h] nullable. *)
Fixpoint first_closed (p : prefix_table) (h : option string)
                      (body : list string) : Prop :=
  match body with
  | [] => holds p h None
  | b :: rest =>
      exists s,
        dict_get p (Some b) = Some s
        /\ (forall x, In x (dyn_iter s) -> x <> None -> holds p h x)
        /\ (dyn_contains s None = true -> first_closed p h rest)
  end.
End PrefixSpec.

(** * Properties *)

(** ** Dicts whose keys are compared with Leibniz equality *)

Section DictFacts.
Context {K V : Type} `{PyEqLeibniz K}.

Lemma py_eqb_refl (x : K) : py_eqb x x = true.
Proof. now apply py_eqb_eq. Qed.

Lemma py_eqb_neq (x y : K) : x <> y -> py_eqb x y = false.
Proof.
  intros Hne. destruct (py_eqb x y) eqn:E; [|reflexivity].
  apply py_eqb_eq in E. contradiction.
Qed.

Lemma py_eq_dec (x y : K) : {x = y} + {x <> y}.
Proof.
  destruct (py_eqb x y) eqn:E.
  - left. now apply py_eqb_eq.
  - right. intros ->. rewrite py_eqb_refl in E. discriminate.
Qed.

Lemma dict_get_set_eq (d : dict K V) k v : dict_get (dict_set d k v) k = Some v.
Proof.
  induction d as [|[k' v'] d IH]; simpl.
  - now rewrite py_eqb_refl.
  - destruct (py_eqb k' k) eqn:E; simpl; rewrite E; auto.
Qed.

Lemma dict_get_set_ne (d : dict K V) k k' v :
  k <> k' -> dict_get (dict_set d k v) k' = dict_get d k'.
Proof.
  intros Hne. induction d as [|[k0 v0] d IH]; simpl.
  - now rewrite py_eqb_neq.
  - destruct (py_eqb k0 k) eqn:E; simpl.
    + apply py_eqb_eq in E. subst k0. now rewrite py_eqb_neq.
    + now rewrite IH.
Qed.

Lemma dict_get_In (d : dict K V) k v :
  dict_get d k = Some v -> In k (dict_keys d).
Proof.
  induction d as [|[k' v'] d IH]; simpl; [discriminate|].
  destruct (py_eqb k' k) eqn:E.
  - apply py_eqb_eq in E. auto.
  - auto.
Qed.

Lemma dict_get_None (d : dict K V) k :
  dict_get d k = None <-> ~ In k (dict_keys d).
Proof.
  induction d as [|[k' v'] d IH]; simpl.
  - tauto.
  - destruct (py_eqb k' k) eqn:E.
    + apply py_eqb_eq in E. split; [discriminate|]. intros Hn. exfalso. auto.
    + rewrite IH. split.
      * intros Hn [->|Hin]; [|tauto]. rewrite py_eqb_refl in E. discriminate.
      * tauto.
Qed.

Lemma dict_set_new (d : dict K V) k v :
  dict_get d k = None -> dict_set d k v = d ++ [(k, v)].
Proof.
  induction d as [|[k' v'] d IH]; simpl; [reflexivity|].
  destruct (py_eqb k' k); [discriminate|]. intros Hn. now rewrite IH.
Qed.

Lemma dict_set_keys_old (d : dict K V) k v :
  dict_get d k <> None -> dict_keys (dict_set d k v) = dict_keys d.
Proof.
  induction d as [|[k' v'] d IH]; simpl; [congruence|].
  destruct (py_eqb k' k) eqn:E; simpl; [reflexivity|].
  intros Hn. f_equal. now apply IH.
Qed.

Lemma dict_remove_keys (d : dict K V) k :
  NoDup (dict_keys d) ->
  NoDup (dict_keys (dict_remove d k))
  /\ (forall k', In k' (dict_keys (dict_remove d k)) <-> In k' (dict_keys d) /\ k' <> k)
  /\ (forall k', k' <> k -> dict_get (dict_remove d k) k' = dict_get d k').
Proof.
  induction d as [|[k0 v0] d IH]; simpl; intros Hnd.
  - split; [assumption|]. split; [simpl; tauto|reflexivity].
  - inversion Hnd as [|? ? Hnotin Hnd']; subst.
    destruct (py_eqb k0 k) eqn:E.
    + apply py_eqb_eq in E. subst k0. split; [assumption|]. split.
      * intros k'. split.
        -- intros Hin. split; [auto|]. intros ->. contradiction.
        -- intros [[->|Hin] Hne]; [congruence|auto].
      * intros k' Hne. rewrite py_eqb_neq by congruence. reflexivity.
    + destruct (IH Hnd') as (IH1 & IH2 & IH3). simpl. split; [|split].
      * constructor; [|assumption]. rewrite IH2. tauto.
      * intros k'. split.
        -- intros [->|Hin]; [|apply IH2 in Hin; tauto].
           split; [auto|]. intros ->. rewrite py_eqb_refl in E. discriminate.
        -- intros [[->|Hin] Hne]; [auto|]. right. apply IH2. tauto.
      * intros k' Hne. destruct (py_eqb k0 k'); [reflexivity|]. now apply IH3.
Qed.

Lemma dict_remove_length (d : dict K V) k :
  dict_get d k <> None -> S (List.length (dict_remove d k)) = List.length d.
Proof.
  induction d as [|[k0 v0] d IH]; simpl; [congruence|].
  destruct (py_eqb k0 k); simpl; [reflexivity|].
  intros Hn. now rewrite IH.
Qed.
End DictFacts.

(** ** Sequential sets *)

Module SetFacts.
Import SequentialSets SetSpec.

Section Facts.
Context {T : Type} `{PyEqLeibniz T}.

Lemma len_app {A} (l l' : list A) : len (l ++ l') = len l + len l'.
Proof. unfold len. rewrite length_app. lia. Qed.

Lemma coherent_keys_values (s : SequentialSet T) :
  coherent s -> forall v, In v (dict_keys (indexes s)) <-> In v (values s).
Proof.
  intros (Hv & Hk & Hlen & Hpos) v. split.
  - revert v. apply NoDup_length_incl; auto.
    + unfold dict_keys. rewrite length_map. lia.
    + intros v Hin. apply In_nth_error in Hin as [i Hi].
      eapply dict_get_In. eauto.
  - intros Hin. apply In_nth_error in Hin as [i Hi].
    eapply dict_get_In. eauto.
Qed.

Lemma coherent_absent (s : SequentialSet T) v :
  coherent s -> ~ In v (values s) -> dict_get (indexes s) v = None.
Proof.
  intros Hc Hn. apply dict_get_None. now rewrite coherent_keys_values.
Qed.

Lemma coherent_position (s : SequentialSet T) v z :
  coherent s -> position s v = Some z ->
  0 <= z /\ nth_error (values s) (Z.to_nat z) = Some v.
Proof.
  intros Hc Hz. unfold position in Hz.
  assert (Hin : In v (values s)).
  { apply coherent_keys_values; auto. eapply dict_get_In; eauto. }
  apply In_nth_error in Hin as [i Hi].
  destruct Hc as (_ & _ & _ & Hpos). rewrite (Hpos _ _ Hi) in Hz.
  inversion Hz; subst. rewrite Nat2Z.id. split; [lia|assumption].
Qed.

Lemma contains_iff (s : SequentialSet T) v :
  coherent s -> contains s v = true <-> In v (values s).
Proof.
  intros Hc. unfold contains, dict_mem.
  destruct (dict_get (indexes s) v) eqn:E.
  - split; [|reflexivity]. intros _.
    apply coherent_keys_values; auto. eapply dict_get_In; eauto.
  - split; [discriminate|]. intros Hin.
    apply dict_get_None in E. exfalso. apply E.
    apply coherent_keys_values; assumption.
Qed.

Lemma coherent_appended (s : SequentialSet T) v :
  coherent s -> ~ In v (values s) -> coherent (appended s v).
Proof.
  intros Hc Hn. pose proof (coherent_absent s v Hc Hn) as Habs.
  destruct Hc as (Hv & Hk & Hlen & Hpos). unfold appended, coherent; simpl.
  rewrite (dict_set_new _ _ _ Habs). repeat split.
  - apply NoDup_app; repeat split; auto.
    + constructor; [intros []|constructor].
    + intros x Hx [<-|[]]. contradiction.
  - unfold dict_keys. rewrite map_app. simpl.
    apply NoDup_app; repeat split; auto.
    + constructor; [intros []|constructor].
    + intros x Hx [<-|[]]. apply dict_get_None in Habs. contradiction.
  - rewrite !length_app. simpl. lia.
  - intros i x Hi.
    destruct (Nat.lt_ge_cases i (List.length (values s))) as [Hlt|Hge].
    + rewrite nth_error_app1 in Hi by assumption.
      rewrite <- dict_set_new by assumption.
      rewrite dict_get_set_ne; [auto|].
      intros ->. apply nth_error_In in Hi. contradiction.
    + rewrite nth_error_app2 in Hi by assumption.
      destruct (i - List.length (values s))%nat as [|k] eqn:Ek; simpl in Hi.
      * inversion Hi; subst. rewrite <- dict_set_new by assumption.
        rewrite dict_get_set_eq. unfold len. f_equal. lia.
      * destruct k; discriminate.
Qed.

Lemma add_present (s : SequentialSet T) v :
  coherent s -> In v (values s) -> add v s = (Ok tt, s).
Proof.
  intros Hc Hin. unfold add, bind, gets, ret.
  apply (contains_iff s v Hc) in Hin. now rewrite Hin.
Qed.

Lemma add_absent (s : SequentialSet T) v :
  coherent s -> ~ In v (values s) -> add v s = (Ok tt, appended s v).
Proof.
  intros Hc Hn. unfold add, bind, gets, ret.
  destruct (contains s v) eqn:E.
  - apply (contains_iff s v Hc) in E. contradiction.
  - reflexivity.
Qed.

Lemma push_present (s : SequentialSet T) v p :
  coherent s -> nth_error (values s) p = Some v ->
  push v s = (Ok (Z.of_nat p), s).
Proof.
  intros Hc Hp. destruct Hc as (_ & _ & _ & Hpos).
  unfold push, bind, gets, ret. rewrite (Hpos _ _ Hp).
  assert (Hlt : (p < List.length (values s))%nat).
  { apply nth_error_Some. congruence. }
  unfold len. destruct (Z.eqb_spec (Z.of_nat p) (Z.of_nat (List.length (values s)))).
  - lia.
  - reflexivity.
Qed.

Lemma push_absent (s : SequentialSet T) v :
  coherent s -> ~ In v (values s) ->
  push v s = (Ok (len (values s)), appended s v).
Proof.
  intros Hc Hn. pose proof (coherent_absent s v Hc Hn) as Habs.
  destruct Hc as (_ & _ & Hlen & _).
  unfold push, bind, gets, ret. rewrite Habs.
  unfold len. rewrite Hlen, Z.eqb_refl. reflexivity.
Qed.

Lemma init_coherent_nil : coherent (init (T := T) []).
Proof.
  unfold init, coherent; simpl. repeat split; try constructor.
  intros [|i] v; discriminate.
Qed.

Lemma dict_set_keys_NoDup {V} (d : dict T V) k v :
  NoDup (dict_keys d) -> NoDup (dict_keys (dict_set d k v)).
Proof.
  intros Hnd. destruct (dict_get d k) eqn:E.
  - rewrite dict_set_keys_old; [assumption|congruence].
  - rewrite (dict_set_new _ _ _ E). unfold dict_keys. rewrite map_app. simpl.
    apply NoDup_app; repeat split; auto.
    + constructor; [intros []|constructor].
    + intros x Hx [<-|[]]. apply dict_get_None in E. contradiction.
Qed.

Lemma fold_keys_NoDup (l : list T) : forall d : dict T unit,
  NoDup (dict_keys d) ->
  NoDup (dict_keys (fold_left (fun d x => dict_set d x tt) l d)).
Proof.
  induction l as [|x l IH]; simpl; intros d Hd; [assumption|].
  apply IH. now apply dict_set_keys_NoDup.
Qed.

Lemma fromkeys_NoDup (l : list T) : NoDup (fromkeys l).
Proof. unfold fromkeys. apply fold_keys_NoDup. constructor. Qed.

Lemma enumerate_length {A} (l : list A) k : List.length (enumerate l k) = List.length l.
Proof. revert k. induction l; simpl; intros; [reflexivity|now rewrite IHl]. Qed.

Lemma build_indexes (vs : list T) : forall k (d : dict T Z),
  NoDup (dict_keys d ++ vs) ->
  fold_left (fun d '(i, v) => dict_set d v i) (enumerate vs k) d
  = d ++ map (fun '(i, v) => (v, i)) (enumerate vs k).
Proof.
  induction vs as [|x vs IH]; simpl; intros k d Hnd.
  - now rewrite app_nil_r.
  - assert (Hx : dict_get d x = None).
    { apply dict_get_None. apply NoDup_remove_2 in Hnd.
      intros Hin. apply Hnd. apply in_or_app. now left. }
    rewrite (dict_set_new _ _ _ Hx). rewrite IH.
    + now rewrite <- app_assoc.
    + unfold dict_keys. rewrite map_app. simpl. rewrite <- app_assoc. exact Hnd.
Qed.

Lemma enumerate_nth {A} (l : list A) : forall k i v,
  nth_error l i = Some v ->
  nth_error (enumerate l k) i = Some (k + Z.of_nat i, v).
Proof.
  induction l as [|x l IH]; intros k [|i] v Hi; simpl in *; try discriminate.
  - inversion Hi. do 2 f_equal. lia.
  - rewrite (IH _ _ _ Hi). do 2 f_equal. lia.
Qed.

Lemma dict_get_nth (d : dict T Z) : forall i k z,
  NoDup (dict_keys d) -> nth_error d i = Some (k, z) -> dict_get d k = Some z.
Proof.
  induction d as [|[k0 z0] d IH]; intros [|i] k z Hnd Hi; simpl in *; try discriminate.
  - inversion Hi; subst. now rewrite py_eqb_refl.
  - inversion Hnd; subst. rewrite py_eqb_neq.
    + eapply IH; eauto.
    + intros ->. apply nth_error_In in Hi.
      apply (in_map fst) in Hi. contradiction.
Qed.

Lemma coherent_of_values (vs : list T) :
  NoDup vs ->
  coherent {| values := vs;
              indexes := fold_left (fun d '(i, v) => dict_set d v i)
                                   (enumerate vs 0) [] |}.
Proof.
  intros Hnd. rewrite build_indexes by exact Hnd. simpl.
  assert (Hkeys : forall k, dict_keys (map (fun '(i, v) => (v, i)) (enumerate vs k)) = vs).
  { clear. induction vs as [|x vs IH]; simpl; intros k; [reflexivity|].
    f_equal. apply IH. }
  unfold coherent; simpl. rewrite Hkeys. repeat split; auto.
  - now rewrite length_map, enumerate_length.
  - intros i v Hi. apply dict_get_nth with (i := i).
    + now rewrite Hkeys.
    + erewrite map_nth_error; [|apply enumerate_nth; eassumption].
      simpl. reflexivity.
Qed.

Lemma init_coherent (l : list T) : coherent (init l).
Proof. apply coherent_of_values, fromkeys_NoDup. Qed.

Lemma norm_index_nat {A} (l : list A) (i : nat) :
  (i < List.length l)%nat -> norm_index l (Z.of_nat i) = Some i.
Proof.
  intros Hi. unfold norm_index, len.
  destruct (Z.ltb_spec (Z.of_nat i) 0); [lia|].
  destruct (Z.leb_spec 0 (Z.of_nat i)); [|lia].
  destruct (Z.ltb_spec (Z.of_nat i) (Z.of_nat (List.length l))); [|lia].
  simpl. now rewrite Nat2Z.id.
Qed.

Lemma split_at_nth {A} (l : list A) : forall i v,
  nth_error l i = Some v -> l = firstn i l ++ v :: skipn (S i) l.
Proof.
  induction l as [|x l IH]; intros [|i] v Hv; simpl in *; try discriminate.
  - now inversion Hv.
  - f_equal. now apply IH.
Qed.

Lemma NoDup_replace {A} (l1 l2 : list A) (a b : A) :
  NoDup (l1 ++ a :: l2) -> ~ In b (l1 ++ a :: l2) -> NoDup (l1 ++ b :: l2).
Proof.
  induction l1 as [|x l1 IH]; simpl; intros Hnd Hb.
  - inversion Hnd; subst. constructor; [|assumption]. tauto.
  - inversion Hnd as [|? ? Hx Hnd']; subst. constructor.
    + intros Hin. apply in_app_or in Hin as [Hin|[<-|Hin]].
      * apply Hx. apply in_or_app. now left.
      * apply Hb. now left.
      * apply Hx. apply in_or_app. right. now right.
    + apply IH; [assumption|]. tauto.
Qed.

Lemma fits_ssize_small {A} (l : list A) (i : Z) :
  - 2 ^ 63 <= i < 2 ^ 63 -> fits_ssize l i = true.
Proof.
  intros Hi. unfold fits_ssize. apply orb_true_iff. left.
  apply andb_true_iff. split; [apply Z.leb_le|apply Z.ltb_lt]; lia.
Qed.

Lemma fits_ssize_within {A} (l : list A) (i : Z) :
  - len l <= i <= len l -> fits_ssize l i = true.
Proof.
  intros Hi. unfold fits_ssize. apply orb_true_iff. right.
  apply andb_true_iff. split; apply Z.leb_le; lia.
Qed.

Lemma fits_ssize_beyond {A} (l : list A) (i : Z) :
  i < - 2 ^ 63 \/ 2 ^ 63 <= i -> i < - len l \/ len l < i ->
  fits_ssize l i = false.
Proof.
  intros Hi Ho. unfold fits_ssize. apply orb_false_iff. split.
  - apply andb_false_iff. destruct Hi; [left; apply Z.leb_gt|right; apply Z.ltb_ge]; lia.
  - apply andb_false_iff. destruct Ho; [left|right]; apply Z.leb_gt; lia.
Qed.

Lemma list_pop_last {A} (l : list A) (x : A) : list_pop (l ++ [x]) (-1) = Ok (x, l).
Proof.
  unfold list_pop. rewrite fits_ssize_small by lia.
  unfold norm_index, len. rewrite length_app. cbn [List.length].
  change (-1 <? 0) with true. cbv iota.
  destruct (Z.leb_spec 0 (-1 + Z.of_nat (List.length l + 1))); [|lia].
  destruct (Z.ltb_spec (-1 + Z.of_nat (List.length l + 1))
                       (Z.of_nat (List.length l + 1))); [|lia].
  cbn [andb].
  replace (Z.to_nat (-1 + Z.of_nat (List.length l + 1))) with (List.length l) by lia.
  rewrite nth_error_app2 by lia. rewrite Nat.sub_diag. cbn [nth_error].
  rewrite firstn_app, firstn_all, Nat.sub_diag. cbn [firstn].
  rewrite skipn_all2 by (rewrite length_app; simpl; lia).
  now rewrite !app_nil_r.
Qed.

(** [remove] of a present value: the last value takes the place of the
    removed one (and is simply dropped when it is the removed one), and
    the set stays coherent. *)
Lemma remove_present (l : list T) (f : T) (d : dict T Z) (v : T) (i : nat) :
  coherent (mkSet (l ++ [f]) d) ->
  nth_error (l ++ [f]) i = Some v ->
  exists s',
    remove v (mkSet (l ++ [f]) d) = (Ok tt, s')
    /\ coherent s'
    /\ values s' = (if (i <? List.length l)%nat
                    then firstn i l ++ f :: skipn (S i) l
                    else l)
    /\ contains s' v = false.
Proof.
  intros Hc Hv. pose proof Hc as (Hnd & Hk & Hlen & Hpos). cbn [values indexes] in *.
  assert (Hf : ~ In f l).
  { apply NoDup_remove_2 in Hnd. now rewrite app_nil_r in Hnd. }
  assert (Hl : NoDup l) by (apply NoDup_remove_1 in Hnd; now rewrite app_nil_r in Hnd).
  destruct (dict_remove_keys d v Hk) as (Hk' & Hin' & Hget').
  assert (Hdl : List.length (dict_remove d v) = List.length l).
  { pose proof (dict_remove_length d v) as Hr. rewrite (Hpos _ _ Hv) in Hr.
    specialize (Hr ltac:(discriminate)). rewrite length_app in Hlen. simpl in Hlen. lia. }
  assert (Hgone : dict_get (dict_remove d v) v = None).
  { apply dict_get_None. rewrite Hin'. tauto. }
  unfold remove, bind, indexes_pop, values_pop, gets, values_set, indexes_set,
    modify, ret. cbn [values indexes].
  rewrite (Hpos _ _ Hv). cbn [values indexes]. rewrite list_pop_last.
  cbn [values indexes]. unfold len at 1. rewrite Hdl.
  destruct (Nat.ltb_spec i (List.length l)) as [Hlt|Hge].
  - destruct (Z.ltb_spec (Z.of_nat i) (Z.of_nat (List.length l))); [|lia].
    cbn [values indexes]. unfold list_setitem. rewrite (norm_index_nat l i Hlt).
    cbn [values indexes]. eexists. split; [reflexivity|].
    rewrite nth_error_app1 in Hv by assumption.
    assert (Hvf : v <> f) by (intros ->; apply Hf; eapply nth_error_In; eauto).
    assert (Hsplit : l = firstn i l ++ v :: skipn (S i) l).
    { now apply split_at_nth. }
    assert (Hfk : dict_get (dict_remove d v) f <> None).
    { rewrite Hget' by congruence.
      rewrite (Hpos (List.length l) f); [discriminate|].
      rewrite nth_error_app2 by lia. now rewrite Nat.sub_diag. }
    split; [|split; [reflexivity|]].
    + unfold coherent. cbn [values indexes]. split; [|split; [|split]].
      * apply (NoDup_replace _ _ v f); rewrite <- Hsplit; assumption.
      * rewrite dict_set_keys_old by exact Hfk. exact Hk'.
      * unfold dict_keys in *.
        assert (Hsl : List.length (dict_set (dict_remove d v) f (Z.of_nat i))
                      = List.length (dict_remove d v)).
        { rewrite <- !(length_map fst). fold (dict_keys (dict_set (dict_remove d v) f (Z.of_nat i))).
          now rewrite dict_set_keys_old. }
        rewrite Hsl, Hdl, length_app. cbn [List.length].
        rewrite length_firstn, length_skipn. lia.
      * intros j x Hj.
        destruct (Nat.lt_trichotomy j i) as [Hji|[->|Hji]].
        -- rewrite nth_error_app1 in Hj by (rewrite length_firstn; lia).
           rewrite nth_error_firstn in Hj. destruct (Nat.ltb_spec j i); [|lia].
           assert (Hxf : x <> f) by (intros ->; apply Hf; eapply nth_error_In; eauto).
           assert (Hxv : x <> v).
           { intros ->. rewrite (NoDup_nth_error l) in Hl.
             specialize (Hl j i ltac:(lia)). rewrite Hj, Hv in Hl.
             specialize (Hl eq_refl). lia. }
           rewrite dict_get_set_ne by congruence. rewrite Hget' by assumption.
           apply Hpos. rewrite nth_error_app1 by lia. exact Hj.
        -- rewrite nth_error_app2 in Hj by (rewrite length_firstn; lia).
           rewrite length_firstn in Hj.
           replace (i - Nat.min i (List.length l))%nat with 0%nat in Hj by lia.
           simpl in Hj. inversion Hj; subst. apply dict_get_set_eq.
        -- rewrite nth_error_app2 in Hj by (rewrite length_firstn; lia).
           rewrite length_firstn in Hj.
           replace (j - Nat.min i (List.length l))%nat with (S (j - S i)) in Hj by lia.
           cbn [nth_error] in Hj. rewrite nth_error_skipn in Hj.
           replace (S i + (j - S i))%nat with j in Hj by lia.
           assert (Hjl : (j < List.length l)%nat) by (apply nth_error_Some; congruence).
           assert (Hxf : x <> f) by (intros ->; apply Hf; eapply nth_error_In; eauto).
           assert (Hxv : x <> v).
           { intros ->. rewrite (NoDup_nth_error l) in Hl.
             specialize (Hl j i Hjl). rewrite Hj, Hv in Hl.
             specialize (Hl eq_refl). lia. }
           rewrite dict_get_set_ne by congruence. rewrite Hget' by assumption.
           apply Hpos. rewrite nth_error_app1 by lia. exact Hj.
    + unfold contains, dict_mem. cbn [indexes].
      rewrite dict_get_set_ne by congruence. now rewrite Hgone.
  - destruct (Z.ltb_spec (Z.of_nat i) (Z.of_nat (List.length l))); [lia|].
    eexists. split; [reflexivity|].
    assert (Hi : i = List.length l).
    { assert (i < List.length (l ++ [f]))%nat by (apply nth_error_Some; congruence).
      rewrite length_app in H2. simpl in H2. lia. }
    subst i. rewrite nth_error_app2 in Hv by lia. rewrite Nat.sub_diag in Hv.
    simpl in Hv. inversion Hv; subst f.
    split; [|split; [reflexivity|]].
    + unfold coherent. cbn [values indexes]. split; [exact Hl|]. split; [exact Hk'|].
      split; [exact Hdl|]. intros j x Hj.
      assert (Hxv : x <> v) by (intros ->; apply Hf; eapply nth_error_In; eauto).
      rewrite Hget' by assumption. apply Hpos.
      rewrite nth_error_app1; [exact Hj|]. apply nth_error_Some. congruence.
    + unfold contains, dict_mem. cbn [indexes]. now rewrite Hgone.
Qed.

(** On a set that satisfies the class invariant, [push] of a value
    present at position [p] returns [p] and changes nothing; [push] of
    an absent value appends it and returns the new last position; and
    pushing a value again returns the index the first push returned. *)
Theorem push_idempotent (s : SequentialSet T) (v : T) :
  coherent s ->
  (forall p, nth_error (values s) p = Some v ->
             push v s = (Ok (Z.of_nat p), s))
  /\ (~ In v (values s) ->
      push v s = (Ok (len (values s)), appended s v)
      /\ values (appended s v) = values s ++ [v]
      /\ len (values s) = len (values (appended s v)) - 1)
  /\ (forall i s', push v s = (Ok i, s') -> push v s' = (Ok i, s')).
Proof.
  intros Hc. split; [|split].
  - intros p Hp. now apply push_present.
  - intros Hn. split; [now apply push_absent|]. split; [reflexivity|].
    simpl. rewrite len_app. unfold len. simpl. lia.
  - intros i s' Hpush. destruct (in_dec py_eq_dec v (values s)) as [Hin|Hn].
    + apply In_nth_error in Hin as [p Hp].
      rewrite (push_present s v p Hc Hp) in Hpush. inversion Hpush; subst.
      now apply push_present.
    + rewrite (push_absent s v Hc Hn) in Hpush. inversion Hpush; subst.
      replace (len (values s)) with (Z.of_nat (List.length (values s))) by reflexivity.
      apply push_present.
      * now apply coherent_appended.
      * simpl. rewrite nth_error_app2 by lia. now rewrite Nat.sub_diag.
Qed.

(** C10. [index] is a total function: it answers -1 when the set records
    no position for the value, when the recorded position lies outside
    [start, stop), and, with [stop] omitted, when the recorded position
    is 2^30 or more. *)
Theorem index_sentinel (s : SequentialSet T) (v : T) (start : Z) (stop : option Z) :
  (position s v = None -> index s v start stop = -1)
  /\ (forall p, position s v = Some p ->
                ~ (start <= p < real_stop stop) -> index s v start stop = -1)
  /\ (forall p, position s v = Some p -> 2 ^ 30 <= p ->
                index s v start None = -1)
  /\ (forall p, position s v = Some p ->
                start <= p < real_stop stop -> p <> -1 ->
                index s v start stop = p).
Proof.
  assert (Hidx : forall p rs, position s v = Some p ->
            (if negb (p =? -1) && (start <=? p) && (p <? rs) then p else -1)
            = if (start <=? p) && (p <? rs) then p else -1).
  { intros p rs _. destruct (Z.eqb_spec p (-1)); cbn [negb andb]; [|reflexivity].
    subst p. now destruct (_ && _). }
  assert (Hunfold : forall stop', index s v start stop'
            = match position s v with
              | Some p => if (start <=? p) && (p <? real_stop stop') then p else -1
              | None => -1
              end).
  { intros stop'. unfold index. fold (position s v). fold (real_stop stop').
    destruct (position s v) as [p|] eqn:E; [now apply Hidx|reflexivity]. }
  split; [|split; [|split]].
  - intros Hp. now rewrite Hunfold, Hp.
  - intros p Hp Hout. rewrite Hunfold, Hp.
    destruct (Z.leb_spec start p), (Z.ltb_spec p (real_stop stop));
      cbn [andb]; try reflexivity. lia.
  - intros p Hp Hbig. rewrite Hunfold, Hp.
    change (real_stop None) with (2 ^ 30).
    destruct (Z.leb_spec start p), (Z.ltb_spec p (2 ^ 30));
      cbn [andb]; try reflexivity. lia.
  - intros p Hp Hin _. rewrite Hunfold, Hp.
    destruct (Z.leb_spec start p), (Z.ltb_spec p (real_stop stop));
      cbn [andb]; try reflexivity; lia.
Qed.

(** *** The dual-mode set once it is hashed *)

Variable hash_of : T -> Z.

Lemma dyn_hash_freezes (s : DynSet T) : frozen (snd (dyn_hash hash_of s)).
Proof. unfold frozen, dyn_hash. destruct (hash s) eqn:E; simpl; congruence. Qed.

Lemma dyn_hash_keeps_contents (s : DynSet T) :
  base (snd (dyn_hash hash_of s)) = base s.
Proof. unfold dyn_hash. destruct (hash s); reflexivity. Qed.

(** The transition is one-way: hashing a hashed set returns the stored
    hash and leaves the set as it is. *)
Lemma dyn_hash_stable (s : DynSet T) :
  frozen s -> exists h, hash s = Some h /\ dyn_hash hash_of s = (Ok h, s).
Proof.
  unfold frozen, dyn_hash. destruct (hash s) as [h|]; [|congruence].
  intros _. now exists h.
Qed.

(** The guarded mutators fail on a hashed set and leave it unchanged. *)
Lemma frozen_mutators_fail (s : DynSet T) :
  frozen s ->
  let failed {A} : outcome A * DynSet T :=
    (Raise (ValueError ProhibitedToModify), s) in
  (forall i, dyn_delitem i s = failed)
  /\ (forall i v, dyn_insert i v s = failed)
  /\ (forall v, dyn_add v s = failed)
  /\ (forall v, dyn_push v s = failed)
  /\ (forall v, dyn_remove v s = failed)
  /\ (forall v, dyn_contains s v = true -> dyn_discard v s = failed).
Proof.
  unfold frozen. intros Hf.
  assert (Hc : forall A (m : M (DynSet T) A),
             bind check_mutable (fun _ => m) s
             = (Raise (ValueError ProhibitedToModify), s)).
  { intros A m. unfold bind, check_mutable.
    destruct (hash s); [reflexivity|congruence]. }
  cbv zeta. unfold dyn_delitem, dyn_insert, dyn_add, dyn_push, dyn_remove.
  repeat split; intros; try apply Hc.
  unfold dyn_discard, bind at 1, gets. unfold dyn_contains in *.
  rewrite H1. apply Hc.
Qed.

(** No method clears the [hash] slot. *)
Lemma super_keeps_hash {A} (m : M (SequentialSet T) A) (s : DynSet T) :
  hash (snd (super m s)) = hash s.
Proof. unfold super. destruct (m (base s)). reflexivity. Qed.
End Facts.

#[export] Instance string_Leibniz : PyEqLeibniz string := String.eqb_eq.
#[export] Instance Z_Leibniz : PyEqLeibniz Z := Z.eqb_eq.

Lemma push_idempotent_witness :
  coherent (init ["a"; "b"])
  /\ (forall i s', push "c" (init ["a"; "b"]) = (Ok i, s') ->
                   push "c" s' = (Ok i, s')).
Proof.
  split.
  - apply init_coherent.
  - apply (push_idempotent (init ["a"; "b"]) "c" (init_coherent _)).
Defined.

Lemma index_sentinel_witness :
  index (init ["a"; "b"; "c"]) "z" 0 None = -1
  /\ index (init ["a"; "b"; "c"]) "c" 0 (Some 2) = -1
  /\ index (mkSet [] [("a", 2 ^ 30)]) "a" 0 None = -1
  /\ index (init ["a"; "b"; "c"]) "c" 1 None = 2.
Proof.
  split; [|split; [|split]].
  - apply (proj1 (index_sentinel (init ["a"; "b"; "c"]) "z" 0 None)). reflexivity.
  - apply (proj1 (proj2 (index_sentinel (init ["a"; "b"; "c"]) "c" 0 (Some 2))) 2).
    + reflexivity.
    + simpl. lia.
  - apply (proj1 (proj2 (proj2 (index_sentinel (mkSet [] [("a", 2 ^ 30)]) "a" 0 None)))
                 (2 ^ 30)).
    + reflexivity.
    + lia.
  - apply (proj2 (proj2 (proj2 (index_sentinel (init ["a"; "b"; "c"]) "c" 1 None))) 2).
    + reflexivity.
    + simpl. lia.
    + lia.
Defined.

(** C2. A hashed dual-mode set still accepts a positional set:
    [DynSet.__setitem__] has no guard, unlike the other mutators, and the
    contents change. Likewise [freeze] hands back the set itself, which
    stays mutable until it is hashed. *)
Theorem dyn_setitem_ignores_hash :
  let s := snd (dyn_hash (fun x : Z => x) (dyn_init [1; 2])) in
  frozen s
  /\ dyn_iter s = [1; 2]
  /\ (exists s', dyn_setitem 0 3 s = (Ok tt, s') /\ dyn_iter s' = [3; 2])
  /\ (exists s', dyn_add 3 (dyn_freeze (dyn_init [1; 2])) = (Ok tt, s')
                 /\ dyn_iter s' = [1; 2; 3]).
Proof.
  cbv zeta. split; [|split; [|split]].
  - unfold frozen. simpl. discriminate.
  - reflexivity.
  - eexists. split; reflexivity.
  - eexists. split; reflexivity.
Qed.

(** Where the positional delete succeeds, the values that stay keep
    their order. *)
Lemma for_each_indexes_set_values {T} `{PyEq T} (l : list (Z * T)) :
  forall s : SequentialSet T,
    exists d, for_each l (fun '(i, v) => indexes_set v i) s
              = (Ok tt, mkSet (values s) d).
Proof.
  induction l as [|[i v] l IH]; intros s; simpl.
  - exists (indexes s). now destruct s.
  - unfold bind, indexes_set, modify. simpl.
    destruct (IH {| values := values s; indexes := dict_set (indexes s) v i |}) as [d Hd].
    exists d. exact Hd.
Qed.

Lemma delitem_keeps_order {T} `{PyEq T} (s s' : SequentialSet T) (i : Z) :
  delitem i s = (Ok tt, s') ->
  exists n, norm_index (values s) i = Some n
            /\ values s' = firstn n (values s) ++ skipn (S n) (values s).
Proof.
  unfold delitem, bind, values_pop, list_pop, indexes_pop, gets.
  destruct (fits_ssize (values s) i); [|discriminate].
  destruct (norm_index (values s) i) as [n|]; [|discriminate].
  destruct (nth_error (values s) n) as [x|]; [|discriminate]. simpl.
  destruct (dict_get (indexes s) x); [|discriminate]. simpl.
  match goal with
  | |- for_each ?l ?f ?st = _ -> _ =>
      destruct (for_each_indexes_set_values l st) as [d Hd]; rewrite Hd
  end.
  intros E. inversion E; subst. exists n. split; reflexivity.
Qed.

(** The constructor keeps first occurrences in order; the positional
    delete keeps the order of the rest; [remove] moves the last value
    into the place of the removed one. *)
Example first_occurrence_order :
  iter (init ["b"; "a"; "b"; "c"; "a"]) = ["b"; "a"; "c"].
Proof. reflexivity. Qed.

Example delitem_then_values :
  delitem 0 (init ["a"; "b"; "c"]) = (Ok tt, init ["b"; "c"]).
Proof. reflexivity. Qed.

Example remove_moves_last :
  exists s', remove "a" (init ["a"; "b"; "c"]) = (Ok tt, s')
             /\ iter s' = ["c"; "b"]
             /\ contains s' "a" = false /\ contains s' "c" = true.
Proof. eexists. repeat split; reflexivity. Qed.

(** C9. [insert] at a position past the end stores the value without
    recording its position, so a following [add] of the same value stores
    it a second time: the set then holds two equal elements. *)
Theorem insert_then_add_duplicates :
  exists s1 s2,
    insert 5 "b" (init ["a"]) = (Ok tt, s1)
    /\ values s1 = ["a"; "b"] /\ contains s1 "b" = false
    /\ add "b" s1 = (Ok tt, s2)
    /\ iter s2 = ["a"; "b"; "b"] /\ ~ NoDup (iter s2).
Proof.
  do 2 eexists. repeat split; try reflexivity.
  simpl. intros Hnd. inversion Hnd as [|? ? _ Hnd']; subst.
  inversion Hnd' as [|? ? Hn _]; subst. apply Hn. now left.
Qed.

(** C7. [push] trusts the recorded positions, and the other mutators
    leave wrong ones behind.  After [del s[-1]] on [a, b, c] the value
    [b], at position 1, is recorded at -1: [push] of it returns -1.
    After [insert] past the end on [a] the value [b] is stored without a
    record: [push] of the absent [c] returns 1, the position of [b], and
    appends nothing. *)
Theorem push_after_broken_positions :
  (exists s1,
     delitem (-1) (init ["a"; "b"; "c"]) = (Ok tt, s1)
     /\ values s1 = ["a"; "b"] /\ nth_error (values s1) 1 = Some "b"
     /\ push "b" s1 = (Ok (-1), s1))
  /\ (exists s2,
        insert 5 "b" (init ["a"]) = (Ok tt, s2)
        /\ values s2 = ["a"; "b"] /\ ~ In "c" (values s2)
        /\ push "c" s2 = (Ok 1, s2)).
Proof.
  split; eexists; (split; [reflexivity|]); (split; [reflexivity|]);
    (split; [|reflexivity]).
  - reflexivity.
  - cbn. intros [E|[E|[]]]; discriminate.
Qed.
End SetFacts.

(** ** Tokenizing and splitting *)

Module ScanFacts.
Import SequentialSets Syntax SyntaxSpec.

Section Scan.
Variable self : Syntax.
Variables (source : string) (i : Z).

Lemma try_scanner_contract best entry :
  obeys_contract source i entry = true ->
  try_scanner source i best entry
  = Ok (match snd entry source i with
        | Ok n => if n >? fst best then (n, fst entry) else best
        | _ => best
        end).
Proof.
  unfold obeys_contract, try_scanner. destruct best as [m t], entry as [tok sc].
  simpl. destruct (sc source i) as [n|[]|]; try discriminate; intros _; try reflexivity.
  now destruct (n >? m).
Qed.

(** The loop over the scanners, from a best length [m] so far. *)
Lemma scan_fold (l : list (string * scanner)) : forall m t,
  forallb (obeys_contract source i) l = true ->
  exists m' t',
    ofold (try_scanner source i) l (m, t) = Ok (m', t')
    /\ m <= m'
    /\ (forall e n, In e l -> snd e source i = Ok n -> n <= m')
    /\ ((m' = m /\ t' = t)
        \/ (m < m'
            /\ exists before sc after,
                 l = before ++ (t', sc) :: after
                 /\ sc source i = Ok m'
                 /\ forall e n, In e before -> snd e source i = Ok n -> n < m')).
Proof.
  induction l as [|e l IH]; intros m t Hc; cbn [ofold forallb] in *.
  - exists m, t. split; [reflexivity|]. split; [lia|].
    split; [intros ? ? []|now left].
  - apply andb_true_iff in Hc as [He Hl].
    rewrite (try_scanner_contract (m, t) e He). cbn [obind fst].
    destruct (snd e source i) as [n|err|] eqn:En.
    + destruct (Z.gtb_spec n m) as [Hgt|Hle].
      * destruct (IH n (fst e) Hl) as (m' & t' & Hf & Hge & Hall & Hcase).
        exists m', t'. split; [exact Hf|]. split; [lia|]. split.
        { intros e' n' [<-|Hin] Hn'; [|eauto]. rewrite En in Hn'. inversion Hn'. lia. }
        right. split; [lia|]. destruct Hcase as [[-> ->]|(Hlt & b & sc & a & -> & Hsc & Hb)].
        { exists [], (snd e), l. simpl. destruct e; simpl in *. repeat split; auto.
          intros ? ? []. }
        { exists (e :: b), sc, a. repeat split; auto.
          intros e' n' [<-|Hin] Hn'; [|eauto]. rewrite En in Hn'. inversion Hn'. lia. }
      * destruct (IH m t Hl) as (m' & t' & Hf & Hge & Hall & Hcase).
        exists m', t'. split; [exact Hf|]. split; [lia|]. split.
        { intros e' n' [<-|Hin] Hn'; [|eauto]. rewrite En in Hn'. inversion Hn'. lia. }
        destruct Hcase as [[-> ->]|(Hlt & b & sc & a & -> & Hsc & Hb)]; [now left|].
        right. split; [lia|]. exists (e :: b), sc, a. repeat split; auto.
        intros e' n' [<-|Hin] Hn'; [|eauto]. rewrite En in Hn'. inversion Hn'. lia.
    + destruct (IH m t Hl) as (m' & t' & Hf & Hge & Hall & Hcase).
      exists m', t'. split; [exact Hf|]. split; [lia|]. split.
      { intros e' n' [<-|Hin] Hn'; [|eauto]. rewrite En in Hn'. discriminate. }
      destruct Hcase as [[-> ->]|(Hlt & b & sc & a & -> & Hsc & Hb)]; [now left|].
      right. split; [lia|]. exists (e :: b), sc, a. repeat split; auto.
      intros e' n' [<-|Hin] Hn'; [|eauto]. rewrite En in Hn'. discriminate.
    + destruct (IH m t Hl) as (m' & t' & Hf & Hge & Hall & Hcase).
      exists m', t'. split; [exact Hf|]. split; [lia|]. split.
      { intros e' n' [<-|Hin] Hn'; [|eauto]. rewrite En in Hn'. discriminate. }
      destruct Hcase as [[-> ->]|(Hlt & b & sc & a & -> & Hsc & Hb)]; [now left|].
      right. split; [lia|]. exists (e :: b), sc, a. repeat split; auto.
      intros e' n' [<-|Hin] Hn'; [|eauto]. rewrite En in Hn'. discriminate.
Qed.

(** C6. At or past the end of the text [scan_token] returns the null
    terminal with the empty span at the offset. Before the end, with
    scanners that keep their contract, it raises the tokenization error
    for the offset exactly when no scanner matches, and otherwise
    returns the token of the first scanner among those that report the
    greatest length, a length of zero included. *)
Theorem scan_token_longest_match :
  (str_len source <= i -> scan_token self source i = Ok (None, (i, i)))
  /\ (i < str_len source ->
      forallb (obeys_contract source i) (token_parsers self) = true ->
      (forallb (no_match source i) (token_parsers self) = true
       <-> scan_token self source i = Raise (ValueError (UnrecognizedToken i)))
      /\ (forallb (no_match source i) (token_parsers self) = false ->
          exists before token scan after n,
            token_parsers self = before ++ (token, scan) :: after
            /\ scan source i = Ok n /\ 0 <= n
            /\ scan_token self source i = Ok (Some token, (i, i + n))
            /\ (forall e m, In e before -> snd e source i = Ok m -> m < n)
            /\ (forall e m, In e after -> snd e source i = Ok m -> m <= n))).
Proof.
  split.
  - intros Hend. unfold scan_token.
    destruct (Z.geb_spec i (str_len source)); [reflexivity|lia].
  - intros Hlt Hc. unfold scan_token.
    destruct (Z.geb_spec i (str_len source)); [lia|].
    destruct (scan_fold (token_parsers self) (-1) "???" Hc)
      as (m' & t' & Hf & Hge & Hall & Hcase).
    rewrite Hf. simpl.
    assert (Hnm : forallb (no_match source i) (token_parsers self) = true <-> m' = -1).
    { split.
      - intros Hno. destruct Hcase as [[-> _]|(Hgt & b & sc & a & Hl & Hsc & _)]; [reflexivity|].
        rewrite forallb_forall in Hno. specialize (Hno (t', sc)).
        rewrite Hl in Hno. unfold no_match in Hno. simpl in Hno. rewrite Hsc in Hno.
        discriminate Hno. apply in_or_app. right. now left.
      - intros ->. apply forallb_forall. intros e Hin.
        rewrite forallb_forall in Hc. specialize (Hc e Hin).
        unfold obeys_contract in Hc. unfold no_match.
        destruct (snd e source i) as [n0|[]|] eqn:En; try discriminate; try reflexivity.
        specialize (Hall e n0 Hin En). apply Z.leb_le in Hc. lia. }
    split.
    + rewrite Hnm. destruct (Z.eqb_spec m' (-1)); split; auto; try discriminate.
      intros; contradiction.
    + intros Hsome.
      destruct Hcase as [[-> _]|(Hgt & b & sc & a & Hl & Hsc & Hb)].
      { destruct Hnm as [_ Hnm]. rewrite Hnm in Hsome; [discriminate|reflexivity]. }
      exists b, t', sc, a, m'. split; [exact Hl|]. split; [exact Hsc|].
      split; [lia|]. split.
      * destruct (Z.eqb_spec m' (-1)); [lia|reflexivity].
      * split; [exact Hb|]. intros e m Hin Hm. eapply Hall; [|exact Hm].
        rewrite Hl. apply in_or_app. right. now right.
Qed.
End Scan.

Lemma scan_token_longest_match_witness :
  scan_token DemoSpec.demo "x=fuy" 5 = Ok (None, (5, 5))
  /\ (exists before token scan after n,
        token_parsers DemoSpec.demo = before ++ (token, scan) :: after
        /\ scan "x=fuy" 1 = Ok n /\ 0 <= n
        /\ scan_token DemoSpec.demo "x=fuy" 1 = Ok (Some token, (1, 1 + n))
        /\ (forall e m, In e before -> snd e "x=fuy" 1 = Ok m -> m < n)
        /\ (forall e m, In e after -> snd e "x=fuy" 1 = Ok m -> m <= n))
  /\ scan_token DemoSpec.twins "y" 0 = Raise (ValueError (UnrecognizedToken 0)).
Proof.
  split; [|split].
  - apply (proj1 (scan_token_longest_match DemoSpec.demo "x=fuy" 5)).
    vm_compute. discriminate.
  - apply (proj2 (scan_token_longest_match DemoSpec.demo "x=fuy" 1) eq_refl eq_refl).
    reflexivity.
  - apply (proj2 (scan_token_longest_match DemoSpec.twins "y" 0) eq_refl eq_refl).
    reflexivity.
Defined.

(** Two scanners that match the same length: the one registered first
    gives the token. *)
Example scan_token_tie :
  scan_token DemoSpec.twins "x" 0 = Ok (Some "first", (0, 1)).
Proof. reflexivity. Qed.
End ScanFacts.

Module SplitFacts.
Import Syntax SyntaxSpec.

Lemma chars_app (a b : string) : chars (a ++ b)%string = chars a ++ chars b.
Proof. induction a as [|x a IH]; simpl; [reflexivity|]. unfold chars in *. now rewrite IH. Qed.

Lemma str_chars (s : string) : str (chars s) = s.
Proof. apply string_of_list_ascii_of_string. Qed.

Lemma run_of_snoc (c : ascii) (n : nat) :
  (run_of c n ++ String c "")%string = run_of c (S n).
Proof. induction n as [|n IH]; simpl; [reflexivity|]. now rewrite IH. Qed.

Section OneSeparator.
Variable c : ascii.
Let sep : string := String c "".

(** Reading a word, then a separator, with no limit on the splits. *)
Lemma split_go_word (w rest acc : list ascii) :
  forallb (fun ch => negb (Ascii.eqb ch c)) w = true ->
  split_go [c] (w ++ rest) None 0 acc = split_go [c] rest None 0 (acc ++ w).
Proof.
  revert acc. induction w as [|x w IH]; simpl; intros acc Hw.
  - now rewrite app_nil_r.
  - apply andb_true_iff in Hw as [Hx Hw].
    rewrite Ascii.eqb_sym. apply negb_true_iff in Hx. rewrite Hx. simpl.
    rewrite IH by assumption. now rewrite <- app_assoc.
Qed.

Lemma split_go_sep (rest acc : list ascii) :
  split_go [c] (c :: rest) None 0 acc = str acc :: split_go [c] rest None 0 [].
Proof. simpl. now rewrite Ascii.eqb_refl. Qed.

Lemma split_go_run (k : nat) (rest : list ascii) :
  split_go [c] (chars (run_of c k) ++ rest) None 0 []
  = repeat "" k ++ split_go [c] rest None 0 [].
Proof.
  induction k as [|k IH]; [reflexivity|].
  cbn [run_of chars list_ascii_of_string app repeat].
  rewrite split_go_sep. f_equal. exact IH.
Qed.

Lemma split_go_shorthand (rest : list (nat * string)) : forall w0 acc,
  is_word c w0 = true ->
  forallb (fun '(n, w) => (1 <=? n)%nat && is_word c w) rest = true ->
  split_go [c] (chars (shorthand c w0 rest)) None 0 acc
  = str (acc ++ chars w0)
      :: flat_map (fun '(n, w) => repeat "" (Nat.pred n) ++ [w]) rest.
Proof.
  induction rest as [|[n w] rest IH]; intros w0 acc Hw0 Hrest.
  - simpl. unfold is_word in Hw0. apply andb_true_iff in Hw0 as [_ Hfree].
    rewrite <- (app_nil_r (chars w0)) at 1.
    now rewrite split_go_word.
  - cbn [forallb] in Hrest. apply andb_true_iff in Hrest as [Hnw Hrest].
    apply andb_true_iff in Hnw as [Hn Hw].
    apply Nat.leb_le in Hn. destruct n as [|k]; [lia|].
    cbn [shorthand flat_map Nat.pred]. rewrite !chars_app.
    pose proof Hw0 as Hw0'. unfold is_word in Hw0'.
    apply andb_true_iff in Hw0' as [_ Hfree].
    rewrite split_go_word by assumption.
    cbn [run_of chars list_ascii_of_string app].
    rewrite split_go_sep. f_equal.
    fold (chars (run_of c k)). rewrite split_go_run.
    rewrite <- app_assoc. f_equal.
    rewrite (IH w [] Hw Hrest). simpl. now rewrite str_chars.
Qed.

Lemma step_word (result : list string) (w : string) :
  is_word c w = true -> split_str_step sep result w = result ++ [w].
Proof.
  intros Hw. unfold is_word in Hw. apply andb_true_iff in Hw as [Hne _].
  apply negb_true_iff in Hne. unfold split_str_step.
  destruct (rev result); [reflexivity|]. now rewrite Hne.
Qed.

Lemma word_not_startswith (w : string) :
  is_word c w = true -> String.eqb w "" || startswith w sep = false.
Proof.
  unfold is_word, startswith, sep. destruct w as [|x w]; simpl; [discriminate|].
  intros Hw. apply andb_true_iff in Hw as [Hx _].
  apply negb_true_iff in Hx. rewrite Ascii.eqb_sym, Hx. reflexivity.
Qed.

Lemma step_first_empty (result : list string) (w : string) :
  is_word c w = true ->
  split_str_step sep (result ++ [w]) "" = result ++ [w; ""].
Proof.
  intros Hw. unfold split_str_step. rewrite rev_app_distr. simpl.
  rewrite (word_not_startswith w Hw). now rewrite <- app_assoc.
Qed.

Lemma step_next_empty (result : list string) (j : nat) :
  split_str_step sep (result ++ [run_of c j]) "" = result ++ [run_of c (S j)].
Proof.
  unfold split_str_step. rewrite rev_app_distr. simpl rev at 1. cbn [app].
  assert (Hm : String.eqb (run_of c j) "" || startswith (run_of c j) sep = true).
  { destruct j; [reflexivity|]. unfold startswith, sep. simpl.
    now rewrite Ascii.eqb_refl. }
  rewrite Hm. cbn [String.eqb andb]. rewrite rev_involutive.
  unfold sep. now rewrite run_of_snoc.
Qed.

Lemma fold_empties (k : nat) : forall (result : list string) (j : nat),
  fold_left (split_str_step sep) (repeat "" k) (result ++ [run_of c j])
  = result ++ [run_of c (j + k)].
Proof.
  induction k as [|k IH]; intros result j; simpl.
  - now rewrite Nat.add_0_r.
  - rewrite step_next_empty, IH. do 3 f_equal. lia.
Qed.

Lemma fold_symbols (rest : list (nat * string)) : forall result w0,
  is_word c w0 = true ->
  forallb (fun '(n, w) => (1 <=? n)%nat && is_word c w) rest = true ->
  fold_left (split_str_step sep)
            (flat_map (fun '(n, w) => repeat "" (Nat.pred n) ++ [w]) rest)
            (result ++ [w0])
  = result ++ w0 :: flat_map (fun '(n, w) => run_symbol c n ++ [w]) rest.
Proof.
  induction rest as [|[n w] rest IH]; intros result w0 Hw0 Hrest; [reflexivity|].
  cbn [forallb] in Hrest. apply andb_true_iff in Hrest as [Hnw Hrest].
  apply andb_true_iff in Hnw as [Hn Hw]. apply Nat.leb_le in Hn.
  cbn [flat_map]. rewrite fold_left_app.
  destruct n as [|[|j]]; [lia| |].
  - cbn [Nat.pred repeat app fold_left run_symbol].
    rewrite (step_word _ w Hw).
    rewrite (IH (result ++ [w0]) w Hw Hrest). now rewrite <- app_assoc.
  - cbn [Nat.pred repeat app fold_left run_symbol].
    rewrite (step_first_empty result w0 Hw0).
    change (result ++ [w0; ""]) with (result ++ [w0] ++ [run_of c 0]).
    rewrite app_assoc, fold_left_app, fold_empties. cbn [Nat.add fold_left].
    rewrite (step_word _ w Hw).
    rewrite (IH ((result ++ [w0]) ++ [run_of c j]) w Hw Hrest).
    rewrite <- !app_assoc. reflexivity.
Qed.

(** C5, amended. With a one-character separator, a shorthand rule made
    of words separated by runs of separators splits into its words,
    and each run of [n >= 2] separators leaves exactly one symbol
    between its neighbours: the run shortened by two characters (the
    empty symbol for a run of two, one separator for a run of
    three). *)
Theorem split_str_runs (w0 : string) (rest : list (nat * string)) :
  is_word c w0 = true ->
  forallb (fun '(n, w) => (1 <=? n)%nat && is_word c w) rest = true ->
  split_str (shorthand c w0 rest) sep (-1) = Ok (symbols_of c w0 rest).
Proof.
  intros Hw0 Hrest. unfold split_str, str_split, sep.
  cbn [chars list_ascii_of_string obind Z.ltb Z.compare].
  rewrite (split_go_shorthand rest w0 [] Hw0 Hrest).
  cbn [app fold_left]. rewrite str_chars.
  change (split_str_step (String c "") [] w0) with ([] ++ [w0]).
  pose proof (fold_symbols rest [] w0 Hw0 Hrest) as Hfold. unfold sep in Hfold.
  rewrite Hfold. reflexivity.
Qed.
End OneSeparator.

Lemma split_str_runs_witness :
  split_str "stmts identifier  =   expr" " " (-1)
  = Ok ["stmts"; "identifier"; ""; "="; " "; "expr"].
Proof.
  apply (split_str_runs " " "stmts" [(1, "identifier"); (2, "="); (3, "expr")]%nat);
    reflexivity.
Defined.

(** C5 as stated fails: the run of two spaces in the rule of [rat.py]
    yields the empty symbol, and no symbol of the rule is that run. *)
Lemma split_str_double_space :
  ~ (exists symbols, split_str "stmts identifier  =  expr" " " (-1) = Ok symbols
                     /\ In "  " symbols).
Proof.
  intros (symbols & Hs & Hin). vm_compute in Hs. inversion Hs; subst.
  simpl in Hin. repeat (destruct Hin as [Hin|Hin]; [discriminate|]). exact Hin.
Qed.
End SplitFacts.

(** ** Fuel *)

Module FuelFacts.
Import SequentialSets Syntax FuelSpec.

Lemma settles_refl {A} (r : outcome A) : settles r r.
Proof. now right. Qed.

Lemma settles_obind {A B} (m m' : outcome A) (k k' : A -> outcome B) :
  settles m m' -> (forall a, settles (k a) (k' a)) ->
  settles (obind m k) (obind m' k').
Proof.
  intros [->| ->] Hk; [now left|].
  destruct m' as [a| |]; simpl; [apply Hk|now right|now left].
Qed.

Lemma settles_ofold {A B} (f f' : A -> B -> outcome A) (l : list B) :
  (forall a x, settles (f a x) (f' a x)) ->
  forall a, settles (ofold f l a) (ofold f' l a).
Proof.
  intros Hf. induction l as [|x l IH]; intros a; simpl; [apply settles_refl|].
  apply settles_obind; [apply Hf|apply IH].
Qed.

Lemma settles_Ok {A} (r r' : outcome A) (a : A) :
  settles r r' -> r = Ok a -> r' = Ok a.
Proof. intros [->| ->]; [discriminate|auto]. Qed.

Lemma settles_Raise {A} (r r' : outcome A) (e : exn) :
  settles r r' -> r = Raise e -> r' = Raise e.
Proof. intros [->| ->]; [discriminate|auto]. Qed.

Section Loops.
Variable hash_item : LR1Item -> Z.
Variable syntax : Syntax.
Variable root_node : string.

Lemma prefixes_loop_settles (fuel fuel' : nat) : (fuel <= fuel')%nat ->
  forall p, settles (prefixes_loop syntax fuel p) (prefixes_loop syntax fuel' p).
Proof.
  revert fuel'. induction fuel as [|fuel IH]; intros fuel' Hle p; [now left|].
  destruct fuel' as [|fuel']; [lia|]. simpl.
  apply settles_obind; [apply settles_refl|]. intros [p' [|]];
    [apply settles_refl|]. apply IH. lia.
Qed.

Lemma prefixes_settles (fuel fuel' : nat) : (fuel <= fuel')%nat ->
  settles (prefixes syntax fuel) (prefixes syntax fuel').
Proof.
  intros Hle. unfold prefixes. apply settles_obind; [apply settles_refl|].
  intros tokens. now apply prefixes_loop_settles.
Qed.

Lemma closure_loop_settles rules table (fuel fuel' : nat) : (fuel <= fuel')%nat ->
  forall cursor items,
    settles (closure_loop rules table fuel cursor items)
            (closure_loop rules table fuel' cursor items).
Proof.
  revert fuel'. induction fuel as [|fuel IH]; intros fuel' Hle cursor items.
  - simpl. destruct (nth_error (dyn_iter items) cursor) eqn:E; [now left|].
    destruct fuel'; simpl; rewrite E; apply settles_refl.
  - destruct fuel' as [|fuel']; [lia|]. simpl.
    destruct (nth_error (dyn_iter items) cursor); [|apply settles_refl].
    apply settles_obind; [apply settles_refl|]. intros items'. apply IH. lia.
Qed.

Lemma lr1_closure_settles rules table (fuel fuel' : nat) core :
  (fuel <= fuel')%nat ->
  settles (lr1_closure rules table fuel core) (lr1_closure rules table fuel' core).
Proof. intros Hle. unfold lr1_closure. now apply closure_loop_settles. Qed.

Lemma item_sets_loop_settles rules table symbols (cf cf' : nat) : (cf <= cf')%nat ->
  forall fuel fuel', (fuel <= fuel')%nat ->
  forall cursor st,
    settles (item_sets_loop hash_item rules table symbols cf fuel cursor st)
            (item_sets_loop hash_item rules table symbols cf' fuel' cursor st).
Proof.
  intros Hcf. induction fuel as [|fuel IH]; intros fuel' Hle cursor st.
  - simpl. destruct (nth_error (dyn_iter (fst st)) cursor) eqn:E; [now left|].
    destruct fuel'; simpl; rewrite E; apply settles_refl.
  - destruct fuel' as [|fuel']; [lia|]. simpl.
    destruct (nth_error (dyn_iter (fst st)) cursor); [|apply settles_refl].
    apply settles_obind; [now apply lr1_closure_settles|]. intros closure.
    apply settles_obind; [apply settles_refl|]. intros st'. apply IH. lia.
Qed.

Lemma item_sets_and_gotos_settles (fuel fuel' : nat) : (fuel <= fuel')%nat ->
  settles (item_sets_and_gotos hash_item syntax root_node fuel)
          (item_sets_and_gotos hash_item syntax root_node fuel').
Proof.
  intros Hle. unfold item_sets_and_gotos.
  apply settles_obind; [apply settles_refl|]. intros rules.
  apply settles_obind; [now apply prefixes_settles|]. intros table.
  apply settles_obind; [apply settles_refl|]. intros symbols.
  now apply item_sets_loop_settles.
Qed.

Lemma build_actions_settles item_sets gotos (fuel fuel' : nat) :
  (fuel <= fuel')%nat ->
  settles (build_actions syntax item_sets gotos fuel)
          (build_actions syntax item_sets gotos fuel').
Proof.
  intros Hle. unfold build_actions.
  apply settles_obind; [apply settles_refl|]. intros rules.
  apply settles_obind; [now apply prefixes_settles|]. intros table.
  apply settles_obind; [apply settles_refl|]. intros tokens.
  apply settles_obind; [|intros [? ?]; apply settles_refl].
  apply settles_ofold. intros [i actions] core. unfold state_actions.
  apply settles_obind; [now apply lr1_closure_settles|].
  intros closure. apply settles_refl.
Qed.

Lemma tables_settles (fuel fuel' : nat) : (fuel <= fuel')%nat ->
  settles (tables hash_item syntax root_node fuel)
          (tables hash_item syntax root_node fuel').
Proof.
  intros Hle. unfold tables.
  apply settles_obind; [now apply item_sets_and_gotos_settles|].
  intros [item_sets gotos].
  apply settles_obind; [now apply build_actions_settles|].
  intros actions. apply settles_refl.
Qed.

Lemma actions_settles (fuel fuel' : nat) : (fuel <= fuel')%nat ->
  settles (actions hash_item syntax root_node fuel)
          (actions hash_item syntax root_node fuel').
Proof.
  intros Hle. unfold actions.
  apply settles_obind; [now apply item_sets_and_gotos_settles|].
  intros [item_sets gotos]. now apply build_actions_settles.
Qed.

Lemma parse_loop_settles tables source (steps steps' : nat) :
  (steps <= steps')%nat ->
  forall c, settles (parse_loop syntax tables source steps c)
                    (parse_loop syntax tables source steps' c).
Proof.
  revert steps'. induction steps as [|steps IH]; intros steps' Hle c; [now left|].
  destruct steps' as [|steps']; [lia|]. simpl.
  apply settles_obind; [apply settles_refl|]. intros [c'|r];
    [apply IH; lia|apply settles_refl].
Qed.
End Loops.
End FuelFacts.

(** ** The demo of rat.py *)

Module DemoFacts.
Import SequentialSets Syntax FuelSpec FuelFacts DemoSpec.

Lemma demo_syntax : Rat.syntax = Ok demo.
Proof. reflexivity. Qed.

Section Demo.
Variable hash_item : LR1Item -> Z.

Lemma demo_tables :
  exists t, tables hash_item demo "stmts" 8 = Ok t
            /\ parse_loop demo (Ok t) "x=fuy" 2
                 (mkConfig [State 0] (Some "identifier") (0, 1))
               = Raise demo_error.
Proof. eexists. split; vm_compute; reflexivity. Qed.

Lemma demo_parse_outcomes (build steps : nat) :
  Rat.parse hash_item build steps "x=fuy" = OutOfFuel
  \/ Rat.parse hash_item build steps "x=fuy" = Raise demo_error.
Proof.
  destruct demo_tables as (t & Ht & Hloop).
  unfold Rat.parse. rewrite demo_syntax. cbn [obind]. unfold parse.
  change (scan_token demo "x=fuy" 0) with (Ok (Some "identifier", (0, 1))).
  cbn [obind].
  destruct (Nat.le_gt_cases 8 build) as [Hb|Hb].
  - rewrite (settles_Ok _ _ t (tables_settles hash_item demo "stmts" 8 build Hb) Ht).
    destruct (Nat.le_gt_cases 2 steps) as [Hs|Hs].
    + right. eapply settles_Raise; [|exact Hloop].
      now apply parse_loop_settles.
    + destruct (parse_loop_settles demo (Ok t) "x=fuy" steps 2 (Nat.lt_le_incl _ _ Hs)
                  (mkConfig [State 0] (Some "identifier") (0, 1))) as [H|H].
      * now left.
      * right. now rewrite H.
  - destruct (tables_settles hash_item demo "stmts" build 8 (Nat.lt_le_incl _ _ Hb))
      as [H|H].
    + rewrite H. left. destruct steps; reflexivity.
    + rewrite H, Ht.
      destruct (parse_loop_settles demo (Ok t) "x=fuy" steps (Nat.max steps 2)
                  (Nat.le_max_l _ _)
                  (mkConfig [State 0] (Some "identifier") (0, 1))) as [H'|H'].
      * now left.
      * right. rewrite H'. eapply settles_Raise; [|exact Hloop].
        apply parse_loop_settles. apply Nat.le_max_r.
Qed.

(** C1. The demo of rat.py, which prints the tree of ["x=fuy"], fails
    instead.  The rules of the demo split into
    [stmts -> identifier "" "=" "" expr] and [expr -> identifier]; on
    ["x=fuy"] the parser shifts [identifier] over [0,1), then scans
    ["="] over [1,2): the terminal [""], the only one expected there,
    matches no character and loses to the longer ["="].  The parse
    raises the unexpected-token error and returns no tree. *)
Theorem demo_parse_unexpected_token (build steps : nat) :
  (8 <= build)%nat -> (2 <= steps)%nat ->
  (exists syntax, Rat.syntax = Ok syntax /\ rule_list syntax = demo_rules)
  /\ scan_token demo "x=fuy" 0 = Ok (Some "identifier", (0, 1))
  /\ scan_token demo "x=fuy" 1 = Ok (Some "=", (1, 2))
  /\ Rat.parse hash_item build steps "x=fuy" = Raise demo_error.
Proof.
  intros Hb Hs. split; [exists demo; split; reflexivity|].
  split; [reflexivity|]. split; [reflexivity|].
  destruct demo_tables as (t & Ht & Hloop).
  unfold Rat.parse. rewrite demo_syntax. cbn [obind]. unfold parse.
  change (scan_token demo "x=fuy" 0) with (Ok (Some "identifier", (0, 1))).
  cbn [obind].
  rewrite (settles_Ok _ _ t (tables_settles hash_item demo "stmts" 8 build Hb) Ht).
  eapply settles_Raise; [|exact Hloop]. now apply parse_loop_settles.
Qed.
End Demo.

Lemma demo_parse_unexpected_token_witness :
  Rat.parse (fun _ => 0) 8 2 "x=fuy" = Raise demo_error.
Proof.
  apply (demo_parse_unexpected_token (fun _ => 0) 8 2); lia.
Defined.

(** Whatever the fuel, the demo does not return the tree with the three
    children. *)
Lemma demo_parse_not_claimed_tree :
  ~ (exists build steps,
       Rat.parse (fun _ => 0) build steps "x=fuy" = Ok claimed_tree).
Proof.
  intros (build & steps & H).
  destruct (demo_parse_outcomes (fun _ => 0) build steps) as [E|E];
    rewrite E in H; discriminate.
Qed.

(** With single spaces the rules are [stmts -> identifier "=" expr] and
    [expr -> identifier], and ["x=fuy"] still gives no tree:
    [parse_identifier] takes at most two characters, so the identifier
    scanned at 2 ends at 4 and the one scanned over [4,5) is unexpected
    at the end of the statement.  The text ["x=fu"] gives the tree. *)
Example single_spaced_short_identifier :
  exists syntax,
    single_spaced = Ok syntax
    /\ rule_list syntax = [mkRule (Some "stmts") ["identifier"; "="; "expr"];
                           mkRule (Some "expr") ["identifier"]]
    /\ Rat.parse_identifier "x=fuy" 2 = Ok 2
    /\ parse (fun _ => 0) syntax "stmts" 8 10 "x=fuy" 0
       = Raise (ValueError (UnexpectedToken 4 5 (Some "identifier") [None]))
    /\ parse (fun _ => 0) syntax "stmts" 8 10 "x=fu" 0 = Ok short_tree.
Proof. eexists. repeat split; vm_compute; reflexivity. Qed.
End DemoFacts.

(** ** The prefixes fixpoint *)

Module PrefixFacts.
Import SequentialSets SetSpec SetFacts Syntax PrefixSpec.

#[export] Instance option_Leibniz {A} `{PyEqLeibniz A} : PyEqLeibniz (option A).
Proof.
  intros [x|] [y|]; simpl; unfold py_eqb; simpl; split; try discriminate; auto.
  - intros E. f_equal. now apply py_eqb_eq.
  - intros E. inversion E. now apply py_eqb_eq.
Qed.

Section SetSteps.
Context {T : Type} `{PyEqLeibniz T}.

Lemma add_unfold (b : SequentialSet T) x :
  add x b = if contains b x then (Ok tt, b) else (Ok tt, appended b x).
Proof.
  unfold add, bind, gets, ret, indexes_set, values_append, modify.
  destruct (contains b x); reflexivity.
Qed.

Lemma exec_dyn_add (s : DynSet T) x :
  exec (dyn_add x) s
  = match hash s with
    | Some _ => Raise (ValueError ProhibitedToModify)
    | None => Ok (if dyn_contains s x then s
                  else mkDyn (appended (base s) x) None)
    end.
Proof.
  unfold exec, run, dyn_add, bind, check_mutable, super, dyn_contains.
  destruct (hash s) eqn:Hh; [reflexivity|].
  rewrite add_unfold. destruct (contains (base s) x); simpl; [|now rewrite Hh].
  destruct s; simpl in *. now subst.
Qed.

(** Whatever the set, a successful [add] keeps what it held. *)
Lemma exec_dyn_add_keeps (s s' : DynSet T) x y :
  exec (dyn_add x) s = Ok s' -> dyn_contains s y = true ->
  dyn_contains s' y = true.
Proof.
  rewrite exec_dyn_add. destruct (hash s); [discriminate|].
  destruct (dyn_contains s x) eqn:E; intros Hs Hy; inversion Hs; subst; auto.
  unfold dyn_contains, contains, dict_mem in *. simpl.
  destruct (py_eq_dec x y) as [->|Hne].
  - now rewrite dict_get_set_eq.
  - now rewrite dict_get_set_ne.
Qed.

Lemma exec_dyn_add_holds (s s' : DynSet T) x :
  exec (dyn_add x) s = Ok s' -> dyn_contains s' x = true.
Proof.
  rewrite exec_dyn_add. destruct (hash s); [discriminate|].
  destruct (dyn_contains s x) eqn:E; intros Hs; inversion Hs; subst; auto.
  unfold dyn_contains, contains, dict_mem. simpl. now rewrite dict_get_set_eq.
Qed.

Lemma dyn_contains_iff (s : DynSet T) x :
  coherent (base s) -> dyn_contains s x = true <-> In x (dyn_iter s).
Proof. intros Hc. unfold dyn_contains, dyn_iter. now apply contains_iff. Qed.

Lemma dyn_contains_false (s : DynSet T) x :
  coherent (base s) -> dyn_contains s x = false -> ~ In x (dyn_iter s).
Proof.
  intros Hc Hx Hin. apply (dyn_contains_iff s x Hc) in Hin. congruence.
Qed.
End SetSteps.

(** *** Tables *)

Lemma dict_get_entry {V} (p : dict (option string) V) k v :
  dict_get p k = Some v -> In (k, v) p.
Proof.
  induction p as [|[k' v'] p IH]; simpl; [discriminate|].
  destruct (py_eqb k' k) eqn:E.
  - apply py_eqb_eq in E. subst. intros Hv. inversion Hv. now left.
  - auto.
Qed.

Lemma dict_set_length_old {V} (p : dict (option string) V) k v :
  dict_get p k <> None -> List.length (dict_set p k v) = List.length p.
Proof.
  induction p as [|[k' v'] p IH]; simpl; [congruence|].
  destruct (py_eqb k' k); simpl; [reflexivity|]. intros Hk. now rewrite IH.
Qed.

Lemma dict_set_Forall {V} (Q : option string * V -> Prop) (p : dict (option string) V) k v :
  Forall Q p -> (forall k', Q (k', v)) -> Forall Q (dict_set p k v).
Proof.
  intros Hp Hv. induction p as [|[k' v'] p IH]; simpl.
  - constructor; auto.
  - inversion Hp; subst. destruct (py_eqb k' k); constructor; auto.
Qed.

Lemma total_dict_set (p : prefix_table) k s s' :
  dict_get p k = Some s ->
  (total (dict_set p k s') + size s = total p + size s')%nat.
Proof.
  unfold total. induction p as [|[k' v'] p IH]; simpl; [discriminate|].
  destruct (py_eqb k' k); simpl.
  - intros Hs. inversion Hs; subst. lia.
  - intros Hs. specialize (IH Hs). lia.
Qed.

Lemma has_key_dict_set (p : prefix_table) k s k' :
  has_key p k' -> has_key (dict_set p k s) k'.
Proof.
  unfold has_key. destruct (py_eq_dec k k') as [->|Hne].
  - rewrite dict_get_set_eq. discriminate.
  - now rewrite dict_get_set_ne.
Qed.

(** What [add_first] does; the [else] branch of the inner [while] is the
    same code with the nullability marker for [first]. *)
Lemma add_first_unfold node (p : prefix_table) (d : bool) x :
  add_first node (p, d) x
  = match dict_get p node with
    | None => Raise KeyError
    | Some s =>
        if dyn_contains s x then Ok (p, d)
        else match hash s with
             | Some _ => Raise (ValueError ProhibitedToModify)
             | None => Ok (dict_set p node (mkDyn (appended (base s) x) None), false)
             end
    end.
Proof.
  unfold add_first, dict_exec, dict_getitem.
  destruct (dict_get p node) as [s|]; [|reflexivity]. cbn [obind].
  destruct (dyn_contains s x) eqn:E; [reflexivity|].
  unfold symbol_set in *. rewrite exec_dyn_add, E. destruct (hash s); reflexivity.
Qed.

Lemma scan_body_nil node st : scan_body node [] st = add_first node st None.
Proof. destruct st. reflexivity. Qed.

Lemma advances_refl st : advances st st.
Proof. split; [reflexivity|]. left. split; reflexivity. Qed.

Lemma advances_trans st1 st2 st3 :
  advances st1 st2 -> advances st2 st3 -> advances st1 st3.
Proof.
  intros [Hl1 H1] [Hl2 H2]. split; [congruence|].
  destruct H1 as [[Hd1 Ht1]|[Hd1 Ht1]], H2 as [[Hd2 Ht2]|[Hd2 Ht2]].
  - left. split; congruence.
  - right. split; [assumption|lia].
  - right. split; [congruence|lia].
  - right. split; [assumption|lia].
Qed.

Section Progress.
Variable U : list (option string).
Hypothesis U_None : In None U.

Lemma sound_lookup (p : prefix_table) k s :
  sound U p -> dict_get p k = Some s -> sound_set U s.
Proof.
  intros Hp Hs. apply dict_get_entry in Hs.
  unfold sound in Hp. rewrite Forall_forall in Hp. exact (Hp _ Hs).
Qed.

Lemma add_first_progress node (p : prefix_table) (d : bool) x :
  sound U p -> has_key p node -> In x U ->
  exists st', add_first node (p, d) x = Ok st'
              /\ sound U (fst st')
              /\ (forall k, has_key p k -> has_key (fst st') k)
              /\ advances (p, d) st'.
Proof.
  intros Hp Hk Hx. rewrite add_first_unfold. unfold has_key in Hk.
  destruct (dict_get p node) as [s|] eqn:Es; [|congruence].
  destruct (sound_lookup p node s Hp Es) as (Hh & Hc & Hincl).
  destruct (dyn_contains s x) eqn:E.
  - exists (p, d). split; [reflexivity|]. split; [exact Hp|].
    split; [auto|apply advances_refl].
  - rewrite Hh. eexists. split; [reflexivity|]. cbn [fst snd].
    pose proof (dyn_contains_false s x Hc E) as Hn.
    split; [|split].
    + apply dict_set_Forall; [exact Hp|]. intros k'. cbn [snd].
      split; [reflexivity|]. split.
      * apply coherent_appended; assumption.
      * unfold dyn_iter. simpl. intros y Hy. apply in_app_or in Hy as [Hy|[<-|[]]]; auto.
    + intros k. apply has_key_dict_set.
    + split.
      * cbn [fst]. apply dict_set_length_old. congruence.
      * right. split; [reflexivity|]. cbn [fst].
        pose proof (total_dict_set p node s (mkDyn (appended (base s) x) None) Es) as Ht.
        unfold size, dyn_iter in Ht. simpl in Ht. rewrite length_app in Ht.
        simpl in Ht. lia.
Qed.

Lemma add_firsts_progress node (xs : list (option string)) : forall st,
  sound U (fst st) -> has_key (fst st) node -> incl xs U ->
  exists st', ofold (add_first node) xs st = Ok st'
              /\ sound U (fst st')
              /\ (forall k, has_key (fst st) k -> has_key (fst st') k)
              /\ advances st st'.
Proof.
  induction xs as [|x xs IH]; intros [p d] Hp Hk Hxs; cbn [ofold].
  - exists (p, d). split; [reflexivity|]. split; [exact Hp|].
    split; [auto|apply advances_refl].
  - destruct (add_first_progress node p d x Hp Hk) as (st1 & E1 & Hs1 & Hk1 & Ha1).
    { apply Hxs. now left. }
    rewrite E1. cbn [obind].
    destruct (IH st1 Hs1 (Hk1 _ Hk)) as (st2 & E2 & Hs2 & Hk2 & Ha2).
    { intros y Hy. apply Hxs. now right. }
    exists st2. split; [exact E2|]. split; [exact Hs2|]. split.
    + intros k Hkk. apply Hk2, Hk1, Hkk.
    + eapply advances_trans; eassumption.
Qed.

Lemma scan_body_progress node (body : list string) : forall st,
  sound U (fst st) -> has_key (fst st) node ->
  (forall b, In b body -> has_key (fst st) (Some b)) ->
  exists st', scan_body node body st = Ok st'
              /\ sound U (fst st')
              /\ (forall k, has_key (fst st) k -> has_key (fst st') k)
              /\ advances st st'.
Proof.
  induction body as [|b body IH]; intros [p d] Hp Hk Hb.
  - rewrite scan_body_nil. now apply add_first_progress.
  - cbn [scan_body fst]. unfold dict_getitem at 1.
    assert (Hkb : has_key p (Some b)) by (apply Hb; now left).
    unfold has_key in Hkb. cbn [fst] in *.
    destruct (dict_get p (Some b)) as [sb|] eqn:Eb; [|congruence]. cbn [obind].
    destruct (sound_lookup p (Some b) sb Hp Eb) as (_ & _ & Hincl).
    destruct (add_firsts_progress node (exclude_nones (dyn_iter sb)) (p, d) Hp Hk)
      as (st1 & E1 & Hs1 & Hk1 & Ha1).
    { intros y Hy. apply Hincl. unfold exclude_nones in Hy.
      apply filter_In in Hy. tauto. }
    rewrite E1. cbn [obind]. unfold dict_getitem.
    assert (Hkb' : has_key (fst st1) (Some b)).
    { apply Hk1. unfold has_key. cbn [fst]. congruence. }
    unfold has_key in Hkb'.
    destruct (dict_get (fst st1) (Some b)) as [sb'|]; [|congruence]. cbn [obind].
    destruct (negb (dyn_contains sb' None)).
    + exists st1. auto.
    + destruct (IH st1 Hs1 (Hk1 _ Hk)) as (st2 & E2 & Hs2 & Hk2 & Ha2).
      { intros b' Hb'. apply Hk1, Hb. now right. }
      exists st2. split; [exact E2|]. split; [exact Hs2|]. split.
      * intros k Hkk. apply Hk2, Hk1, Hkk.
      * eapply advances_trans; eassumption.
Qed.

Lemma rules_progress (rules : list Rule) : forall st,
  sound U (fst st) -> covers (fst st) rules ->
  exists st', ofold (fun st rule => scan_body (head rule) (body rule) st) rules st = Ok st'
              /\ sound U (fst st')
              /\ (forall k, has_key (fst st) k -> has_key (fst st') k)
              /\ advances st st'.
Proof.
  induction rules as [|r rules IH]; intros st Hp Hcov; cbn [ofold].
  - exists st. split; [reflexivity|]. split; [exact Hp|].
    split; [auto|apply advances_refl].
  - destruct (Hcov r (or_introl eq_refl)) as [Hh Hb].
    destruct (scan_body_progress (head r) (body r) st Hp Hh Hb)
      as (st1 & E1 & Hs1 & Hk1 & Ha1).
    rewrite E1. cbn [obind].
    destruct (IH st1 Hs1) as (st2 & E2 & Hs2 & Hk2 & Ha2).
    { intros r' Hr'. destruct (Hcov r' (or_intror Hr')) as [Hh' Hb'].
      split; [now apply Hk1|]. intros b Hin. now apply Hk1, Hb'. }
    exists st2. split; [exact E2|]. split; [exact Hs2|]. split.
    + intros k Hkk. apply Hk2, Hk1, Hkk.
    + eapply advances_trans; eassumption.
Qed.

Lemma total_bound (p : prefix_table) :
  sound U p -> (total p <= List.length p * List.length U)%nat.
Proof.
  unfold sound, total. induction p as [|[k s] p IH]; simpl; intros Hp; [lia|].
  inversion Hp as [|? ? (Hh & Hc & Hincl) Hp']; subst. specialize (IH Hp').
  assert (size s <= List.length U)%nat.
  { apply NoDup_incl_length; [|exact Hincl]. apply Hc. }
  simpl in *. lia.
Qed.

(** The loop ends once the fuel exceeds what the table can still grow
    by. *)
Lemma prefixes_loop_terminates (self : Syntax) (fuel : nat) : forall p,
  sound U p -> covers p (rule_list self) ->
  (List.length p * List.length U - total p < fuel)%nat ->
  exists p', prefixes_loop self fuel p = Ok p'.
Proof.
  induction fuel as [|fuel IH]; intros p Hp Hcov Hfuel; [lia|].
  cbn [prefixes_loop]. unfold prefixes_pass.
  destruct (rules_progress (rule_list self) (p, true) Hp Hcov)
    as ([p' d'] & E & Hs & Hk & Hlen & Hadv).
  rewrite E. cbn [obind fst snd] in *. destruct d'.
  - now exists p'.
  - destruct Hadv as [[Hd _]|[_ Hlt]]; [discriminate|].
    apply IH; [exact Hs| |].
    + intros r Hr. destruct (Hcov r Hr) as [Hh Hb]. split; [now apply Hk|].
      intros b Hin. now apply Hk, Hb.
    + pose proof (total_bound p' Hs). rewrite Hlen in *. lia.
Qed.
End Progress.

(** *** The table the fixpoint starts from *)

Section Keys.
Context {T : Type} `{PyEqLeibniz T}.

Lemma dict_set_keys_In {V} (d : dict T V) k v y :
  In y (dict_keys (dict_set d k v)) <-> y = k \/ In y (dict_keys d).
Proof.
  induction d as [|[k' v'] d IH]; simpl.
  - split; [intros [<-|[]]; auto|intros [->|[]]; auto].
  - destruct (py_eqb k' k) eqn:E; simpl.
    + apply py_eqb_eq in E. subst. intuition congruence.
    + rewrite IH. intuition congruence.
Qed.

Lemma fold_keys_In (l : list T) : forall (d : dict T unit) y,
  In y (dict_keys (fold_left (fun d x => dict_set d x tt) l d))
  <-> In y (dict_keys d) \/ In y l.
Proof.
  induction l as [|x l IH]; simpl; intros d y; [tauto|].
  rewrite IH, dict_set_keys_In. intuition congruence.
Qed.

Lemma fromkeys_In (l : list T) y : In y (fromkeys l) <-> In y l.
Proof. unfold fromkeys. rewrite fold_keys_In. simpl. tauto. Qed.

Lemma exec_seq {S} (m k : M S unit) (s : S) :
  exec (m ;;; k) s = s1 <~ exec m s ;; exec k s1.
Proof.
  unfold exec, run, bind. destruct (m s) as [[[]| |] s1]; reflexivity.
Qed.

Lemma exec_update (l : list T) : forall s : DynSet T,
  hash s = None -> coherent (base s) ->
  exists s', exec (dyn_update l) s = Ok s'
             /\ hash s' = None /\ coherent (base s')
             /\ forall y, In y (dyn_iter s') <-> In y (dyn_iter s) \/ In y l.
Proof.
  induction l as [|x l IH]; intros s Hh Hc.
  - exists s. split; [reflexivity|]. split; [assumption|]. split; [assumption|].
    intros y. simpl. tauto.
  - unfold dyn_update. cbn [for_each]. rewrite exec_seq, exec_dyn_add, Hh.
    cbn [obind]. fold (dyn_update l).
    destruct (dyn_contains s x) eqn:E.
    + destruct (IH s Hh Hc) as (s' & Es & Hh' & Hc' & Hin).
      exists s'. split; [exact Es|]. split; [exact Hh'|]. split; [exact Hc'|].
      intros y. split.
      * intros Hy. apply Hin in Hy. simpl. tauto.
      * intros [Hy|[<-|Hy]]; apply Hin; auto.
        left. now apply dyn_contains_iff.
    + destruct (IH (mkDyn (appended (base s) x) None) eq_refl) as (s' & Es & Hh' & Hc' & Hin).
      { apply coherent_appended; [assumption|]. now apply dyn_contains_false. }
      exists s'. split; [exact Es|]. split; [exact Hh'|]. split; [exact Hc'|].
      intros y. split.
      * intros Hy. apply Hin in Hy. unfold dyn_iter in Hy. simpl in Hy.
        destruct Hy as [Hy|Hy]; [|simpl; tauto].
        apply in_app_or in Hy as [Hy|[<-|[]]]; simpl; auto.
      * intros Hy. apply Hin. unfold dyn_iter. simpl.
        destruct Hy as [Hy|[<-|Hy]]; auto.
        -- left. apply in_or_app. now left.
        -- left. apply in_or_app. right. now left.
Qed.

Lemma fold_set_get_in {V} (f : T -> V) (l : list T) : forall (d : dict T V) k,
  In k l -> dict_get (fold_left (fun d k => dict_set d k (f k)) l d) k = Some (f k).
Proof.
  induction l as [|x l IH]; intros d k Hin; [destruct Hin|]. simpl.
  destruct (in_dec py_eq_dec k l) as [Hl|Hl]; [now apply IH|].
  destruct Hin as [->|Hin]; [|contradiction].
  clear IH. revert d. induction l as [|y l IH]; intros d; simpl.
  - apply dict_get_set_eq.
  - assert (Hy : y <> k) by (intros ->; apply Hl; now left).
    assert (Hl' : ~ In k l) by (intros Hk; apply Hl; now right).
    specialize (IH Hl').
    replace (dict_get (fold_left (fun d k => dict_set d k (f k)) l
                         (dict_set (dict_set d k (f k)) y (f y))) k)
      with (dict_get (dict_set (dict_set d k (f k)) y (f y)) k).
    + rewrite dict_get_set_ne by assumption. apply dict_get_set_eq.
    + clear IH. generalize (dict_set (dict_set d k (f k)) y (f y)).
      induction l as [|z l IHl]; intros d'; [reflexivity|]. simpl.
      rewrite <- IHl.
      * rewrite dict_get_set_ne; [reflexivity|]. intros ->. apply Hl'. now left.
      * intros Hk. apply Hl. simpl in *. tauto.
      * intros Hk. apply Hl'. now right.
Qed.

Lemma fold_set_get_notin {V} (f : T -> V) (l : list T) : forall (d : dict T V) k,
  ~ In k l -> dict_get (fold_left (fun d k => dict_set d k (f k)) l d) k = dict_get d k.
Proof.
  induction l as [|x l IH]; intros d k Hn; [reflexivity|]. simpl.
  rewrite IH by (intros Hk; apply Hn; now right).
  apply dict_get_set_ne. intros ->. apply Hn. now left.
Qed.

Lemma fold_set_Forall {V} (Q : T * V -> Prop) (f : T -> V) (l : list T) :
  forall d : dict T V,
    Forall Q d -> (forall k k', In k l -> Q (k', f k)) ->
    Forall Q (fold_left (fun d k => dict_set d k (f k)) l d).
Proof.
  induction l as [|x l IH]; intros d Hd Hf; [exact Hd|]. simpl.
  apply IH.
  - clear IH. induction d as [|[k' v'] d IHd]; simpl.
    + constructor; [|constructor]. apply Hf. now left.
    + inversion Hd; subst. destruct (py_eqb k' x); constructor; auto.
      apply Hf. now left.
  - intros k k' Hk. apply Hf. now right.
Qed.
End Keys.

Section Initial.
Variable self : Syntax.

Lemma nodes_In y : In y (dyn_iter (nodes self)) <-> In y (map head (rule_list self)).
Proof. unfold nodes, dyn_iter, dyn_init, init. simpl. apply fromkeys_In. Qed.

Lemma nodes_contains y :
  dyn_contains (nodes self) y = true <-> In y (map head (rule_list self)).
Proof.
  rewrite <- nodes_In. apply dyn_contains_iff. apply init_coherent.
Qed.

Lemma symbols_ok :
  exists sy, symbols self = Ok sy
             /\ forall y, In y (dyn_iter sy)
                          <-> In y (map Some (flat_map body (rule_list self)))
                              \/ In y (map head (rule_list self)).
Proof.
  unfold symbols.
  destruct (exec_update (dyn_iter (nodes self))
              (dyn_init (map Some (flat_map body (rule_list self))))
              eq_refl (init_coherent _)) as (sy & E & _ & _ & Hin).
  exists sy. split; [exact E|]. intros y. rewrite Hin, nodes_In.
  unfold dyn_iter, dyn_init, init. simpl. now rewrite fromkeys_In.
Qed.

Lemma tokens_ok :
  exists tk, tokens self = Ok tk
             /\ forall y, In y (dyn_iter tk)
                          <-> In y (map Some (flat_map body (rule_list self)))
                              /\ ~ In y (map head (rule_list self)).
Proof.
  unfold tokens. destruct symbols_ok as (sy & E & Hin). rewrite E. cbn [obind].
  eexists. split; [reflexivity|]. intros y.
  unfold dyn_iter at 1, dyn_init, init. simpl.
  rewrite fromkeys_In, filter_In, Hin, negb_true_iff.
  rewrite <- not_true_iff_false, nodes_contains. tauto.
Qed.

(** The table before the first pass. *)
Lemma initial_table (tk : symbol_set) (U : list (option string)) :
  (forall y, In y (dyn_iter tk)
             <-> In y (map Some (flat_map body (rule_list self)))
                 /\ ~ In y (map head (rule_list self))) ->
  incl (dyn_iter tk) U ->
  let p1 : prefix_table :=
    fold_left (fun d token => dict_set d token (dyn_init [token]))
              (dyn_iter tk)
              (fold_left (fun d node => dict_set d node (dyn_init []))
                         (dyn_iter (nodes self)) []) in
  sound U p1 /\ covers p1 (rule_list self).
Proof.
  intros Htk HU p1. split.
  - unfold p1, sound. apply fold_set_Forall; [apply fold_set_Forall|].
    + constructor.
    + intros k k' _. cbn [snd]. split; [reflexivity|].
      split; [apply init_coherent|]. intros y [].
    + intros k k' Hk. cbn [snd]. split; [reflexivity|].
      split; [apply init_coherent|]. intros y Hy.
      unfold dyn_iter, dyn_init, init in Hy. simpl in Hy.
      destruct Hy as [<-|[]]. now apply HU.
  - assert (Hkey : forall y, In y (dyn_iter (nodes self)) \/ In y (dyn_iter tk) ->
                             has_key p1 y).
    { intros y Hy. unfold has_key, p1, prefix_table, symbol_set.
      set (d0 := fold_left (fun d node => dict_set d node (dyn_init []))
                           (dyn_iter (nodes self)) []).
      destruct (in_dec py_eq_dec y (dyn_iter tk)) as [Hin|Hn].
      - pose proof (fold_set_get_in (fun token : option string => dyn_init [token])
                      (dyn_iter tk) d0 y Hin) as Hg.
        cbv beta in Hg. rewrite Hg. discriminate.
      - pose proof (fold_set_get_notin (fun token : option string => dyn_init [token])
                      (dyn_iter tk) d0 y Hn) as Hg.
        cbv beta in Hg. rewrite Hg.
        destruct Hy as [Hy|Hy]; [|contradiction].
        pose proof (fold_set_get_in (fun _ : option string => dyn_init (T := option string) [])
                      (dyn_iter (nodes self)) [] y Hy) as Hg'.
        cbv beta in Hg'. unfold d0. rewrite Hg'. discriminate. }
    intros r Hr. split.
    + apply Hkey. left. apply nodes_In. now apply in_map.
    + intros b Hb. apply Hkey.
      destruct (in_dec py_eq_dec (Some b) (map head (rule_list self))) as [Hin|Hn].
      * left. now apply nodes_In.
      * right. apply Htk. split; [|assumption].
        apply in_map. apply in_flat_map. exists r. auto.
Qed.

Lemma prefixes_terminates : exists fuel table, prefixes self fuel = Ok table.
Proof.
  destruct tokens_ok as (tk & Etk & Htk).
  pose (U := None :: dyn_iter tk).
  destruct (initial_table tk U Htk) as [Hs Hc].
  { intros y Hy. now right. }
  set (p1 := fold_left _ (dyn_iter tk) _) in *.
  exists (S (List.length p1 * List.length U - total p1)).
  unfold prefixes. rewrite Etk. cbn [obind].
  apply (prefixes_loop_terminates U (or_introl eq_refl) self); auto.
Qed.
End Initial.

(** *** What the fixpoint holds *)

Lemma appended_keeps (b : SequentialSet (option string)) x y :
  contains b y = true -> contains (appended b x) y = true.
Proof.
  unfold contains, dict_mem. simpl. destruct (py_eq_dec x y) as [->|Hne].
  - now rewrite dict_get_set_eq.
  - now rewrite dict_get_set_ne.
Qed.

Lemma appended_holds (b : SequentialSet (option string)) x :
  contains (appended b x) x = true.
Proof. unfold contains, dict_mem. simpl. now rewrite dict_get_set_eq. Qed.

Lemma add_first_keeps node st x st' k y :
  add_first node st x = Ok st' -> holds (fst st) k y -> holds (fst st') k y.
Proof.
  destruct st as [p d]. rewrite add_first_unfold. cbn [fst].
  destruct (dict_get p node) as [s|] eqn:Es; [|discriminate].
  destruct (dyn_contains s x); [intros E; inversion E; auto|].
  destruct (hash s); [discriminate|]. intros E. inversion E; subst. cbn [fst].
  intros (s0 & Hs0 & Hy). unfold holds.
  destruct (py_eq_dec node k) as [->|Hne].
  - rewrite dict_get_set_eq. eexists. split; [reflexivity|].
    rewrite Es in Hs0. inversion Hs0; subst.
    unfold dyn_contains in *. simpl. now apply appended_keeps.
  - rewrite dict_get_set_ne by assumption. now exists s0.
Qed.

Lemma add_first_holds node st x st' :
  add_first node st x = Ok st' -> holds (fst st') node x.
Proof.
  destruct st as [p d]. rewrite add_first_unfold.
  destruct (dict_get p node) as [s|] eqn:Es; [|discriminate].
  destruct (dyn_contains s x) eqn:Ex.
  - intros E. inversion E; subst. now exists s.
  - destruct (hash s); [discriminate|]. intros E. inversion E; subst. cbn [fst].
    unfold holds. rewrite dict_get_set_eq. eexists. split; [reflexivity|].
    unfold dyn_contains. simpl. apply appended_holds.
Qed.

Lemma add_first_other node st x st' k :
  add_first node st x = Ok st' -> k <> node ->
  dict_get (fst st') k = dict_get (fst st) k.
Proof.
  destruct st as [p d]. rewrite add_first_unfold.
  destruct (dict_get p node) as [s|] eqn:Es; [|discriminate].
  destruct (dyn_contains s x); [intros E; inversion E; auto|].
  destruct (hash s); [discriminate|]. intros E Hne. inversion E; subst. cbn [fst].
  apply dict_get_set_ne. congruence.
Qed.

(** A property of the table that every [add_first] at [node] keeps is
    kept by the scan of a body and by a pass. *)
Lemma add_firsts_keep (Q : prefix_table -> Prop) node :
  (forall st x st', add_first node st x = Ok st' -> Q (fst st) -> Q (fst st')) ->
  forall xs st st', ofold (add_first node) xs st = Ok st' -> Q (fst st) -> Q (fst st').
Proof.
  intros HQ. induction xs as [|x xs IH]; intros st st'; cbn [ofold].
  - intros E. now inversion E.
  - destruct (add_first node st x) as [st1| |] eqn:E1; try discriminate. cbn [obind].
    intros E HQs. eapply IH; [exact E|]. eapply HQ; eassumption.
Qed.

Lemma scan_body_keeps (Q : prefix_table -> Prop) node :
  (forall st x st', add_first node st x = Ok st' -> Q (fst st) -> Q (fst st')) ->
  forall symbols st st', scan_body node symbols st = Ok st' -> Q (fst st) -> Q (fst st').
Proof.
  intros HQ symbols. induction symbols as [|b symbols IH]; intros st st'.
  - rewrite scan_body_nil. apply HQ.
  - cbn [scan_body].
    destruct (dict_getitem (fst st) (Some b)) as [sb| |]; try discriminate. cbn [obind].
    destruct (ofold (add_first node) (exclude_nones (dyn_iter sb)) st) as [st1| |] eqn:E1;
      try discriminate. cbn [obind].
    destruct (dict_getitem (fst st1) (Some b)) as [sb'| |]; try discriminate. cbn [obind].
    pose proof (add_firsts_keep Q node HQ _ _ _ E1) as H1.
    destruct (negb (dyn_contains sb' None)).
    + intros E. inversion E; subst. exact H1.
    + intros E HQs. eapply IH; [exact E|]. auto.
Qed.

Lemma rules_keep (Q : prefix_table -> Prop) (rules : list Rule) :
  (forall r st x st', In r rules -> add_first (head r) st x = Ok st' ->
                      Q (fst st) -> Q (fst st')) ->
  forall st st',
    ofold (fun st rule => scan_body (head rule) (body rule) st) rules st = Ok st' ->
    Q (fst st) -> Q (fst st').
Proof.
  induction rules as [|r rules IH]; intros HQ st st'; cbn [ofold].
  - intros E. now inversion E.
  - destruct (scan_body (head r) (body r) st) as [st1| |] eqn:E1; try discriminate.
    cbn [obind]. intros E HQs. eapply IH; [|exact E|].
    + intros r' st0 x st0' Hr'. apply HQ. now right.
    + eapply scan_body_keeps; [|exact E1|exact HQs].
      intros st0 x st0'. apply HQ. now left.
Qed.

Lemma loop_last_pass (self : Syntax) (fuel : nat) : forall p p',
  prefixes_loop self fuel p = Ok p' ->
  exists p0, prefixes_pass self p0 = Ok (p', true).
Proof.
  induction fuel as [|fuel IH]; intros p p'; cbn [prefixes_loop]; [discriminate|].
  destruct (prefixes_pass self p) as [[p1 [|]]| |] eqn:E; try discriminate; cbn [obind].
  - intros E'. inversion E'; subst. now exists p.
  - apply IH.
Qed.

Lemma pass_nullable (self : Syntax) (A : option string) p st' :
  In (mkRule A []) (rule_list self) ->
  prefixes_pass self p = Ok st' -> holds (fst st') A None.
Proof.
  unfold prefixes_pass. generalize (p, true). intros st Hin.
  revert st. induction (rule_list self) as [|r rules IH]; intros st; [destruct Hin|].
  cbn [ofold].
  destruct (scan_body (head r) (body r) st) as [st1| |] eqn:E1; try discriminate.
  cbn [obind]. intros E.
  destruct (in_dec (fun x y : Rule => ltac:(decide equality; [apply (list_eq_dec string_dec)|decide equality; apply string_dec]))
              (mkRule A []) rules) as [Hr|Hr].
  - exact (IH Hr st1 E).
  - destruct Hin as [->|Hin]; [|contradiction]. cbn [head body] in E1.
    rewrite scan_body_nil in E1. apply add_first_holds in E1.
    eapply (rules_keep (fun p => holds p A None)); [|exact E|exact E1].
    intros r' st0 x st0' _. apply add_first_keeps.
Qed.

Section Singleton.
Variables (h : option string) (t : string).
Hypothesis h_not_t : h <> Some t.

Lemma settled_weaken b p : settled h t true p -> settled h t b p.
Proof. intros [Ht [Hh|[Hb _]]]; [|discriminate]. split; auto. Qed.

Lemma own_rule_settles b p d st' :
  settled h t b p -> scan_body h [t] (p, d) = Ok st' -> settled h t true (fst st').
Proof.
  intros [Ht Hh]. cbn [scan_body fst]. unfold dict_getitem at 1. rewrite Ht.
  cbn [obind]. change (exclude_nones (dyn_iter (dyn_init [Some t]))) with [Some t].
  cbn [ofold]. rewrite add_first_unfold.
  assert (Hsame : forall p', dict_get p' (Some t) = Some (dyn_init [Some t]) ->
            (s <~ dict_getitem p' (Some t) ;;
             if negb (dyn_contains s None) then Ok (p', false)
             else scan_body h [] (p', false)) = Ok (p', false)).
  { intros p' Hp'. unfold dict_getitem. rewrite Hp'. reflexivity. }
  destruct Hh as [Hh|[_ Hh]]; rewrite Hh.
  - assert (Hc : dyn_contains (singleton_of t) (Some t) = true)
      by apply appended_holds.
    rewrite Hc. cbn [obind fst]. unfold dict_getitem. rewrite Ht. cbn [obind].
    change (negb (dyn_contains (dyn_init [Some t]) None)) with true. cbn iota.
    intros E. inversion E; subst. split; auto.
  - change (dyn_contains (dyn_init []) (Some t)) with false. cbn iota.
    change (hash (dyn_init (T := option string) [])) with (@None Z). cbn iota.
    cbn [obind fst]. unfold dict_getitem.
    rewrite dict_get_set_ne by assumption. rewrite Ht. cbn [obind].
    change (negb (dyn_contains (dyn_init [Some t]) None)) with true. cbn iota.
    intros E. inversion E; subst. cbn [fst]. split.
    + now rewrite dict_get_set_ne.
    + left. apply dict_get_set_eq.
Qed.

Lemma other_rule_keeps b node st x st' :
  node <> h -> node <> Some t ->
  add_first node st x = Ok st' -> settled h t b (fst st) -> settled h t b (fst st').
Proof.
  intros Hh Ht E [H1 H2]. unfold settled.
  rewrite (add_first_other node st x st' (Some t) E) by congruence.
  rewrite (add_first_other node st x st' h E) by congruence. now split.
Qed.

Lemma rules_settle (rules : list Rule) :
  (forall r, In r rules -> head r = h -> body r = [t]) ->
  (forall r, In r rules -> head r <> Some t) ->
  forall b st st',
    ofold (fun st rule => scan_body (head rule) (body rule) st) rules st = Ok st' ->
    settled h t b (fst st) ->
    settled h t b (fst st')
    /\ (In (mkRule h [t]) rules -> settled h t true (fst st')).
Proof.
  induction rules as [|r rules IH]; intros Hown Hterm b st st'; cbn [ofold].
  - intros E. inversion E; subst. split; [auto|intros []].
  - destruct (scan_body (head r) (body r) st) as [st1| |] eqn:E1; try discriminate.
    cbn [obind]. intros E Hs.
    assert (Hown' : forall r', In r' rules -> head r' = h -> body r' = [t])
      by (intros; apply Hown; auto; now right).
    assert (Hterm' : forall r', In r' rules -> head r' <> Some t)
      by (intros; apply Hterm; now right).
    destruct (py_eq_dec (head r) h) as [Hr|Hr].
    + pose proof (Hown r (or_introl eq_refl) Hr) as Hb. rewrite Hr, Hb in E1.
      destruct st as [p d].
      pose proof (own_rule_settles b p d st1 Hs E1) as H1.
      destruct (IH Hown' Hterm' true st1 st' E H1) as [H2 _].
      split; [now apply settled_weaken|auto].
    + assert (H1 : settled h t b (fst st1)).
      { eapply (scan_body_keeps (settled h t b)); [|exact E1|exact Hs].
        intros st0 x st0'. apply other_rule_keeps; [exact Hr|].
        apply Hterm. now left. }
      destruct (IH Hown' Hterm' b st1 st' E H1) as [H2 H3].
      split; [exact H2|]. intros [Heq|Hin]; [|auto].
      subst r. simpl in Hr. congruence.
Qed.

Lemma loop_settles (self : Syntax) :
  In (mkRule h [t]) (rule_list self) ->
  (forall r, In r (rule_list self) -> head r = h -> body r = [t]) ->
  (forall r, In r (rule_list self) -> head r <> Some t) ->
  forall fuel p p',
    prefixes_loop self fuel p = Ok p' -> settled h t false p -> settled h t true p'.
Proof.
  intros Hin Hown Hterm. induction fuel as [|fuel IH]; intros p p';
    cbn [prefixes_loop]; [discriminate|].
  unfold prefixes_pass.
  destruct (ofold _ (rule_list self) (p, true)) as [[p1 d]| |] eqn:E; try discriminate.
  cbn [obind]. intros E' Hs.
  destruct (rules_settle (rule_list self) Hown Hterm false (p, true) (p1, d) E Hs)
    as [_ H1].
  specialize (H1 Hin). cbn [fst] in H1. destruct d.
  - inversion E'; subst. exact H1.
  - eapply IH; [exact E'|]. now apply settled_weaken.
Qed.
End Singleton.

Lemma initial_settled (self : Syntax) (tk : symbol_set) h t :
  (forall y, In y (dyn_iter tk)
             <-> In y (map Some (flat_map body (rule_list self)))
                 /\ ~ In y (map head (rule_list self))) ->
  In (mkRule h [t]) (rule_list self) ->
  (forall r, In r (rule_list self) -> head r <> Some t) ->
  settled h t false
    (fold_left (fun d token => dict_set d token (dyn_init [token]))
               (dyn_iter tk)
               (fold_left (fun d node => dict_set d node (dyn_init []))
                          (dyn_iter (nodes self)) [])).
Proof.
  intros Htk Hin Hterm.
  set (d0 := fold_left (fun d node => dict_set d node (dyn_init []))
                       (dyn_iter (nodes self)) []).
  assert (Ht : In (Some t) (dyn_iter tk)).
  { apply Htk. split.
    - apply in_map. apply in_flat_map. exists (mkRule h [t]). split; [assumption|now left].
    - intros Hh. apply in_map_iff in Hh as (r & Hr & Hrin). exact (Hterm r Hrin Hr). }
  assert (Hh : ~ In h (dyn_iter tk)).
  { intros Hh. apply Htk in Hh as [_ Hh]. apply Hh.
    change h with (head (mkRule h [t])). now apply in_map. }
  split.
  - pose proof (fold_set_get_in (fun token : option string => dyn_init [token])
                  (dyn_iter tk) d0 (Some t) Ht) as Hg.
    cbv beta in Hg. exact Hg.
  - right. split; [reflexivity|].
    pose proof (fold_set_get_notin (fun token : option string => dyn_init [token])
                  (dyn_iter tk) d0 h Hh) as Hg.
    cbv beta in Hg. unfold prefix_table, symbol_set in *. rewrite Hg.
    assert (Hn : In h (dyn_iter (nodes self))).
    { apply nodes_In. change h with (head (mkRule h [t])). now apply in_map. }
    exact (fold_set_get_in (fun _ : option string => dyn_init (T := option string) [])
             (dyn_iter (nodes self)) [] h Hn).
Qed.

(** C8. The prefixes fixpoint of every grammar is reached. Once it is
    computed: if the grammar has the rules [A -> epsilon] and
    [A -> "x" B], then [prefixes[A]] holds the nullability marker; and if
    the only rule of a head is [head -> t] for a terminal [t], then
    [prefixes[head]] is the set that holds [t] and nothing else. *)
Theorem prefixes_fixpoint (self : Syntax) :
  (exists fuel table, prefixes self fuel = Ok table)
  /\ (forall fuel table A x B,
        prefixes self fuel = Ok table ->
        In (mkRule A []) (rule_list self) ->
        In (mkRule A [x; B]) (rule_list self) ->
        exists s, dict_get table A = Some s /\ dyn_contains s None = true)
  /\ (forall fuel table h t,
        prefixes self fuel = Ok table ->
        In (mkRule h [t]) (rule_list self) ->
        (forall r, In r (rule_list self) -> head r = h -> body r = [t]) ->
        (forall r, In r (rule_list self) -> head r <> Some t) ->
        exists s, dict_get table h = Some s /\ dyn_iter s = [Some t]).
Proof.
  split; [apply prefixes_terminates|]. split.
  - intros fuel table A x B E Hnil _. unfold prefixes in E.
    destruct (tokens self) as [tk| |]; try discriminate. cbn [obind] in E.
    apply loop_last_pass in E as [p0 E].
    exact (pass_nullable self A p0 (table, true) Hnil E).
  - intros fuel table h t E Hin Hown Hterm.
    assert (Hne : h <> Some t).
    { intros ->. exact (Hterm _ Hin eq_refl). }
    unfold prefixes in E. destruct tokens_ok with (self := self) as (tk & Etk & Htk).
    rewrite Etk in E. cbn [obind] in E.
    pose proof (initial_settled self tk h t Htk Hin Hterm) as H0.
    destruct (loop_settles h t Hne self Hin Hown Hterm fuel _ table E H0)
      as [_ [Hs|[Hb _]]]; [|discriminate].
    exists (singleton_of t). split; [exact Hs|reflexivity].
Qed.

Lemma prefixes_fixpoint_witness :
  exists table,
    prefixes DemoSpec.nullable_grammar 3 = Ok table
    /\ (exists s, dict_get table (Some "A") = Some s /\ dyn_contains s None = true)
    /\ (exists s, dict_get table (Some "C") = Some s /\ dyn_iter s = [Some "t"]).
Proof.
  destruct (prefixes DemoSpec.nullable_grammar 3) as [table| |] eqn:E;
    [|vm_compute in E; discriminate..].
  exists table. split; [reflexivity|]. split.
  - apply (proj1 (proj2 (prefixes_fixpoint DemoSpec.nullable_grammar))
                 3%nat table (Some "A") "x" "B" E); simpl; auto.
  - apply (proj2 (proj2 (prefixes_fixpoint DemoSpec.nullable_grammar))
                 3%nat table (Some "C") "t" E).
    + simpl. auto.
    + simpl. intros r [<-|[<-|[<-|[]]]]; simpl; congruence.
    + simpl. intros r [<-|[<-|[<-|[]]]]; simpl; congruence.
Defined.
End PrefixFacts.

(** ** Conflicts in the ACTION table *)

Module ActionFacts.
Import SequentialSets SetFacts Syntax FuelSpec FuelFacts ActionSpec PrefixFacts.

#[export] Instance pair_Leibniz {A B} `{PyEqLeibniz A} `{PyEqLeibniz B} :
  PyEqLeibniz (A * B).
Proof.
  intros [a b] [a' b']. unfold py_eqb, pair_PyEq. simpl.
  rewrite andb_true_iff. change (py_eqb a a' = true /\ py_eqb b b' = true <-> (a, b) = (a', b')).
  rewrite !py_eqb_eq. split; [intros [-> ->]; reflexivity|intros E; inversion E; auto].
Qed.

Lemma assign_all_app (l1 l2 : list entry) (acts : action_table) :
  assign_all (l1 ++ l2) acts = acts' <~ assign_all l1 acts ;; assign_all l2 acts'.
Proof.
  unfold assign_all. revert acts. induction l1 as [|e l1 IH]; intros acts; simpl.
  - reflexivity.
  - destruct (assign acts (fst e) (snd e)); simpl; auto.
Qed.

Lemma shifts_assign (gotos : goto_table) (i : Z) (toks : list (option string)) :
  forall acts, ofold (add_shift gotos i) toks acts
               = assign_all (shift_entries gotos i toks) acts.
Proof.
  induction toks as [|t toks IH]; intros acts; [reflexivity|].
  cbn [ofold shift_entries flat_map]. fold (shift_entries gotos i toks).
  rewrite assign_all_app. unfold add_shift at 1.
  destruct (dict_get gotos (i, t)) as [j|]; [destruct (j =? 0)|].
  - cbn [obind]. apply IH.
  - unfold assign_all at 1. cbn [ofold fst snd].
    destruct (assign acts (i, t) (Shift j)); cbn [obind]; auto.
  - cbn [obind]. apply IH.
Qed.

Lemma reduces_assign (i : Z) (items : list LR1Item) :
  forall acts, ofold (add_reduce i) items acts
               = assign_all (reduce_entries i items) acts.
Proof.
  induction items as [|item items IH]; intros acts; [reflexivity|].
  cbn [ofold reduce_entries flat_map]. fold (reduce_entries i items).
  rewrite assign_all_app. unfold add_reduce at 1.
  destruct (dot item =? len (body (rule item))); [|cbn [obind]; apply IH].
  destruct (head (rule item)), (follower item).
  - unfold assign_all at 1. cbn [ofold fst snd].
    destruct (assign acts _ _); cbn [obind]; auto.
  - unfold assign_all at 1. cbn [ofold fst snd].
    destruct (assign acts _ _); cbn [obind]; auto.
  - cbn [obind]. apply IH.
  - unfold assign_all at 1. cbn [ofold fst snd].
    destruct (assign acts _ _); cbn [obind]; auto.
Qed.

Lemma states_assign rules table tokens gotos fuel (cores : list item_set) :
  forall closures i acts,
    closures_of rules table fuel cores = Ok closures ->
    ofold (state_actions rules table tokens gotos fuel) cores (i, acts)
    = acts' <~ assign_all (all_entries gotos tokens i closures) acts ;;
      Ok (i + len closures, acts').
Proof.
  induction cores as [|core cores IH]; intros closures i acts; cbn [closures_of ofold].
  - intros E. inversion E; subst. simpl. do 2 f_equal. unfold len. simpl. lia.
  - unfold state_actions at 1.
    destruct (lr1_closure rules table fuel core) as [closure| |]; try discriminate.
    cbn [obind].
    destruct (closures_of rules table fuel cores) as [rest| |] eqn:Er; try discriminate.
    cbn [obind]. intros E. inversion E; subst. cbn [all_entries].
    unfold state_entries. rewrite !assign_all_app.
    rewrite shifts_assign.
    destruct (assign_all (shift_entries gotos i (dyn_iter tokens)) acts) as [a1| |];
      cbn [obind]; try reflexivity.
    rewrite reduces_assign.
    destruct (assign_all (reduce_entries i (dyn_iter closure)) a1) as [a2| |];
      cbn [obind]; try reflexivity.
    rewrite (IH rest (i + 1) a2 eq_refl).
    destruct (assign_all (all_entries gotos tokens (i + 1) rest) a2); cbn [obind];
      try reflexivity.
    do 2 f_equal. unfold len. cbn [List.length]. lia.
Qed.

Lemma assign_known_key (l : list entry) : forall (acts : action_table) k,
  dict_mem acts k = true ->
  existsb (fun e => py_eqb (fst e) k) l = true ->
  assign_all l acts = Raise conflict.
Proof.
  induction l as [|e l IH]; intros acts k Hk Hex; [discriminate|].
  unfold assign_all. cbn [ofold existsb] in *. unfold assign at 1.
  destruct (dict_mem acts (fst e)) eqn:Em; [reflexivity|]. cbn [obind].
  apply orb_true_iff in Hex as [Hek|Hex].
  - apply py_eqb_eq in Hek. rewrite Hek in Em. congruence.
  - apply (IH _ k); [|exact Hex]. unfold dict_mem in *.
    destruct (py_eq_dec (fst e) k) as [->|Hne].
    + now rewrite dict_get_set_eq.
    + now rewrite dict_get_set_ne.
Qed.

Lemma conflict_raises (l : list entry) : forall acts : action_table,
  has_conflict l = true -> assign_all l acts = Raise conflict.
Proof.
  induction l as [|e l IH]; intros acts Hc; [discriminate|].
  cbn [has_conflict] in Hc. unfold assign_all. cbn [ofold]. unfold assign at 1.
  destruct (dict_mem acts (fst e)) eqn:Em; [reflexivity|]. cbn [obind].
  apply orb_true_iff in Hc as [Hex|Hc].
  - apply (assign_known_key l _ (fst e)); [|exact Hex].
    unfold dict_mem. now rewrite dict_get_set_eq.
  - now apply IH.
Qed.

Section Conflict.
Variable hash_item : LR1Item -> Z.
Variable syntax : Syntax.
Variable root_node : string.

Lemma planned_conflict (fuel : nat) (entries : list entry) :
  planned_entries hash_item syntax root_node fuel = Ok entries ->
  has_conflict entries = true ->
  actions hash_item syntax root_node fuel = Raise conflict
  /\ tables hash_item syntax root_node fuel = Raise conflict.
Proof.
  unfold planned_entries, actions, tables, build_actions.
  destruct (item_sets_and_gotos hash_item syntax root_node fuel)
    as [[item_sets gotos]| |]; try discriminate. cbn [obind].
  destruct (rules syntax) as [rules| |]; try discriminate. cbn [obind].
  destruct (prefixes syntax fuel) as [table| |]; try discriminate. cbn [obind].
  destruct (tokens syntax) as [tokens| |]; try discriminate. cbn [obind].
  destruct (closures_of rules table fuel (dyn_iter item_sets)) as [closures| |] eqn:Ec;
    try discriminate. cbn [obind].
  intros E Hc. inversion E; subst.
  pose proof (states_assign rules table tokens gotos fuel (dyn_iter item_sets)
                closures 0 [] Ec) as Hs.
  rewrite conflict_raises in Hs by exact Hc. cbn [obind] in Hs.
  set (o := ofold _ (dyn_iter item_sets) _).
  assert (Ho : o = Raise conflict) by exact Hs.
  rewrite Ho. split; reflexivity.
Qed.

(** With tables that cannot be built, the driver returns nothing. *)
Lemma parse_loop_without_tables (t : outcome (action_table * goto_table))
      source steps c tree :
  (forall v, t <> Ok v) -> parse_loop syntax t source steps c <> Ok tree.
Proof.
  intros Ht. destruct steps as [|steps]; [discriminate|]. cbn [parse_loop].
  unfold parse_step. destruct (span c) as [i j].
  destruct t as [v| |]; [now destruct (Ht v)|discriminate..].
Qed.

(** C3. When the construction of the ACTION table would assign twice to
    one (state, lookahead) pair, building the table raises the conflict
    error, with this fuel and with any larger one: the error belongs to
    the construction, no parse is needed to meet it. A parse builds the
    table at its first action lookup, so it raises that error before it
    shifts or reduces anything, and it never returns a tree. *)
Theorem conflict_is_fatal (fuel : nat) (entries : list entry) :
  planned_entries hash_item syntax root_node fuel = Ok entries ->
  has_conflict entries = true ->
  (forall fuel', (fuel <= fuel')%nat ->
      actions hash_item syntax root_node fuel' = Raise conflict)
  /\ (forall build steps source offset token span,
        (fuel <= build)%nat ->
        scan_token syntax source offset = Ok (token, span) ->
        parse hash_item syntax root_node build (S steps) source offset
        = Raise conflict)
  /\ (forall build steps source offset tree,
        parse hash_item syntax root_node build steps source offset <> Ok tree).
Proof.
  intros Hp Hc. destruct (planned_conflict fuel entries Hp Hc) as [Ha Ht].
  split; [|split].
  - intros fuel' Hle.
    exact (settles_Raise _ _ _ (actions_settles hash_item syntax root_node fuel fuel' Hle) Ha).
  - intros build steps source offset token span Hle Hs. unfold parse.
    rewrite Hs. cbn [obind parse_loop]. unfold parse_step. cbn [Syntax.span].
    destruct span as [i j].
    rewrite (settles_Raise _ _ _ (tables_settles hash_item syntax root_node fuel build Hle) Ht).
    reflexivity.
  - intros build steps source offset tree. unfold parse.
    destruct (scan_token syntax source offset) as [[token span]| |]; try discriminate.
    cbn [obind]. apply parse_loop_without_tables. intros v Hv.
    destruct (Nat.le_gt_cases fuel build) as [Hle|Hgt].
    + rewrite (settles_Raise _ _ _ (tables_settles hash_item syntax root_node fuel build Hle) Ht) in Hv.
      discriminate.
    + destruct (tables_settles hash_item syntax root_node build fuel (Nat.lt_le_incl _ _ Hgt))
        as [E|E]; rewrite E in Hv; [discriminate|]. rewrite Ht in Hv. discriminate.
Qed.
End Conflict.

Lemma conflict_is_fatal_witness :
  actions (fun _ => 0) DemoSpec.ambiguous_grammar "S" 6 = Raise conflict
  /\ parse (fun _ => 0) DemoSpec.ambiguous_grammar "S" 6 1 "x" 0 = Raise conflict.
Proof.
  destruct (planned_entries (fun _ => 0) DemoSpec.ambiguous_grammar "S" 6)
    as [entries| |] eqn:E; [|vm_compute in E; discriminate..].
  assert (Hc : has_conflict entries = true).
  { vm_compute in E. inversion E. reflexivity. }
  destruct (conflict_is_fatal (fun _ => 0) DemoSpec.ambiguous_grammar "S" 6 entries E Hc)
    as (Ha & Hparse & _).
  split.
  - apply Ha. lia.
  - apply (Hparse 6%nat 0%nat "x" 0 (Some "x") (0, 1)); [lia|reflexivity].
Defined.

(** The table is built on first use: a parse whose first token no scanner
    matches ends with the tokenization error before the table is looked
    up. *)
Example table_built_on_first_use :
  parse (fun _ => 0) DemoSpec.ambiguous_grammar "S" 6 1 "@" 0
  = Raise (ValueError (UnrecognizedToken 0)).
Proof. vm_compute. reflexivity. Qed.
End ActionFacts.

(** ** The steps of the driver *)

Module ParseFacts.
Import SequentialSets Syntax FuelSpec FuelFacts DemoSpec.

Lemma list_getitem_last {A} (l : list A) (x : A) :
  list_getitem (l ++ [x]) (-1) = Ok x.
Proof.
  unfold list_getitem, norm_index, len. rewrite length_app. cbn [List.length].
  change (-1 <? 0) with true. cbv iota.
  destruct (Z.leb_spec 0 (-1 + Z.of_nat (List.length l + 1))); [|lia].
  destruct (Z.ltb_spec (-1 + Z.of_nat (List.length l + 1))
                       (Z.of_nat (List.length l + 1))); [|lia].
  cbn [andb].
  replace (Z.to_nat (-1 + Z.of_nat (List.length l + 1))) with (List.length l) by lia.
  rewrite nth_error_app2 by lia. now rewrite Nat.sub_diag.
Qed.

Lemma list_getitem_nonempty {A} (l : list A) (i : Z) (x : A) :
  list_getitem l i = Ok x -> (0 < List.length l)%nat.
Proof.
  unfold list_getitem. destruct (norm_index l i) as [n|]; [|discriminate].
  destruct (nth_error l n) eqn:E; [|discriminate]. intros _.
  assert (n < List.length l)%nat by (apply nth_error_Some; congruence). lia.
Qed.

Lemma try_scanner_grows source i best entry best' :
  try_scanner source i best entry = Ok best' -> fst best <= fst best'.
Proof.
  unfold try_scanner. destruct best as [m t], entry as [tok sc].
  destruct (sc source i) as [n|[]|]; try discriminate.
  - destruct (Z.gtb_spec n m); intros E; inversion E; simpl; lia.
  - intros E. inversion E. simpl. lia.
Qed.

Lemma scanners_grow source i (l : list (string * scanner)) : forall best best',
  ofold (try_scanner source i) l best = Ok best' -> fst best <= fst best'.
Proof.
  induction l as [|e l IH]; intros best best'; cbn [ofold].
  - intros E. inversion E. lia.
  - destruct (try_scanner source i best e) as [b1| |] eqn:E1; try discriminate.
    cbn [obind]. intros E. apply try_scanner_grows in E1. apply IH in E. lia.
Qed.

(** A scanned span starts at the offset and does not end before it. *)
Lemma scan_token_span (self : Syntax) source i tok a b :
  scan_token self source i = Ok (tok, (a, b)) -> a = i /\ a <= b.
Proof.
  unfold scan_token. destruct (i >=? str_len source).
  - intros E. inversion E. lia.
  - destruct (ofold (try_scanner source i) (token_parsers self) (-1, "???"))
      as [[m t]| |] eqn:Ef; try discriminate. cbn [obind].
    apply scanners_grow in Ef. cbn [fst] in Ef.
    destruct (Z.eqb_spec m (-1)); [discriminate|]. intros E. inversion E. lia.
Qed.

Section Steps.
Variable syntax : Syntax.

(** C4, amended. A turn of the driver that continues is a shift or a
    reduce. A shift pushes the leaf of the current token and the target
    state and scans the next token at the end of the current span; the
    new span starts there and does not end before it starts, so the
    offset moves forward by the length of the shifted token, which may
    be zero. A reduce keeps the token, has a rule body of [n >= 1]
    symbols on a stack of more than [2n] cells, and leaves
    [len(stack) - 2n + 2] cells: the stack does not grow. *)
Theorem parse_step_shift_or_reduce (actions : action_table) (gotos : goto_table)
      (source : string) (c c' : config) :
  parse_step syntax (Ok (actions, gotos)) source c = Ok (Continue c') ->
  exists state,
    list_getitem (stack c) (-1) = Ok (State state)
    /\ ((exists target,
           dict_get actions (state, token c) = Some (Shift target)
           /\ stack c'
              = stack c
                ++ [Tree (mkNode (token c) (span c)
                            (Text (str_slice source (fst (span c)) (snd (span c)))));
                    State target]
           /\ scan_token syntax source (snd (span c)) = Ok (token c', span c')
           /\ fst (span c') = snd (span c)
           /\ fst (span c') <= snd (span c'))
        \/ (exists rule,
              dict_get actions (state, token c) = Some (Reduce rule)
              /\ token c' = token c /\ span c' = span c
              /\ 1 <= len (body rule)
              /\ 2 * len (body rule) < len (stack c)
              /\ len (stack c') = len (stack c) - 2 * len (body rule) + 2)).
Proof.
  intros E. unfold parse_step in E. destruct c as [stk tok [i j]].
  cbn [stack token span obind fst snd] in *.
  destruct (list_getitem stk (-1)) as [top| |]; try discriminate. cbn [obind] in E.
  destruct top as [state|[name sp [text|cells]]]; try discriminate.
  exists state. split; [reflexivity|].
  destruct (dict_get actions (state, tok)) as [[target|rule|]|]; try discriminate.
  - left. exists target. split; [reflexivity|].
    destruct (scan_token syntax source j) as [[tok' [a b]]| |] eqn:Es; try discriminate.
    cbn [obind] in E. inversion E; subst. cbn [stack token span fst snd].
    destruct (scan_token_span syntax source j tok' a b Es) as [-> Hab].
    split; [now rewrite <- app_assoc|]. split; [reflexivity|]. split; [reflexivity|exact Hab].
  - right. exists rule. split; [reflexivity|].
    set (n := len (body rule)) in *.
    destruct (list_getitem (slice_to stk (- n * 2)) (-1)) as [below| |] eqn:Eb;
      try discriminate. cbn [obind] in E.
    apply list_getitem_nonempty in Eb. unfold slice_to in Eb.
    rewrite length_firstn in Eb. unfold clamp_index in Eb.
    assert (Hn : 0 <= n) by (unfold n, len; lia).
    assert (Hpos : 1 <= n /\ 2 * n < len stk).
    { destruct (Z.ltb_spec (- n * 2) 0) as [Hneg|Hz].
      - split; [lia|]. unfold len in *. lia.
      - assert (n = 0) by lia. replace (- n * 2) with 0 in Eb by lia.
        rewrite Z.min_l in Eb by (unfold len; lia). simpl in Eb. lia. }
    destruct (match below with
              | State s => dict_getitem gotos (s, head rule)
              | Tree (mkNode _ _ (Text _)) => Raise KeyError
              | Tree (mkNode _ _ (Cells _)) => Raise TypeError
              end) as [state'| |]; try discriminate. cbn [obind] in E.
    destruct (list_getitem (slice_from_step2 stk (- n * 2)) 0) as [first| |];
      try discriminate. cbn [obind] in E.
    destruct (cell_span first) as [fs| |]; try discriminate. cbn [obind] in E.
    destruct (list_getitem (slice_from_step2 stk (- n * 2)) (-1)) as [last| |];
      try discriminate. cbn [obind] in E.
    destruct (cell_span last) as [ls| |]; try discriminate. cbn [obind] in E.
    inversion E; subst. cbn [stack token span].
    split; [reflexivity|]. split; [reflexivity|]. split; [tauto|]. split; [tauto|].
    unfold slice_to, clamp_index, len. rewrite length_app, length_firstn.
    cbn [List.length]. destruct Hpos as [H1 H2]. unfold len in H2.
    destruct (Z.ltb_spec (- n * 2) 0); lia.
  - destruct (list_getitem stk 1); discriminate.
Qed.
End Steps.

Lemma parse_step_shift_or_reduce_witness :
  exists actions gotos c',
    parse_step demo (Ok (actions, gotos)) "x=fuy" demo_start = Ok (Continue c')
    /\ exists state,
         list_getitem (stack demo_start) (-1) = Ok (State state)
         /\ ((exists target,
                dict_get actions (state, token demo_start) = Some (Shift target)
                /\ stack c'
                   = stack demo_start
                     ++ [Tree (mkNode (token demo_start) (span demo_start)
                                 (Text (str_slice "x=fuy" (fst (span demo_start))
                                                  (snd (span demo_start)))));
                         State target]
                /\ scan_token demo "x=fuy" (snd (span demo_start))
                   = Ok (token c', span c')
                /\ fst (span c') = snd (span demo_start)
                /\ fst (span c') <= snd (span c'))
             \/ (exists rule,
                   dict_get actions (state, token demo_start) = Some (Reduce rule)
                   /\ token c' = token demo_start /\ span c' = span demo_start
                   /\ 1 <= len (body rule)
                   /\ 2 * len (body rule) < len (stack demo_start)
                   /\ len (stack c')
                      = len (stack demo_start) - 2 * len (body rule) + 2)).
Proof.
  destruct (tables (fun _ => 0) demo "stmts" 8) as [[actions gotos]| |] eqn:Et;
    [|vm_compute in Et; discriminate..].
  exists actions, gotos.
  destruct (parse_step demo (Ok (actions, gotos)) "x=fuy" demo_start)
    as [[c'|r]| |] eqn:Es;
    [|vm_compute in Et; inversion Et; subst; vm_compute in Es; discriminate..].
  exists c'. split; [reflexivity|].
  exact (parse_step_shift_or_reduce demo actions gotos "x=fuy" demo_start c' Es).
Defined.

(** C4 as stated fails: the tables of [S -> "" S | "x"] are built without
    a conflict, and on ["y"] the driver shifts the empty terminal [""]
    again and again; no number of steps ends the parse. *)
Lemma zero_length_shift_loops :
  (exists t, tables (fun _ => 0) looping_grammar "S" 6 = Ok t)
  /\ forall steps,
       parse (fun _ => 0) looping_grammar "S" 6 steps "y" 0 = OutOfFuel.
Proof.
  destruct (tables (fun _ => 0) looping_grammar "S" 6) as [[actions gotos]| |] eqn:Et;
    [|vm_compute in Et; discriminate..].
  split; [eexists; reflexivity|].
  assert (Hshift : forall s, s = 0 \/ s = 1 ->
                             dict_get actions (s, Some "") = Some (Shift 1)).
  { pose proof Et as Et'. vm_compute in Et'. inversion Et'; subst.
    intros s [->| ->]; reflexivity. }
  assert (Hloop : forall steps s pre, s = 0 \/ s = 1 ->
            parse_loop looping_grammar (Ok (actions, gotos)) "y" steps
                       (mkConfig (pre ++ [State s]) (Some "") (0, 0))
            = OutOfFuel).
  { induction steps as [|steps IH]; intros s pre Hs; [reflexivity|].
    cbn [parse_loop]. unfold parse_step. cbn [span stack token obind].
    rewrite list_getitem_last. cbn [obind]. rewrite (Hshift s Hs).
    change (scan_token looping_grammar "y" 0) with (Ok (Some "", (0, 0))).
    cbn [obind]. apply (IH 1 _ (or_intror eq_refl)). }
  intros steps. unfold parse.
  change (scan_token looping_grammar "y" 0) with (Ok (Some "", (0, 0))).
  cbn [obind]. rewrite Et. exact (Hloop steps 0 [] (or_introl eq_refl)).
Qed.
End ParseFacts.

(** ** More on the sequential sets *)

Module SetExtras.
Import SequentialSets SetSpec SetFacts PrefixFacts.

Section Extras.
Context {T : Type} `{PyEqLeibniz T}.

Lemma existsb_In (x : T) (l : list T) : existsb (py_eqb x) l = true <-> In x l.
Proof.
  rewrite existsb_exists. split.
  - intros (y & Hy & E). apply py_eqb_eq in E. now subst.
  - intros Hx. exists x. split; [assumption|apply py_eqb_refl].
Qed.

Lemma fold_keys_unseen (l : list T) : forall d : dict T unit,
  dict_keys (fold_left (fun d x => dict_set d x tt) l d)
  = dict_keys d ++ unseen (dict_keys d) l.
Proof.
  induction l as [|x l IH]; intros d; simpl; [now rewrite app_nil_r|].
  rewrite IH. destruct (existsb (py_eqb x) (dict_keys d)) eqn:E.
  - apply existsb_In in E. rewrite dict_set_keys_old; [reflexivity|].
    intros Hn. apply dict_get_None in Hn. contradiction.
  - assert (Hn : dict_get d x = None).
    { apply dict_get_None. intros Hin. apply existsb_In in Hin. congruence. }
    rewrite (dict_set_new _ _ _ Hn). unfold dict_keys. rewrite map_app. simpl.
    now rewrite <- app_assoc.
Qed.

(** X1. The constructor keeps the first occurrence of each value, in
    order; the set it builds satisfies the class invariant, holds no
    value twice, and contains exactly the values it was given. *)
Theorem init_first_occurrences (l : list T) :
  iter (init l) = first_occurrences l
  /\ coherent (init l)
  /\ NoDup (iter (init l))
  /\ (forall x, contains (init l) x = true <-> In x l)
  /\ set_len (init l) <= len l.
Proof.
  split; [|split; [|split; [|split]]].
  - unfold iter, init, fromkeys. cbn [values]. now rewrite fold_keys_unseen.
  - apply init_coherent.
  - apply fromkeys_NoDup.
  - intros x. rewrite (contains_iff (init l) x (init_coherent l)).
    unfold init. cbn [values]. apply fromkeys_In.
  - unfold set_len, len, init. cbn [values].
    assert (List.length (fromkeys l) <= List.length l)%nat; [|lia].
    apply NoDup_incl_length; [apply fromkeys_NoDup|].
    intros x Hx. now apply fromkeys_In.
Qed.

(** X2. On a coherent set [add] never fails and keeps the invariant:
    a present value changes nothing, an absent one goes last; the value
    is contained afterwards, and adding it again changes nothing. *)
Theorem add_appends_once (s : SequentialSet T) (v : T) :
  coherent s ->
  exists s',
    add v s = (Ok tt, s')
    /\ coherent s'
    /\ contains s' v = true
    /\ (In v (values s) -> s' = s)
    /\ (~ In v (values s) -> values s' = values s ++ [v])
    /\ add v s' = (Ok tt, s').
Proof.
  intros Hc. destruct (in_dec py_eq_dec v (values s)) as [Hin|Hn].
  - exists s. rewrite (add_present s v Hc Hin).
    split; [reflexivity|]. split; [assumption|].
    split; [now apply contains_iff|]. split; [reflexivity|].
    split; [intros; contradiction|reflexivity].
  - exists (appended s v). rewrite (add_absent s v Hc Hn).
    pose proof (coherent_appended s v Hc Hn) as Hc'.
    assert (Hv : In v (values (appended s v))).
    { simpl. apply in_or_app. right. now left. }
    split; [reflexivity|]. split; [assumption|].
    split; [now apply contains_iff|]. split; [intros; contradiction|].
    split; [reflexivity|]. now apply add_present.
Qed.

Lemma update_cons (x : T) (l : list T) (s : SequentialSet T) :
  update (x :: l) s
  = match add x s with
    | (Ok _, s1) => update l s1
    | (Raise e, s1) => (Raise e, s1)
    | (OutOfFuel, s1) => (OutOfFuel, s1)
    end.
Proof. unfold update. cbn [for_each]. unfold bind. reflexivity. Qed.

(** X3. [update] adds the values one by one: on a coherent set it never
    fails, keeps the invariant, and appends the values that were not
    yet in the set, each once, in the order they first come. *)
Theorem update_appends_unseen (l : list T) (s : SequentialSet T) :
  coherent s ->
  exists s',
    update l s = (Ok tt, s')
    /\ coherent s'
    /\ values s' = values s ++ unseen (values s) l
    /\ (forall x, contains s' x = true <-> In x (values s) \/ In x l).
Proof.
  revert s. induction l as [|x l IH]; intros s Hc.
  - exists s. split; [reflexivity|]. split; [assumption|].
    split; [simpl; now rewrite app_nil_r|].
    intros y. rewrite (contains_iff s y Hc). simpl. tauto.
  - rewrite update_cons. cbn [unseen].
    destruct (existsb (py_eqb x) (values s)) eqn:E.
    + apply existsb_In in E. rewrite (add_present s x Hc E).
      destruct (IH s Hc) as (s' & Hu & Hc' & Hv & Hin).
      exists s'. split; [exact Hu|]. split; [exact Hc'|]. split; [exact Hv|].
      intros y. rewrite Hin. simpl. intuition (subst; auto).
    + assert (Hn : ~ In x (values s)).
      { intros Hin. apply existsb_In in Hin. congruence. }
      rewrite (add_absent s x Hc Hn).
      destruct (IH (appended s x) (coherent_appended s x Hc Hn))
        as (s' & Hu & Hc' & Hv & Hin).
      exists s'. split; [exact Hu|]. split; [exact Hc'|]. split.
      * rewrite Hv. simpl. now rewrite <- app_assoc.
      * intros y. rewrite Hin. simpl. rewrite in_app_iff. simpl.
        intuition (subst; auto).
Qed.
End Extras.

Lemma init_first_occurrences_witness :
  iter (init ["b"; "a"; "b"; "c"; "a"]) = first_occurrences ["b"; "a"; "b"; "c"; "a"]
  /\ coherent (init ["b"; "a"; "b"; "c"; "a"])
  /\ NoDup (iter (init ["b"; "a"; "b"; "c"; "a"]))
  /\ (forall x, contains (init ["b"; "a"; "b"; "c"; "a"]) x = true
                <-> In x ["b"; "a"; "b"; "c"; "a"])
  /\ set_len (init ["b"; "a"; "b"; "c"; "a"]) <= len ["b"; "a"; "b"; "c"; "a"].
Proof. exact (init_first_occurrences ["b"; "a"; "b"; "c"; "a"]). Defined.

Lemma add_appends_once_witness :
  exists s', add "c" (init ["a"; "b"]) = (Ok tt, s')
             /\ coherent s' /\ contains s' "c" = true
             /\ (In "c" (values (init ["a"; "b"])) -> s' = init ["a"; "b"])
             /\ (~ In "c" (values (init ["a"; "b"]))
                 -> values s' = values (init ["a"; "b"]) ++ ["c"])
             /\ add "c" s' = (Ok tt, s').
Proof. apply (add_appends_once (init ["a"; "b"]) "c"). apply init_coherent. Defined.

Lemma update_appends_unseen_witness :
  exists s', update ["b"; "c"; "c"; "a"; "d"] (init ["a"; "b"]) = (Ok tt, s')
             /\ coherent s'
             /\ values s' = values (init ["a"; "b"])
                            ++ unseen (values (init ["a"; "b"])) ["b"; "c"; "c"; "a"; "d"]
             /\ (forall x, contains s' x = true
                           <-> In x (values (init ["a"; "b"]))
                               \/ In x ["b"; "c"; "c"; "a"; "d"]).
Proof.
  apply (update_appends_unseen ["b"; "c"; "c"; "a"; "d"] (init ["a"; "b"])).
  apply init_coherent.
Defined.
End SetExtras.

(** ** The mutators of the sequential sets and the class invariant *)

Module SetMutators.
Import SequentialSets SetSpec SetFacts.

Section Mutators.
Context {T : Type} `{PyEqLeibniz T}.

Lemma for_each_indexes_set (l : list (Z * T)) : forall s : SequentialSet T,
  for_each l (fun '(i, v) => indexes_set v i) s
  = (Ok tt, mkSet (values s)
                  (fold_left (fun d '(i, v) => dict_set d v i) l (indexes s))).
Proof.
  induction l as [|[i v] l IH]; intros s.
  - destruct s. reflexivity.
  - cbn [for_each fold_left]. unfold bind at 1. unfold indexes_set at 1, modify.
    rewrite IH. reflexivity.
Qed.

(** Writing the positions [k], [k + 1], ... of values that are all keys
    already. *)
Lemma fold_reindex (tl : list T) : forall (k : Z) (d : dict T Z),
  NoDup tl -> (forall x, In x tl -> dict_get d x <> None) ->
  let d' := fold_left (fun d '(i, v) => dict_set d v i) (enumerate tl k) d in
  dict_keys d' = dict_keys d
  /\ (forall j x, nth_error tl j = Some x -> dict_get d' x = Some (k + Z.of_nat j))
  /\ (forall x, ~ In x tl -> dict_get d' x = dict_get d x).
Proof.
  induction tl as [|x tl IH]; intros k d Hnd Hin; cbn zeta.
  - split; [reflexivity|]. split; [|reflexivity].
    intros [|j] y Hj; discriminate.
  - cbn [enumerate fold_left]. inversion Hnd as [|? ? Hx Hnd']; subst.
    destruct (IH (k + 1) (dict_set d x k) Hnd') as (Hk & Hpos & Hrest).
    { intros y Hy. rewrite dict_get_set_ne; [apply Hin; now right|].
      intros ->. contradiction. }
    split; [|split].
    + rewrite Hk. apply dict_set_keys_old. apply Hin. now left.
    + intros [|j] y Hj.
      * cbn in Hj. inversion Hj; subst. rewrite (Hrest _ Hx).
        rewrite dict_get_set_eq. f_equal. lia.
      * cbn in Hj. rewrite (Hpos _ _ Hj). f_equal. lia.
    + intros y Hy. rewrite Hrest by (intros Hy'; apply Hy; now right).
      apply dict_get_set_ne. intros ->. apply Hy. now left.
Qed.

Lemma dict_length_keys {V} (d : dict T V) : List.length d = List.length (dict_keys d).
Proof. unfold dict_keys. now rewrite length_map. Qed.

Lemma clamp_index_nat {A} (l : list A) (n : nat) :
  (n <= List.length l)%nat -> clamp_index l (Z.of_nat n) = n.
Proof.
  intros Hn. unfold clamp_index, len.
  destruct (Z.ltb_spec (Z.of_nat n) 0); lia.
Qed.

Lemma norm_index_out {A} (l : list A) (i : Z) :
  i < - len l \/ len l <= i -> norm_index l i = None.
Proof.
  intros Hi. unfold norm_index.
  destruct (Z.ltb_spec i 0);
    destruct (Z.leb_spec 0 (i + len l)); destruct (Z.leb_spec 0 i);
    cbn [andb]; try reflexivity;
    match goal with |- context [?a <? ?b] => destruct (Z.ltb_spec a b) end;
    try reflexivity; unfold len in *; lia.
Qed.

Lemma nth_error_middle {A} (l1 l2 : list A) (v : A) :
  nth_error (l1 ++ v :: l2) (List.length l1) = Some v.
Proof. rewrite nth_error_app2 by lia. now rewrite Nat.sub_diag. Qed.

Lemma firstn_middle {A} (l1 l2 : list A) : firstn (List.length l1) (l1 ++ l2) = l1.
Proof. rewrite firstn_app, Nat.sub_diag, firstn_all. simpl. apply app_nil_r. Qed.

Lemma skipn_middle {A} (l1 l2 : list A) : skipn (List.length l1) (l1 ++ l2) = l2.
Proof. rewrite skipn_app, Nat.sub_diag, skipn_all. reflexivity. Qed.

Lemma skipn_past_middle {A} (l1 l2 : list A) (v : A) :
  skipn (S (List.length l1)) (l1 ++ v :: l2) = l2.
Proof.
  replace (l1 ++ v :: l2) with ((l1 ++ [v]) ++ l2) by (now rewrite <- app_assoc).
  replace (S (List.length l1)) with (List.length (l1 ++ [v]))
    by (rewrite length_app; simpl; lia).
  apply skipn_middle.
Qed.

(** The positions a coherent set records, by the part of the list. *)
Lemma coherent_parts (l1 l2 : list T) (v : T) (d : dict T Z) :
  coherent (mkSet (l1 ++ v :: l2) d) ->
  NoDup l1 /\ NoDup l2 /\ ~ In v l1 /\ ~ In v l2
  /\ (forall x, In x l1 -> ~ In x l2)
  /\ dict_get d v = Some (len l1)
  /\ (forall j x, nth_error l1 j = Some x -> dict_get d x = Some (Z.of_nat j))
  /\ (forall j x, nth_error l2 j = Some x ->
                  dict_get d x = Some (len l1 + 1 + Z.of_nat j)).
Proof.
  intros (Hnd & Hk & Hlen & Hpos). cbn [values indexes] in *.
  pose proof (NoDup_remove_1 _ _ _ Hnd) as Hnd'.
  pose proof (NoDup_remove_2 _ _ _ Hnd) as Hv.
  rewrite in_app_iff in Hv.
  split; [eapply NoDup_app_remove_r; eauto|].
  split; [eapply NoDup_app_remove_l; eauto|].
  split; [tauto|]. split; [tauto|]. split; [|split; [|split]].
  - intros x H1 H2. revert Hnd'. clear -H1 H2.
    induction l1 as [|a l1 IH]; [contradiction|].
    simpl. intros Hn. inversion Hn; subst. destruct H1 as [->|H1].
    + match goal with Hx : ~ In _ _ |- _ => apply Hx end.
      apply in_or_app. now right.
    + now apply IH.
  - apply (Hpos (List.length l1)). apply nth_error_middle.
  - intros j x Hj. apply Hpos. rewrite nth_error_app1; [assumption|].
    apply nth_error_Some. congruence.
  - intros j x Hj. unfold len.
    replace (Z.of_nat (List.length l1) + 1 + Z.of_nat j)
      with (Z.of_nat (List.length l1 + S j)) by lia.
    apply Hpos. rewrite nth_error_app2 by lia.
    replace (List.length l1 + S j - List.length l1)%nat with (S j) by lia.
    exact Hj.
Qed.

(** The other way round: a set is coherent when its map has the keys
    of the values and the right position for each. *)
Lemma coherent_by_positions (vs : list T) (d : dict T Z) :
  NoDup vs -> NoDup (dict_keys d) ->
  List.length d = List.length vs ->
  (forall i v, nth_error vs i = Some v -> dict_get d v = Some (Z.of_nat i)) ->
  coherent (mkSet vs d).
Proof. intros. unfold coherent. cbn [values indexes]. tauto. Qed.

(** X4. Deleting by a position from the front: on a coherent set
    [del s[i]] with [i] the position of [v] takes [v] out, keeps the
    order of the other values and the invariant, so every value behind
    [v] is recorded one place lower.  A position outside the list
    changes nothing: it raises [IndexError] when it fits a C
    [Py_ssize_t], and [OverflowError] when it does not. *)
Theorem delitem_shifts_left (l1 l2 : list T) (v : T) (d : dict T Z) :
  coherent (mkSet (l1 ++ v :: l2) d) ->
  (exists s',
     delitem (len l1) (mkSet (l1 ++ v :: l2) d) = (Ok tt, s')
     /\ values s' = l1 ++ l2
     /\ coherent s'
     /\ contains s' v = false
     /\ (forall j x, nth_error l2 j = Some x ->
                     position s' x = Some (len l1 + Z.of_nat j)))
  /\ (forall i, i < - len (l1 ++ v :: l2) \/ len (l1 ++ v :: l2) <= i ->
                - 2 ^ 63 <= i < 2 ^ 63 ->
                delitem i (mkSet (l1 ++ v :: l2) d)
                = (Raise IndexError, mkSet (l1 ++ v :: l2) d))
  /\ (len (l1 ++ v :: l2) < 2 ^ 63 ->
      forall i, i < - 2 ^ 63 \/ 2 ^ 63 <= i ->
                delitem i (mkSet (l1 ++ v :: l2) d)
                = (Raise OverflowError, mkSet (l1 ++ v :: l2) d)).
Proof.
  intros Hc. split; [|split].
  - pose proof (coherent_parts _ _ _ _ Hc)
      as (Hn1 & Hn2 & Hv1 & Hv2 & Hdis & Hdv & Hp1 & Hp2).
    pose proof Hc as (Hnd & Hk & Hlen & Hpos). cbn [values indexes] in *.
    destruct (dict_remove_keys d v Hk) as (Hk' & Hin' & Hget').
    assert (Hrl : S (List.length (dict_remove d v)) = List.length d).
    { apply dict_remove_length. rewrite Hdv. discriminate. }
    assert (Hfit : fits_ssize (l1 ++ v :: l2) (len l1) = true).
    { apply fits_ssize_within. rewrite len_app. unfold len. lia. }
    unfold len in *.
    unfold delitem, bind at 1, values_pop, list_pop. cbn [values indexes].
    rewrite Hfit.
    rewrite norm_index_nat
      by (rewrite length_app; simpl; lia).
    rewrite nth_error_middle.
    replace (firstn (List.length l1) (l1 ++ v :: l2)) with l1
      by (symmetry; apply firstn_middle).
    replace (skipn (S (List.length l1)) (l1 ++ v :: l2)) with l2
      by (symmetry; apply skipn_past_middle).
    unfold bind at 1, indexes_pop. cbn [values indexes]. rewrite Hdv.
    unfold bind at 1, gets. cbn [values indexes]. unfold slice_from.
    rewrite clamp_index_nat by (rewrite length_app; lia).
    rewrite skipn_middle. rewrite for_each_indexes_set. cbn [values indexes].
    destruct (fold_reindex l2 (Z.of_nat (List.length l1)) (dict_remove d v) Hn2)
      as (Hfk & Hfp & Hfo).
    { intros x Hx. rewrite Hget' by (intros ->; contradiction).
      destruct (In_nth_error _ _ Hx) as (j & Hj). rewrite (Hp2 _ _ Hj).
      discriminate. }
    cbn zeta in Hfk, Hfp, Hfo.
    eexists. split; [reflexivity|]. cbn [values indexes].
    split; [reflexivity|]. split; [|split].
    + apply coherent_by_positions.
      * eapply NoDup_remove_1; eauto.
      * rewrite Hfk. exact Hk'.
      * rewrite dict_length_keys, Hfk, <- dict_length_keys.
        rewrite length_app in *. simpl in Hlen. lia.
      * intros i x Hi. destruct (Nat.ltb_spec i (List.length l1)) as [Hlt|Hge].
        -- rewrite nth_error_app1 in Hi by assumption.
           assert (Hx1 : In x l1) by (eapply nth_error_In; eauto).
           rewrite Hfo by (now apply Hdis).
           rewrite Hget' by (intros ->; contradiction). now apply Hp1.
        -- rewrite nth_error_app2 in Hi by assumption.
           rewrite (Hfp _ _ Hi). f_equal. lia.
    + unfold contains, dict_mem. cbn [indexes]. rewrite Hfo by assumption.
      replace (dict_get (dict_remove d v) v) with (@None Z); [reflexivity|].
      symmetry. apply dict_get_None. rewrite Hin'. tauto.
    + intros j x Hj. unfold position. cbn [indexes]. apply (Hfp _ _ Hj).
  - intros i Hi Hfit. unfold delitem, bind at 1, values_pop, list_pop.
    cbn [values]. rewrite fits_ssize_small by exact Hfit.
    now rewrite norm_index_out.
  - intros Hlen i Hi. unfold delitem, bind at 1, values_pop, list_pop.
    cbn [values]. rewrite fits_ssize_beyond; [reflexivity|exact Hi|].
    assert (0 <= len (l1 ++ v :: l2)) by (unfold len; lia). lia.
Qed.

Lemma setitem_out_of_range (s : SequentialSet T) (i : Z) (new_value : T) :
  i < - len (values s) \/ len (values s) <= i ->
  setitem i new_value s = (Raise IndexError, s).
Proof.
  intros Hi. unfold setitem, bind at 1, values_get, list_getitem.
  now rewrite norm_index_out.
Qed.

(** X5. Assigning by a position from the front, [s[i] = new] with [i]
    the position of [old] in a coherent set: the same value changes
    nothing; a value the set holds elsewhere raises [ValueError] and
    changes nothing; any other value takes the place of [old], and the
    invariant is kept.  A position outside the list raises
    [IndexError]. *)
Theorem setitem_replaces (l1 l2 : list T) (old new : T) (d : dict T Z) :
  coherent (mkSet (l1 ++ old :: l2) d) ->
  let s := mkSet (l1 ++ old :: l2) d in
  (new = old -> setitem (len l1) new s = (Ok tt, s))
  /\ (new <> old -> In new (l1 ++ old :: l2) ->
      setitem (len l1) new s = (Raise (ValueError AlreadyAtDifferentIndex), s))
  /\ (~ In new (l1 ++ old :: l2) ->
      exists s',
        setitem (len l1) new s = (Ok tt, s')
        /\ values s' = l1 ++ new :: l2
        /\ coherent s'
        /\ contains s' old = false
        /\ position s' new = Some (len l1))
  /\ (forall i, i < - len (l1 ++ old :: l2) \/ len (l1 ++ old :: l2) <= i ->
                setitem i new s = (Raise IndexError, s)).
Proof.
  intros Hc. cbn zeta.
  pose proof (coherent_parts _ _ _ _ Hc)
    as (Hn1 & Hn2 & Hv1 & Hv2 & Hdis & Hdv & Hp1 & Hp2).
  pose proof Hc as (Hnd & Hk & Hlen & Hpos). cbn [values indexes] in *.
  assert (Hget : forall x, setitem (len l1) x (mkSet (l1 ++ old :: l2) d)
            = (if py_eqb x old then ret tt
               else present <- gets (fun s => contains s x) ;;
                    if (present : bool)
                    then raise (ValueError AlreadyAtDifferentIndex)
                    else indexes_pop old ;;; values_set (len l1) x ;;;
                         indexes_set x (len l1)) (mkSet (l1 ++ old :: l2) d)).
  { intros x. unfold setitem, bind at 1, values_get, list_getitem. cbn [values].
    unfold len. rewrite norm_index_nat by (rewrite length_app; simpl; lia).
    now rewrite nth_error_middle. }
  split; [|split; [|split]].
  - intros ->. rewrite Hget, py_eqb_refl. reflexivity.
  - intros Hne Hin. rewrite Hget, (py_eqb_neq _ _ Hne).
    unfold bind, gets. apply (contains_iff _ new Hc) in Hin. now rewrite Hin.
  - intros Hn.
    assert (Hne : new <> old).
    { intros ->. apply Hn. apply in_or_app. right. now left. }
    assert (Hnew : dict_get d new = None) by (apply (coherent_absent _ new Hc Hn)).
    destruct (dict_remove_keys d old Hk) as (Hk' & Hin' & Hget').
    assert (Hrl : S (List.length (dict_remove d old)) = List.length d).
    { apply dict_remove_length. rewrite Hdv. discriminate. }
    assert (Hrn : dict_get (dict_remove d old) new = None).
    { now rewrite Hget'. }
    rewrite Hget, (py_eqb_neq _ _ Hne). unfold bind at 1, gets.
    unfold contains, dict_mem. cbn [indexes]. rewrite Hnew.
    unfold bind at 1, indexes_pop. cbn [values indexes]. rewrite Hdv.
    unfold bind, values_set, list_setitem, indexes_set, modify. cbn [values indexes].
    unfold len. rewrite norm_index_nat by (rewrite length_app; simpl; lia).
    rewrite firstn_middle, skipn_past_middle. cbn [values indexes].
    eexists. split; [reflexivity|]. cbn [values indexes].
    split; [reflexivity|]. split; [|split].
    + apply coherent_by_positions.
      * now apply (NoDup_replace l1 l2 old new).
      * now apply dict_set_keys_NoDup.
      * rewrite (dict_set_new _ _ _ Hrn). rewrite !length_app in *.
        simpl in *. lia.
      * intros i x Hi.
        destruct (Nat.lt_trichotomy i (List.length l1)) as [Hlt|[->|Hgt]].
        -- rewrite nth_error_app1 in Hi by assumption.
           assert (Hx1 : In x l1) by (eapply nth_error_In; eauto).
           rewrite dict_get_set_ne.
           ++ rewrite Hget' by (intros ->; contradiction). now apply Hp1.
           ++ intros ->. apply Hn. apply in_or_app. now left.
        -- rewrite nth_error_middle in Hi. inversion Hi; subst.
           apply dict_get_set_eq.
        -- rewrite nth_error_app2 in Hi by lia.
           replace (i - List.length l1)%nat with (S (i - S (List.length l1))) in Hi
             by lia.
           cbn [nth_error] in Hi.
           assert (Hx2 : In x l2) by (eapply nth_error_In; eauto).
           rewrite dict_get_set_ne.
           ++ rewrite Hget' by (intros ->; contradiction).
              rewrite (Hp2 _ _ Hi). unfold len. f_equal. lia.
           ++ intros ->. apply Hn. apply in_or_app. right. now right.
    + rewrite dict_get_set_ne by assumption.
      replace (dict_get (dict_remove d old) old) with (@None Z); [reflexivity|].
      symmetry. apply dict_get_None. rewrite Hin'. tauto.
    + unfold position. cbn [indexes]. apply dict_get_set_eq.
  - intros i Hi. now apply setitem_out_of_range.
Qed.

(** X6. [insert] on a coherent set: a value the set holds raises
    [ValueError] and changes nothing, whatever the position; a new
    value at a position from 0 to the length goes to that position,
    the values behind it move one place up, and the invariant is
    kept. *)
Theorem insert_shifts_right (l1 l2 : list T) (v : T) (d : dict T Z) :
  coherent (mkSet (l1 ++ l2) d) ->
  let s := mkSet (l1 ++ l2) d in
  (In v (l1 ++ l2) ->
   forall i, insert i v s = (Raise (ValueError AlreadyInSet), s))
  /\ (~ In v (l1 ++ l2) ->
      exists s',
        insert (len l1) v s = (Ok tt, s')
        /\ values s' = l1 ++ v :: l2
        /\ coherent s'
        /\ (forall j x, nth_error l2 j = Some x ->
                        position s' x = Some (len l1 + 1 + Z.of_nat j))).
Proof.
  intros Hc. cbn zeta. pose proof Hc as (Hnd & Hk & Hlen & Hpos).
  cbn [values indexes] in *. split.
  - intros Hin i. unfold insert, bind, gets.
    apply (contains_iff _ v Hc) in Hin. now rewrite Hin.
  - intros Hn.
    assert (Hnew : dict_get d v = None) by (apply (coherent_absent _ v Hc Hn)).
    assert (Hn2 : NoDup l2) by (eapply NoDup_app_remove_l; eauto).
    assert (Hp2 : forall j x, nth_error l2 j = Some x ->
                              dict_get d x = Some (Z.of_nat (List.length l1 + j))).
    { intros j x Hj. apply Hpos. rewrite nth_error_app2 by lia.
      now replace (List.length l1 + j - List.length l1)%nat with j by lia. }
    unfold insert, bind at 1, gets, contains, dict_mem. cbn [indexes].
    rewrite Hnew. unfold bind at 1, values_insert. cbn [values indexes].
    unfold list_insert.
    rewrite fits_ssize_within by (rewrite len_app; unfold len; lia).
    unfold len.
    rewrite clamp_index_nat by (rewrite length_app; lia).
    rewrite firstn_middle, skipn_middle.
    unfold bind at 1. cbn [values indexes]. unfold slice_from.
    rewrite clamp_index_nat by (rewrite length_app; simpl; lia).
    rewrite skipn_middle. rewrite for_each_indexes_set.
    cbn [values indexes enumerate fold_left].
    destruct (fold_reindex l2 (Z.of_nat (List.length l1) + 1)
                (dict_set d v (Z.of_nat (List.length l1))) Hn2)
      as (Hfk & Hfp & Hfo).
    { intros x Hx. rewrite dict_get_set_ne.
      - destruct (In_nth_error _ _ Hx) as (j & Hj). rewrite (Hp2 _ _ Hj).
        discriminate.
      - intros ->. apply Hn. apply in_or_app. now right. }
    cbn zeta in Hfk, Hfp, Hfo.
    eexists. split; [reflexivity|]. cbn [values indexes].
    split; [reflexivity|]. split.
    + apply coherent_by_positions.
      * apply NoDup_cons_iff in Hnd || idtac.
        apply NoDup_Add with (a := v) (l := l1 ++ l2); [apply Add_app|].
        split; assumption.
      * rewrite Hfk. now apply dict_set_keys_NoDup.
      * rewrite dict_length_keys, Hfk, <- dict_length_keys.
        rewrite (dict_set_new _ _ _ Hnew). rewrite !length_app in *.
        simpl. lia.
      * intros i x Hi.
        destruct (Nat.lt_trichotomy i (List.length l1)) as [Hlt|[->|Hgt]].
        -- rewrite nth_error_app1 in Hi by assumption.
           assert (Hx1 : In x l1) by (eapply nth_error_In; eauto).
           assert (Hxv : v <> x).
           { intros ->. apply Hn. apply in_or_app. now left. }
           rewrite Hfo.
           ++ rewrite dict_get_set_ne by assumption. apply Hpos.
              now rewrite nth_error_app1.
           ++ intros Hx2. destruct (In_nth_error _ _ Hx2) as (j & Hj).
              pose proof (Hp2 _ _ Hj) as E1.
              rewrite (Hpos i x) in E1 by (now rewrite nth_error_app1).
              inversion E1. lia.
        -- rewrite nth_error_middle in Hi. inversion Hi; subst.
           rewrite Hfo by (intros Hx; apply Hn; apply in_or_app; now right).
           apply dict_get_set_eq.
        -- rewrite nth_error_app2 in Hi by lia.
           replace (i - List.length l1)%nat with (S (i - S (List.length l1))) in Hi
             by lia.
           cbn [nth_error] in Hi. rewrite (Hfp _ _ Hi). f_equal. lia.
    + intros j x Hj. unfold position. cbn [indexes]. apply (Hfp _ _ Hj).
Qed.

(** X7. [remove] and [discard] on a coherent set: a value the set lacks
    makes [remove] raise [KeyError] and [discard] do nothing, the set
    unchanged; a value at position [i] is taken out by moving the last
    value into its place (the last value itself is just dropped), and
    the invariant is kept. *)
Theorem remove_swaps_last (s : SequentialSet T) (v : T) :
  coherent s ->
  (~ In v (values s) ->
   remove v s = (Raise KeyError, s) /\ discard v s = (Ok tt, s))
  /\ (forall l f i,
        values s = l ++ [f] -> nth_error (values s) i = Some v ->
        exists s',
          remove v s = (Ok tt, s')
          /\ discard v s = (Ok tt, s')
          /\ coherent s'
          /\ values s' = (if (i <? List.length l)%nat
                          then firstn i l ++ f :: skipn (S i) l
                          else l)
          /\ contains s' v = false).
Proof.
  intros Hc. split.
  - intros Hn. pose proof (coherent_absent s v Hc Hn) as Hd. split.
    + unfold remove, bind, indexes_pop. now rewrite Hd.
    + unfold discard, bind, gets, contains, dict_mem. now rewrite Hd.
  - intros l f i Hl Hi. destruct s as [vs d]. cbn [values] in Hl, Hi. subst vs.
    destruct (remove_present l f d v i Hc Hi) as (s' & Hr & Hc' & Hv & Hg).
    exists s'. split; [exact Hr|]. split; [|tauto].
    unfold discard, bind, gets.
    assert (Hin : contains (mkSet (l ++ [f]) d) v = true).
    { apply (contains_iff _ v Hc). cbn [values]. eapply nth_error_In; eauto. }
    rewrite Hin. exact Hr.
Qed.

(** X8. A position counted from the end is recorded as it is given:
    [del s[i]] with a negative [i] still takes the right value out, but
    it writes the negative positions [i], [i + 1], ... into the map, from
    the value before the deleted one on.  That value is still contained,
    [index] answers -1 for it, and the invariant is lost. *)
Theorem delitem_negative_position (l1 l2 : list T) (x v : T) (d : dict T Z) :
  coherent (mkSet (l1 ++ x :: v :: l2) d) ->
  exists s',
    delitem (- (1 + len l2)) (mkSet (l1 ++ x :: v :: l2) d) = (Ok tt, s')
    /\ values s' = l1 ++ x :: l2
    /\ position s' x = Some (- (1 + len l2))
    /\ contains s' x = true
    /\ index s' x 0 None = -1
    /\ ~ coherent s'.
Proof.
  intros Hc.
  replace (l1 ++ x :: v :: l2) with ((l1 ++ [x]) ++ v :: l2) in *
    by (now rewrite <- app_assoc).
  pose proof (coherent_parts _ _ _ _ Hc)
    as (Hn1 & Hn2 & Hv1 & Hv2 & Hdis & Hdv & Hp1 & Hp2).
  pose proof Hc as (Hnd & Hk & Hlen & Hpos). cbn [values indexes] in *.
  destruct (dict_remove_keys d v Hk) as (Hk' & Hin' & Hget').
  assert (Hxv : x <> v).
  { intros ->. apply Hv1. apply in_or_app. right. now left. }
  assert (Hx2 : ~ In x l2).
  { apply Hdis. apply in_or_app. right. now left. }
  assert (Hnorm : norm_index ((l1 ++ [x]) ++ v :: l2) (- (1 + len l2))
                  = Some (List.length (l1 ++ [x]))).
  { unfold norm_index, len. rewrite !length_app. cbn [List.length].
    destruct (Z.ltb_spec (- (1 + Z.of_nat (List.length l2))) 0); [|lia].
    match goal with |- context [?a <=? ?b] => destruct (Z.leb_spec a b); [|lia] end.
    match goal with |- context [?a <? ?b] => destruct (Z.ltb_spec a b); [|lia] end.
    cbn [andb]. f_equal. lia. }
  assert (Hclamp : clamp_index ((l1 ++ [x]) ++ l2) (- (1 + len l2))
                   = List.length l1).
  { unfold clamp_index, len. rewrite !length_app. cbn [List.length].
    destruct (Z.ltb_spec (- (1 + Z.of_nat (List.length l2))) 0); lia. }
  unfold delitem, bind at 1, values_pop, list_pop. cbn [values indexes].
  rewrite fits_ssize_within
    by (rewrite !len_app; unfold len; cbn [List.length]; lia).
  rewrite Hnorm, nth_error_middle, firstn_middle, skipn_past_middle.
  unfold bind at 1, indexes_pop. cbn [values indexes]. rewrite Hdv.
  unfold bind at 1, gets. cbn [values indexes]. unfold slice_from.
  rewrite Hclamp. rewrite <- app_assoc. rewrite skipn_middle.
  rewrite for_each_indexes_set. cbn [values indexes app].
  destruct (fold_reindex (x :: l2) (- (1 + len l2)) (dict_remove d v))
    as (Hfk & Hfp & Hfo).
  { constructor; assumption. }
  { intros y Hy. rewrite Hget'.
    - destruct Hy as [<-|Hy].
      + rewrite (Hp1 (List.length l1) x); [discriminate|apply nth_error_middle].
      + destruct (In_nth_error _ _ Hy) as (j & Hj). rewrite (Hp2 _ _ Hj).
        discriminate.
    - destruct Hy as [<-|Hy]; [assumption|]. intros ->. contradiction. }
  cbn zeta in Hfk, Hfp, Hfo.
  pose proof (Hfp 0%nat x eq_refl) as Hx. rewrite Z.add_0_r in Hx.
  eexists. split; [reflexivity|]. cbn [values indexes].
  split; [reflexivity|]. split; [exact Hx|]. split; [|split].
  - unfold contains, dict_mem. cbn [indexes]. now rewrite Hx.
  - unfold index. cbn [indexes]. rewrite Hx. unfold len.
    destruct (Z.leb_spec 0 (- (1 + Z.of_nat (List.length l2)))); [lia|].
    now rewrite andb_false_r.
  - intros (_ & _ & _ & Hpos'). cbn [values indexes] in Hpos'.
    specialize (Hpos' (List.length l1) x (nth_error_middle _ _ _)).
    rewrite Hx in Hpos'. unfold len in Hpos'.
    assert (E : - (1 + Z.of_nat (List.length l2)) = Z.of_nat (List.length l1))
      by congruence.
    lia.
Qed.

(** X9. The same holds for [s[i] = new] with a negative [i]: the new
    value takes the right place in the list, and the map records the
    negative position for it. *)
Theorem setitem_negative_position (l1 l2 : list T) (old new : T) (d : dict T Z) :
  coherent (mkSet (l1 ++ old :: l2) d) ->
  ~ In new (l1 ++ old :: l2) ->
  exists s',
    setitem (- (1 + len l2)) new (mkSet (l1 ++ old :: l2) d) = (Ok tt, s')
    /\ values s' = l1 ++ new :: l2
    /\ position s' new = Some (- (1 + len l2))
    /\ contains s' new = true
    /\ index s' new 0 None = -1
    /\ ~ coherent s'.
Proof.
  intros Hc Hn.
  pose proof (coherent_parts _ _ _ _ Hc)
    as (Hn1 & Hn2 & Hv1 & Hv2 & Hdis & Hdv & Hp1 & Hp2).
  assert (Hne : new <> old).
  { intros ->. apply Hn. apply in_or_app. right. now left. }
  assert (Hnew : dict_get d new = None) by (apply (coherent_absent _ new Hc Hn)).
  assert (Hnorm : norm_index (l1 ++ old :: l2) (- (1 + len l2))
                  = Some (List.length l1)).
  { unfold norm_index, len. rewrite !length_app. cbn [List.length].
    destruct (Z.ltb_spec (- (1 + Z.of_nat (List.length l2))) 0); [|lia].
    match goal with |- context [?a <=? ?b] => destruct (Z.leb_spec a b); [|lia] end.
    match goal with |- context [?a <? ?b] => destruct (Z.ltb_spec a b); [|lia] end.
    cbn [andb]. f_equal. lia. }
  unfold setitem, bind at 1, values_get, list_getitem. cbn [values indexes].
  rewrite Hnorm, nth_error_middle, (py_eqb_neq _ _ Hne).
  unfold bind at 1, gets, contains, dict_mem. cbn [indexes]. rewrite Hnew.
  unfold bind at 1, indexes_pop. cbn [values indexes]. rewrite Hdv.
  unfold bind, values_set, list_setitem, indexes_set, modify. cbn [values indexes].
  rewrite Hnorm, firstn_middle, skipn_past_middle. cbn [values indexes].
  eexists. split; [reflexivity|]. cbn [values indexes].
  assert (Hx : dict_get (dict_set (dict_remove d old) new (- (1 + len l2))) new
               = Some (- (1 + len l2))) by apply dict_get_set_eq.
  split; [reflexivity|]. split; [exact Hx|]. split; [|split].
  - unfold contains, dict_mem. cbn [indexes]. now rewrite Hx.
  - unfold index. cbn [indexes]. rewrite Hx. unfold len.
    destruct (Z.leb_spec 0 (- (1 + Z.of_nat (List.length l2)))); [lia|].
    now rewrite andb_false_r.
  - intros (_ & _ & _ & Hpos'). cbn [values indexes] in Hpos'.
    specialize (Hpos' (List.length l1) new (nth_error_middle _ _ _)).
    rewrite Hx in Hpos'. unfold len in Hpos'.
    assert (E : - (1 + Z.of_nat (List.length l2)) = Z.of_nat (List.length l1))
      by congruence.
    lia.
Qed.

(** X10. Reading by position and [index] are inverse on a coherent
    set: the value at position [n] is read by [n] and by [n - len],
    and [index] gives [n] back for it; a position [index] returns
    holds the value and lies within the bounds asked for; a position
    outside the list raises [IndexError]. *)
Theorem getitem_index_round_trip (s : SequentialSet T) :
  coherent s ->
  (forall n v, nth_error (values s) n = Some v ->
               getitem s (Z.of_nat n) = Ok v
               /\ getitem s (Z.of_nat n - set_len s) = Ok v
               /\ (Z.of_nat n < 2 ^ 30 -> index s v 0 None = Z.of_nat n))
  /\ (forall v start stop p,
        index s v start stop = p -> p <> -1 ->
        getitem s p = Ok v /\ start <= p < real_stop stop)
  /\ (forall i, i < - set_len s \/ set_len s <= i ->
                getitem s i = Raise IndexError).
Proof.
  intros Hc. pose proof Hc as (Hnd & Hk & Hlen & Hpos). split; [|split].
  - intros n v Hn.
    assert (Hlt : (n < List.length (values s))%nat)
      by (apply nth_error_Some; congruence).
    split; [|split].
    + unfold getitem, list_getitem. now rewrite norm_index_nat, Hn.
    + unfold getitem, list_getitem, set_len, norm_index, len.
      destruct (Z.ltb_spec (Z.of_nat n - Z.of_nat (List.length (values s))) 0);
        [|lia].
      replace (Z.of_nat n - Z.of_nat (List.length (values s))
               + Z.of_nat (List.length (values s))) with (Z.of_nat n) by lia.
      destruct (Z.leb_spec 0 (Z.of_nat n)); [|lia].
      destruct (Z.ltb_spec (Z.of_nat n) (Z.of_nat (List.length (values s))));
        [|lia].
      cbn [andb]. now rewrite Nat2Z.id, Hn.
    + intros Hb. unfold index. rewrite (Hpos _ _ Hn).
      destruct (Z.eqb_spec (Z.of_nat n) (-1)); [lia|].
      destruct (Z.leb_spec 0 (Z.of_nat n)); [|lia].
      destruct (Z.ltb_spec (Z.of_nat n) (2 ^ 30)); [|lia]. reflexivity.
  - intros v start stop p Hi Hp. unfold index in Hi.
    fold (real_stop stop) in Hi.
    destruct (dict_get (indexes s) v) as [z|] eqn:Hz.
    + destruct (Z.eqb_spec z (-1)); cbn [negb andb] in Hi; [congruence|].
      destruct (Z.leb_spec start z); cbn [andb] in Hi; [|congruence].
      destruct (Z.ltb_spec z (real_stop stop)); [|congruence]. subst p.
      destruct (coherent_position s v z Hc Hz) as (Hz0 & Hnth).
      split; [|lia].
      assert (Hlt : (Z.to_nat z < List.length (values s))%nat)
        by (apply nth_error_Some; congruence).
      unfold getitem, list_getitem.
      rewrite <- (Z2Nat.id z Hz0). now rewrite norm_index_nat, Hnth.
    + rewrite Z.eqb_refl in Hi. cbn [negb andb] in Hi. congruence.
  - intros i Hi. unfold getitem, list_getitem, set_len in *.
    now rewrite norm_index_out.
Qed.
End Mutators.

Lemma delitem_shifts_left_witness :
  (exists s',
     delitem (len ["a"]) (init ["a"; "b"; "c"; "d"]) = (Ok tt, s')
     /\ values s' = ["a"] ++ ["c"; "d"]
     /\ coherent s'
     /\ contains s' "b" = false
     /\ (forall j x, nth_error ["c"; "d"] j = Some x ->
                     position s' x = Some (len ["a"] + Z.of_nat j)))
  /\ delitem 4 (init ["a"; "b"; "c"; "d"])
     = (Raise IndexError, init ["a"; "b"; "c"; "d"])
  /\ delitem (2 ^ 64) (init ["a"; "b"; "c"; "d"])
     = (Raise OverflowError, init ["a"; "b"; "c"; "d"]).
Proof.
  assert (Hc : coherent (mkSet (["a"] ++ "b" :: ["c"; "d"])
                               (indexes (init ["a"; "b"; "c"; "d"]))))
    by exact (init_coherent ["a"; "b"; "c"; "d"]).
  destruct (delitem_shifts_left ["a"] ["c"; "d"] "b"
              (indexes (init ["a"; "b"; "c"; "d"])) Hc) as (H1 & H2 & H3).
  split; [exact H1|]. split.
  - apply (H2 4); [right; vm_compute; discriminate|].
    split; [vm_compute; discriminate|reflexivity].
  - apply (H3 ltac:(reflexivity) (2 ^ 64)). right. vm_compute. discriminate.
Defined.

Lemma setitem_replaces_witness :
  exists s',
    setitem (len ["a"]) "z" (init ["a"; "b"; "c"]) = (Ok tt, s')
    /\ values s' = ["a"] ++ "z" :: ["c"]
    /\ coherent s'
    /\ contains s' "b" = false
    /\ position s' "z" = Some (len ["a"]).
Proof.
  refine (proj1 (proj2 (proj2
            (setitem_replaces ["a"] ["c"] "b" "z" (indexes (init ["a"; "b"; "c"]))
               (init_coherent ["a"; "b"; "c"])))) _).
  simpl. intros [E|[E|[E|[]]]]; discriminate.
Defined.

Lemma insert_shifts_right_witness :
  exists s',
    insert (len ["a"]) "z" (init ["a"; "b"; "c"]) = (Ok tt, s')
    /\ values s' = ["a"] ++ "z" :: ["b"; "c"]
    /\ coherent s'
    /\ (forall j x, nth_error ["b"; "c"] j = Some x ->
                    position s' x = Some (len ["a"] + 1 + Z.of_nat j)).
Proof.
  refine (proj2 (insert_shifts_right ["a"] ["b"; "c"] "z"
                   (indexes (init ["a"; "b"; "c"]))
                   (init_coherent ["a"; "b"; "c"])) _).
  simpl. intros [E|[E|[E|[]]]]; discriminate.
Defined.

Lemma remove_swaps_last_witness :
  exists s',
    remove "a" (init ["a"; "b"; "c"]) = (Ok tt, s')
    /\ discard "a" (init ["a"; "b"; "c"]) = (Ok tt, s')
    /\ coherent s'
    /\ values s' = ["c"; "b"]
    /\ contains s' "a" = false.
Proof.
  exact (proj2 (remove_swaps_last (init ["a"; "b"; "c"]) "a"
                  (init_coherent ["a"; "b"; "c"]))
               ["a"; "b"] "c" 0%nat eq_refl eq_refl).
Defined.

Lemma delitem_negative_position_witness :
  exists s',
    delitem (- (1 + len ["d"])) (init ["a"; "b"; "c"; "d"]) = (Ok tt, s')
    /\ values s' = ["a"] ++ "b" :: ["d"]
    /\ position s' "b" = Some (- (1 + len ["d"]))
    /\ contains s' "b" = true
    /\ index s' "b" 0 None = -1
    /\ ~ coherent s'.
Proof.
  apply (delitem_negative_position ["a"] ["d"] "b" "c"
           (indexes (init ["a"; "b"; "c"; "d"]))).
  exact (init_coherent ["a"; "b"; "c"; "d"]).
Defined.

Lemma setitem_negative_position_witness :
  exists s',
    setitem (- (1 + len ["c"])) "z" (init ["a"; "b"; "c"]) = (Ok tt, s')
    /\ values s' = ["a"] ++ "z" :: ["c"]
    /\ position s' "z" = Some (- (1 + len ["c"]))
    /\ contains s' "z" = true
    /\ index s' "z" 0 None = -1
    /\ ~ coherent s'.
Proof.
  apply (setitem_negative_position ["a"] ["c"] "b" "z"
           (indexes (init ["a"; "b"; "c"]))).
  - exact (init_coherent ["a"; "b"; "c"]).
  - simpl. intros [E|[E|[E|[]]]]; discriminate.
Defined.

Lemma getitem_index_round_trip_witness :
  getitem (init ["a"; "b"; "c"]) (Z.of_nat 1) = Ok "b"
  /\ getitem (init ["a"; "b"; "c"]) (Z.of_nat 1 - set_len (init ["a"; "b"; "c"]))
     = Ok "b"
  /\ (Z.of_nat 1 < 2 ^ 30 -> index (init ["a"; "b"; "c"]) "b" 0 None = Z.of_nat 1).
Proof.
  exact (proj1 (getitem_index_round_trip (init ["a"; "b"; "c"])
                  (init_coherent ["a"; "b"; "c"]))
               1%nat "b" eq_refl).
Defined.
End SetMutators.

(** ** Equality, hashing and the guards of the hashable sets *)

Module HashFacts.
Import SequentialSets SetSpec SetFacts.

Section Hashing.
Context {T : Type} `{PyEqLeibniz T}.
Lemma forallb_contains (a : list T) (b : SequentialSet T) :
  coherent b ->
  forallb (contains b) a = true <-> incl a (values b).
Proof.
  intros Hb. rewrite forallb_forall. unfold incl.
  split; intros Hall x Hx; apply (contains_iff b x Hb); now apply Hall.
Qed.

Lemma dyn_eqb_iff (a b : DynSet T) :
  coherent (base a) -> coherent (base b) ->
  (dyn_eqb a b = true <-> forall x, In x (dyn_iter a) <-> In x (dyn_iter b)).
Proof.
  intros Ha Hb. unfold dyn_eqb.
  rewrite andb_true_iff, Z.eqb_eq.
  unfold dyn_contains, dyn_iter, len.
  rewrite (forallb_contains (values (base a)) (base b) Hb).
  destruct Ha as (Hna & _). destruct Hb as (Hnb & _). split.
  - intros (Hlen & Hinc) x. split; [apply Hinc|].
    apply (NoDup_length_incl Hna); [lia|exact Hinc].
  - intros Hsame. split.
    + assert (List.length (values (base a)) <= List.length (values (base b)))%nat
        by (apply NoDup_incl_length; [assumption|intros x; apply Hsame]).
      assert (List.length (values (base b)) <= List.length (values (base a)))%nat
        by (apply NoDup_incl_length; [assumption|intros x; apply Hsame]).
      lia.
    + intros x. apply Hsame.
Qed.

(** X11. [==] between two coherent sets holds exactly when they have
    the same elements: the order of the values and the [hash] slot do
    not count.  It is reflexive and symmetric. *)
Theorem dyn_eqb_same_elements (a b : DynSet T) :
  coherent (base a) -> coherent (base b) ->
  (dyn_eqb a b = true <-> forall x, In x (dyn_iter a) <-> In x (dyn_iter b))
  /\ dyn_eqb a b = dyn_eqb b a
  /\ dyn_eqb a a = true.
Proof.
  intros Ha Hb. split; [now apply dyn_eqb_iff|]. split.
  - destruct (dyn_eqb a b) eqn:E1; destruct (dyn_eqb b a) eqn:E2; try reflexivity.
    + pose proof (proj1 (dyn_eqb_iff a b Ha Hb) E1) as S1.
      assert (dyn_eqb b a = true)
        by (apply (dyn_eqb_iff b a Hb Ha); intros x; symmetry; apply S1).
      congruence.
    + pose proof (proj1 (dyn_eqb_iff b a Hb Ha) E2) as S2.
      assert (dyn_eqb a b = true)
        by (apply (dyn_eqb_iff a b Ha Hb); intros x; symmetry; apply S2).
      congruence.
  - apply (dyn_eqb_iff a a Ha Ha). tauto.
Qed.

Variable hash_of : T -> Z.

Lemma sum_from (l : list T) : forall a,
  fold_left (fun acc x => acc + hash_of x) l a
  = a + fold_left (fun acc x => acc + hash_of x) l 0.
Proof.
  induction l as [|x l IH]; intros a; simpl; [lia|].
  rewrite (IH (a + hash_of x)), (IH (hash_of x)). lia.
Qed.

Lemma sum_hashes_cons (x : T) (l : list T) :
  sum_hashes hash_of (x :: l) = hash_of x + sum_hashes hash_of l.
Proof. unfold sum_hashes. simpl. now rewrite sum_from. Qed.

Lemma sum_hashes_Permutation (l l' : list T) :
  Permutation l l' -> sum_hashes hash_of l = sum_hashes hash_of l'.
Proof.
  induction 1 as [|x l l' _ IH|x y l|l l' l'' _ IH1 _ IH2].
  - reflexivity.
  - rewrite !sum_hashes_cons. lia.
  - rewrite !sum_hashes_cons. lia.
  - congruence.
Qed.

(** X12. Hashing agrees with [==]: the first call of [__hash__] gives
    the sum of the hashes of the elements and stores it, later calls
    return the stored number, the contents never change; and two
    coherent sets not hashed before that are [==] get the same hash,
    whatever the order of their values. *)
Theorem equal_sets_hash_equal (a b : DynSet T) :
  coherent (base a) -> coherent (base b) ->
  hash a = None -> hash b = None ->
  dyn_eqb a b = true ->
  exists h a' b',
    dyn_hash hash_of a = (Ok h, a') /\ dyn_hash hash_of b = (Ok h, b')
    /\ h = sum_hashes hash_of (dyn_iter a)
    /\ base a' = base a /\ base b' = base b
    /\ dyn_hash hash_of a' = (Ok h, a')
    /\ dyn_eqb a' b' = true.
Proof.
  intros Ha Hb Hha Hhb E.
  pose proof (proj1 (dyn_eqb_iff a b Ha Hb) E) as Hsame.
  assert (Hperm : Permutation (dyn_iter a) (dyn_iter b)).
  { apply NoDup_Permutation; [apply Ha|apply Hb|exact Hsame]. }
  unfold dyn_hash. rewrite Hha, Hhb. cbn zeta. unfold dyn_iter in *.
  rewrite <- (sum_hashes_Permutation _ _ Hperm).
  do 3 eexists. split; [reflexivity|]. split; [reflexivity|].
  split; [reflexivity|]. split; [reflexivity|]. split; [reflexivity|].
  split; [reflexivity|]. exact E.
Qed.

(** X13. Once a [DynSet] has been hashed, [del], [insert], [add],
    [push] and [remove] raise [ValueError] and leave it as it was,
    also when the call would change nothing; so does [update] with a
    first value and [discard] of a contained value, while [discard] of
    a missing value and [update] with nothing succeed.  The hash stays
    the same. *)
Theorem hashed_dynset_is_closed (s0 : DynSet T) :
  let s := snd (dyn_hash hash_of s0) in
  let failed {A} : outcome A * DynSet T :=
    (Raise (ValueError ProhibitedToModify), s) in
  (forall i, dyn_delitem i s = failed)
  /\ (forall i v, dyn_insert i v s = failed)
  /\ (forall v, dyn_add v s = failed)
  /\ (forall v, dyn_push v s = failed)
  /\ (forall v, dyn_remove v s = failed)
  /\ (forall v l, dyn_update (v :: l) s = failed)
  /\ (forall v, dyn_contains s v = true -> dyn_discard v s = failed)
  /\ (forall v, dyn_contains s v = false -> dyn_discard v s = (Ok tt, s))
  /\ dyn_update [] s = (Ok tt, s)
  /\ dyn_hash hash_of s = (fst (dyn_hash hash_of s0), s)
  /\ dyn_iter s = dyn_iter s0.
Proof.
  cbn zeta.
  pose proof (dyn_hash_freezes hash_of s0) as Hf.
  destruct (frozen_mutators_fail (snd (dyn_hash hash_of s0)) Hf)
    as (H1 & H2 & H3 & H4 & H5 & H6).
  repeat (split; [assumption|]).
  split; [|split; [|split; [|split; [|split]]]].
  - intros v l. unfold dyn_update. cbn [for_each]. unfold bind at 1.
    now rewrite H3.
  - exact H6.
  - intros v Hv. unfold dyn_discard, bind, gets.
    unfold dyn_contains in Hv. now rewrite Hv.
  - reflexivity.
  - destruct s0 as [b [h|]]; reflexivity.
  - destruct s0 as [b [h|]]; reflexivity.
Qed.
End Hashing.

Lemma hashed_dynset_is_closed_witness :
  let s := snd (dyn_hash (fun x : Z => x) (dyn_init [1; 2])) in
  dyn_add 1 s = (Raise (ValueError ProhibitedToModify), s)
  /\ dyn_push 2 s = (Raise (ValueError ProhibitedToModify), s)
  /\ dyn_discard 3 s = (Ok tt, s)
  /\ dyn_hash (fun x : Z => x) s = (Ok 3, s).
Proof.
  destruct (hashed_dynset_is_closed (fun x : Z => x) (dyn_init [1; 2]))
    as (_ & _ & Hadd & Hpush & _ & _ & _ & Hdis & _ & Hhash & _).
  split; [apply Hadd|]. split; [apply Hpush|]. split; [|exact Hhash].
  apply Hdis. reflexivity.
Defined.

Lemma dyn_eqb_same_elements_witness :
  dyn_eqb (dyn_init ["a"; "b"; "c"]) (dyn_init ["c"; "a"; "b"; "a"]) = true.
Proof.
  apply (proj1 (dyn_eqb_same_elements (dyn_init ["a"; "b"; "c"])
                  (dyn_init ["c"; "a"; "b"; "a"])
                  (init_coherent _) (init_coherent _))).
  intros x. unfold dyn_iter. cbn. tauto.
Defined.

Lemma equal_sets_hash_equal_witness :
  exists h a' b',
    dyn_hash (fun x : Z => x * x) (dyn_init [1; 2; 3]) = (Ok h, a')
    /\ dyn_hash (fun x : Z => x * x) (dyn_init [3; 1; 2]) = (Ok h, b')
    /\ h = sum_hashes (fun x : Z => x * x) (dyn_iter (dyn_init [1; 2; 3]))
    /\ base a' = base (dyn_init [1; 2; 3])
    /\ base b' = base (dyn_init [3; 1; 2])
    /\ dyn_hash (fun x : Z => x * x) a' = (Ok h, a')
    /\ dyn_eqb a' b' = true.
Proof.
  apply (equal_sets_hash_equal (fun x : Z => x * x)
           (dyn_init [1; 2; 3]) (dyn_init [3; 1; 2])
           (init_coherent _) (init_coherent _)); reflexivity.
Defined.
End HashFacts.

(** ** MutableOrHashableSequentialSet *)

Module MohFacts.
Import SequentialSets SetSpec SetFacts.

Section Moh.
Context {T : Type} `{PyEqLeibniz T}.

Lemma for_each_ext {S A} (f g : A -> M S unit) (l : list A) :
  (forall x s, f x s = g x s) -> forall s, for_each l f s = for_each l g s.
Proof.
  intros E. induction l as [|x l IH]; intros s; [reflexivity|].
  cbn [for_each]. unfold bind. rewrite E.
  destruct (g x s) as [[[]| |] s1]; [apply IH|reflexivity|reflexivity].
Qed.

Lemma for_each_on_slots {A} (f : A -> M (SequentialSet T) unit) (l : list A) :
  forall b h,
    for_each l (fun x => on_slots (f x)) (mkMoh b h)
    = on_slots (for_each l f) (mkMoh b h).
Proof.
  induction l as [|x l IH]; intros b h; [reflexivity|].
  cbn [for_each]. unfold bind, on_slots at 1 3. cbn [moh_base moh_slot_hash].
  destruct (f x b) as [[[]| |] b1]; [|reflexivity|reflexivity].
  rewrite IH. reflexivity.
Qed.

Lemma for_each_reindex_on_slots (l : list (Z * T)) (b : SequentialSet T) h :
  for_each l (fun '(i, v) => on_slots (indexes_set v i)) (mkMoh b h)
  = on_slots (for_each l (fun '(i, v) => indexes_set v i)) (mkMoh b h).
Proof.
  rewrite <- for_each_on_slots. apply for_each_ext. now intros [i v] s.
Qed.

Lemma moh_add_unhashed (v : T) (b : SequentialSet T) :
  moh_add v (mkMoh b None) = on_slots (add v) (mkMoh b None).
Proof.
  unfold moh_add, add, bind, gets, on_slots, moh_check.
  cbn [moh_base moh_slot_hash]. destruct (contains b v); reflexivity.
Qed.

(** X14. As long as it has not been hashed, a
    [MutableOrHashableSequentialSet] behaves as a
    [MutableSequentialSet] does: each of its mutators gives the result
    and the contents that the method of the same name of the mutable
    class gives, and the set stays unhashed. *)
Theorem unhashed_moh_is_mutable (b : SequentialSet T) :
  let s := mkMoh b None in
  (forall i, moh_delitem i s = on_slots (delitem i) s)
  /\ (forall i v, moh_setitem i v s = on_slots (setitem i v) s)
  /\ (forall i v, moh_insert i v s = on_slots (insert i v) s)
  /\ (forall v, moh_add v s = on_slots (add v) s)
  /\ (forall v, moh_push v s = on_slots (push v) s)
  /\ (forall v, moh_remove v s = on_slots (remove v) s)
  /\ (forall v, moh_discard v s = on_slots (discard v) s)
  /\ (forall l, moh_update l s = on_slots (update l) s)
  /\ (forall A (m : M (SequentialSet T) A),
        moh_slot_hash (snd (on_slots m s)) = None).
Proof.
  cbn zeta.
  assert (Hrem : forall (v : T) (b : SequentialSet T), moh_remove v (mkMoh b None)
                             = on_slots (remove v) (mkMoh b None)).
  { intros v b0. unfold moh_remove, remove, bind, gets, on_slots, moh_check.
    cbn [moh_base moh_slot_hash].
    destruct (indexes_pop v b0) as [[z| |] b1]; cbn [moh_base moh_slot_hash];
      try reflexivity.
    destruct (values_pop (-1) b1) as [[f| |] b2]; cbn [moh_base moh_slot_hash];
      try reflexivity.
    destruct (z <? len (indexes b2)); [|reflexivity].
    cbn [moh_base moh_slot_hash].
    destruct (values_set z f b2) as [[[]| |] b3]; reflexivity. }
  split; [|split; [|split; [|split; [|split; [|split; [|split; [|split]]]]]]].
  - intros i. unfold moh_delitem, delitem.
    match goal with |- context [for_each _ ?f] => set (F := f) end.
    match goal with |- context [for_each _ ?f] => set (G := f) end.
    unfold bind, on_slots, moh_check, gets. cbn [moh_base moh_slot_hash].
    destruct (values_pop i b) as [[x| |] b1]; cbn [moh_base moh_slot_hash];
      try reflexivity.
    destruct (indexes_pop x b1) as [[z| |] b2]; cbn [moh_base moh_slot_hash];
      try reflexivity.
    subst F G. rewrite for_each_reindex_on_slots. reflexivity.
  - intros i v. unfold moh_setitem, setitem, bind, gets, on_slots, moh_check,
      values_get, raise, ret.
    cbn [moh_base moh_slot_hash].
    destruct (list_getitem (values b) i) as [old| |]; try reflexivity.
    destruct (py_eqb v old); [reflexivity|]. cbn [moh_base moh_slot_hash].
    destruct (contains b v); [reflexivity|]. cbn [moh_base moh_slot_hash].
    destruct (indexes_pop old b) as [[z| |] b1]; cbn [moh_base moh_slot_hash];
      try reflexivity.
    destruct (values_set i v b1) as [[[]| |] b2]; cbn [moh_base moh_slot_hash];
      reflexivity.
  - intros i v. unfold moh_insert, insert.
    match goal with |- context [for_each _ ?f] => set (F := f) end.
    match goal with |- context [for_each _ ?f] => set (G := f) end.
    unfold bind, on_slots, moh_check, gets, raise. cbn [moh_base moh_slot_hash].
    destruct (contains b v); [reflexivity|].
    unfold values_insert. cbn [moh_base moh_slot_hash].
    destruct (list_insert (values b) i v) as [l| |];
      cbn [moh_base moh_slot_hash]; try reflexivity.
    subst F G. rewrite for_each_reindex_on_slots. reflexivity.
  - intros v. apply moh_add_unhashed.
  - intros v. unfold moh_push, push, bind, gets, on_slots, moh_check, ret.
    cbn [moh_base moh_slot_hash].
    destruct (_ =? _); reflexivity.
  - intros v. apply Hrem.
  - intros v. unfold moh_discard, discard. unfold on_slots at 1.
    unfold bind, gets. cbn [moh_base moh_slot_hash].
    destruct (contains b v).
    + rewrite Hrem. reflexivity.
    + reflexivity.
  - intros l. unfold moh_update, update. rewrite <- for_each_on_slots.
    revert b. induction l as [|x l IH]; intros b; [reflexivity|].
    cbn [for_each]. unfold bind. rewrite moh_add_unhashed.
    destruct (on_slots (add x) (mkMoh b None)) as [r s1] eqn:E.
    unfold on_slots in E. cbn [moh_base moh_slot_hash] in E.
    destruct (add x b) as [r' b1]. inversion E; subst.
    destruct r as [[]| |]; [apply IH|reflexivity|reflexivity].
  - intros A m. unfold on_slots. cbn [moh_base moh_slot_hash].
    now destruct (m b).
Qed.

(** X15. Once hashed, a [MutableOrHashableSequentialSet] refuses only
    the calls that would change it: [del], [insert] and [remove]
    always raise [ValueError]; [add], [push] and [discard] raise for a
    value that would be added or removed and succeed, changing nothing,
    otherwise; [s[i] = v] succeeds for the value already at [i], and
    names the duplicate before it names the hash.  The set is left as
    it was in every case. *)
Theorem hashed_moh_refuses_changes (b : SequentialSet T) (h : Z) :
  coherent b ->
  let s := mkMoh b (Some h) in
  let failed {A} : outcome A * MutableOrHashableSequentialSet T :=
    (Raise (ValueError ProhibitedToModify), s) in
  (forall i, moh_delitem i s = failed)
  /\ (forall i v, moh_insert i v s = failed)
  /\ (forall v, moh_remove v s = failed)
  /\ (forall v, In v (values b) ->
                moh_add v s = (Ok tt, s) /\ moh_discard v s = failed)
  /\ (forall v, ~ In v (values b) ->
                moh_add v s = failed /\ moh_push v s = failed
                /\ moh_discard v s = (Ok tt, s))
  /\ (forall p v, nth_error (values b) p = Some v ->
                  moh_push v s = (Ok (Z.of_nat p), s)
                  /\ moh_setitem (Z.of_nat p) v s = (Ok tt, s)
                  /\ (forall new, new <> v -> In new (values b) ->
                        moh_setitem (Z.of_nat p) new s
                        = (Raise (ValueError AlreadyAtDifferentIndex), s))
                  /\ (forall new, ~ In new (values b) ->
                        moh_setitem (Z.of_nat p) new s = failed))
  /\ (forall l, Forall (fun v => In v (values b)) l ->
                moh_update l s = (Ok tt, s)).
Proof.
  intros Hc. cbn zeta. pose proof Hc as (Hnd & Hk & Hlen & Hpos).
  assert (Hadd : forall v, In v (values b) ->
            moh_add v (mkMoh b (Some h)) = (Ok tt, mkMoh b (Some h))).
  { intros v Hin. unfold moh_add, bind, gets. cbn [moh_base].
    apply (contains_iff b v Hc) in Hin. now rewrite Hin. }
  split; [reflexivity|]. split; [reflexivity|]. split; [reflexivity|].
  split; [|split; [|split]].
  - intros v Hin. split; [now apply Hadd|].
    unfold moh_discard, bind, gets. cbn [moh_base].
    apply (contains_iff b v Hc) in Hin. now rewrite Hin.
  - intros v Hn. pose proof (coherent_absent b v Hc Hn) as Hd.
    assert (Hcn : contains b v = false) by (unfold contains, dict_mem; now rewrite Hd).
    split; [|split].
    + unfold moh_add, bind, gets. cbn [moh_base]. now rewrite Hcn.
    + unfold moh_push, bind, gets. cbn [moh_base]. rewrite Hd.
      unfold len. rewrite Hlen, Z.eqb_refl. reflexivity.
    + unfold moh_discard, bind, gets. cbn [moh_base]. now rewrite Hcn.
  - intros p v Hp.
    assert (Hlt : (p < List.length (values b))%nat)
      by (apply nth_error_Some; congruence).
    assert (Hget : forall x, moh_setitem (Z.of_nat p) x (mkMoh b (Some h))
              = (if py_eqb x v then ret tt
                 else present <- gets (fun s => contains (moh_base s) x) ;;
                      if (present : bool)
                      then raise (ValueError AlreadyAtDifferentIndex)
                      else moh_check ;;;
                           on_slots (indexes_pop v) ;;;
                           on_slots (values_set (Z.of_nat p) x) ;;;
                           on_slots (indexes_set x (Z.of_nat p)))
                  (mkMoh b (Some h))).
    { intros x. unfold moh_setitem, bind at 1, on_slots at 1, values_get,
        list_getitem. cbn [moh_base moh_slot_hash].
      now rewrite norm_index_nat, Hp. }
    split; [|split; [|split]].
    + unfold moh_push, bind, gets, ret. cbn [moh_base]. rewrite (Hpos _ _ Hp).
      unfold len. destruct (Z.eqb_spec (Z.of_nat p) (Z.of_nat (List.length (values b))));
        [lia|reflexivity].
    + rewrite Hget, py_eqb_refl. reflexivity.
    + intros new Hne Hin. rewrite Hget, (py_eqb_neq _ _ Hne).
      unfold bind, gets. cbn [moh_base].
      apply (contains_iff b new Hc) in Hin. now rewrite Hin.
    + intros new Hn.
      assert (Hne : new <> v).
      { intros ->. apply Hn. eapply nth_error_In; eauto. }
      pose proof (coherent_absent b new Hc Hn) as Hd.
      rewrite Hget, (py_eqb_neq _ _ Hne).
      unfold bind, gets, contains, dict_mem. cbn [moh_base]. now rewrite Hd.
  - intros l Hall. unfold moh_update.
    induction Hall as [|x l Hx _ IH]; [reflexivity|].
    cbn [for_each]. unfold bind. rewrite (Hadd x Hx). exact IH.
Qed.
End Moh.

Lemma unhashed_moh_is_mutable_witness :
  moh_remove "a" (moh_init ["a"; "b"; "c"])
  = on_slots (remove "a") (moh_init ["a"; "b"; "c"])
  /\ moh_update ["c"; "d"] (moh_init ["a"; "b"; "c"])
     = on_slots (update ["c"; "d"]) (moh_init ["a"; "b"; "c"]).
Proof.
  destruct (unhashed_moh_is_mutable (init ["a"; "b"; "c"]))
    as (_ & _ & _ & _ & _ & Hrem & _ & Hupd & _).
  split; [apply Hrem|apply Hupd].
Defined.

Lemma hashed_moh_refuses_changes_witness :
  moh_add "a" (mkMoh (init ["a"; "b"]) (Some 7)) = (Ok tt, mkMoh (init ["a"; "b"]) (Some 7))
  /\ moh_discard "a" (mkMoh (init ["a"; "b"]) (Some 7))
     = (Raise (ValueError ProhibitedToModify), mkMoh (init ["a"; "b"]) (Some 7)).
Proof.
  refine (proj1 (proj2 (proj2 (proj2
            (hashed_moh_refuses_changes (init ["a"; "b"]) 7 (init_coherent _)))))
            "a" _).
  simpl. now left.
Defined.
End MohFacts.

(** ** The built-in scanners *)

Module TokenFacts.
Import TokenParsers TokenSpec SyntaxSpec SetFacts SetMutators.

Lemma str_getitem_in_range (source : string) (i : Z) :
  0 <= i < str_len source -> exists c, str_getitem source i = Ok c.
Proof.
  intros Hi. unfold str_getitem, list_getitem, str_len, len in *.
  rewrite <- (Z2Nat.id i) by lia.
  rewrite norm_index_nat by lia.
  destruct (nth_error (chars source) (Z.to_nat i)) as [c|] eqn:E; [now exists c|].
  apply nth_error_None in E. lia.
Qed.

Lemma skip_while_run (blank : ascii -> bool) (source : string) (offset : Z) :
  0 <= offset ->
  forall (fuel : nat) (spaces : Z),
    0 <= spaces ->
    str_len source - (offset + spaces) <= Z.of_nat fuel ->
    (forall k, 0 <= k < spaces ->
               exists c, str_getitem source (offset + k) = Ok c /\ blank c = true) ->
    exists n, skip_while blank source offset fuel spaces = Ok n
              /\ spaces <= n /\ blank_run blank source offset n.
Proof.
  intros Ho fuel. induction fuel as [|fuel IH]; intros spaces Hs Hf Hb.
  - cbn [skip_while].
    destruct (Z.ltb_spec (offset + spaces) (str_len source)) as [Hlt|Hge]; [lia|].
    exists spaces. split; [reflexivity|]. split; [lia|].
    split; [assumption|]. split; [assumption|lia].
  - cbn [skip_while].
    destruct (Z.ltb_spec (offset + spaces) (str_len source)) as [Hlt|Hge].
    + destruct (str_getitem_in_range source (offset + spaces)) as (c & Hc); [lia|].
      rewrite Hc. cbn [obind]. destruct (blank c) eqn:Ec.
      * destruct (IH (spaces + 1)) as (n & Hn & Hle & Hrun); [lia|lia| |].
        { intros k Hk. destruct (Z.eq_dec k spaces) as [->|Hne].
          - now exists c.
          - apply Hb. lia. }
        exists n. split; [exact Hn|]. split; [lia|exact Hrun].
      * exists spaces. split; [reflexivity|]. split; [lia|].
        split; [assumption|]. split; [assumption|]. intros _. now exists c.
    + exists spaces. split; [reflexivity|]. split; [lia|].
      split; [assumption|]. split; [assumption|lia].
Qed.

Lemma blank_run_bound (blank : ascii -> bool) (source : string) (offset n : Z) :
  0 <= offset -> blank_run blank source offset n ->
  n = 0 \/ offset + n <= str_len source.
Proof.
  intros Ho (Hn & Hall & _). destruct (Z.eq_dec n 0) as [->|Hne]; [now left|right].
  destruct (Hall (n - 1)) as (c & Hc & _); [lia|].
  unfold str_getitem, list_getitem, norm_index, str_len in *.
  destruct (Z.ltb_spec (offset + (n - 1)) 0); [lia|].
  destruct (Z.leb_spec 0 (offset + (n - 1))); [|lia].
  destruct (Z.ltb_spec (offset + (n - 1)) (len (chars source))); [lia|].
  discriminate.
Qed.

(** X16. At an offset that is not negative [ignore_spaces] and
    [ignore_spaces_and_newlines] always return: the length of the
    longest run of blanks (spaces and tabs; for the second also
    newlines) that starts at the offset, which is 0 at or behind the
    end of the source.  The run never leaves the source, and the second
    scanner consumes at least as much as the first. *)
Theorem ignore_spaces_longest_run (source : string) (offset : Z) :
  0 <= offset ->
  exists n m,
    ignore_spaces source offset = Ok n
    /\ ignore_spaces_and_newlines source offset = Ok m
    /\ blank_run space_or_tab source offset n
    /\ blank_run space_tab_or_newline source offset m
    /\ (n = 0 \/ offset + n <= str_len source)
    /\ n <= m
    /\ (str_len source <= offset -> m = 0).
Proof.
  intros Ho.
  destruct (skip_while_run space_or_tab source offset Ho
              (Z.to_nat (str_len source - offset)) 0)
    as (n & Hn & _ & Hrn); [lia|lia|intros k Hk; lia|].
  destruct (skip_while_run space_tab_or_newline source offset Ho
              (Z.to_nat (str_len source - offset)) 0)
    as (m & Hm & _ & Hrm); [lia|lia|intros k Hk; lia|].
  exists n, m. split; [exact Hn|]. split; [exact Hm|].
  split; [exact Hrn|]. split; [exact Hrm|].
  pose proof (blank_run_bound _ _ _ _ Ho Hrn) as Hbn.
  pose proof (blank_run_bound _ _ _ _ Ho Hrm) as Hbm.
  split; [exact Hbn|]. split.
  - destruct (Z.le_gt_cases n m) as [Hle|Hgt]; [assumption|exfalso].
    destruct Hrn as (_ & Halln & _). destruct Hrm as (Hm0 & _ & Hstop).
    destruct (Halln m) as (c & Hc & Hbc); [lia|].
    destruct Hstop as (c' & Hc' & Hbc'); [lia|].
    rewrite Hc in Hc'. inversion Hc'; subst c'.
    unfold space_or_tab, space_tab_or_newline in *.
    rewrite Hbc in Hbc'. discriminate.
  - intros Hend. destruct Hbm as [->|Hb]; [reflexivity|]. destruct Hrm. lia.
Qed.

Lemma ignore_spaces_longest_run_witness :
  let source := ("a " ++ String "009" (String "010" " b"))%string in
  exists n m,
    ignore_spaces source 1 = Ok n
    /\ ignore_spaces_and_newlines source 1 = Ok m
    /\ blank_run space_or_tab source 1 n
    /\ blank_run space_tab_or_newline source 1 m
    /\ (n = 0 \/ 1 + n <= str_len source)
    /\ n <= m
    /\ (str_len source <= 1 -> m = 0).
Proof.
  apply (ignore_spaces_longest_run ("a " ++ String "009" (String "010" " b")) 1).
  lia.
Defined.

Lemma chars_str (l : list ascii) : chars (str l) = l.
Proof. apply list_ascii_of_string_of_list_ascii. Qed.

Lemma str_eqb_chars (l : list ascii) (s : string) :
  String.eqb (str l) s = true <-> l = chars s.
Proof.
  rewrite String.eqb_eq. split.
  - intros <-. now rewrite chars_str.
  - intros ->. apply string_of_list_ascii_of_string.
Qed.

Lemma is_prefix_firstn (p l : list ascii) :
  is_prefix p l = true <-> firstn (List.length p) l = p.
Proof.
  revert l. induction p as [|x p IH]; intros l; simpl; [tauto|].
  destruct l as [|y l]; [split; discriminate|].
  rewrite andb_true_iff, Ascii.eqb_eq, IH. split.
  - intros [-> ->]. reflexivity.
  - intros E. inversion E. repeat split; congruence.
Qed.

Lemma slice_is_firstn_skipn {A} (l : list A) (o k : nat) :
  skipn (Nat.min o (List.length l)) (firstn (Nat.min (o + k) (List.length l)) l)
  = firstn k (skipn o l).
Proof.
  assert (Hf : firstn (Nat.min (o + k) (List.length l)) l = firstn (o + k) l).
  { destruct (Nat.le_gt_cases (o + k) (List.length l)).
    - now rewrite Nat.min_l.
    - rewrite Nat.min_r by lia. rewrite firstn_all. symmetry.
      apply firstn_all2. lia. }
  rewrite Hf. destruct (Nat.le_gt_cases o (List.length l)).
  - rewrite Nat.min_l by assumption. symmetry. apply firstn_skipn_comm.
  - rewrite Nat.min_r by lia.
    rewrite (skipn_all2 (n := o)) by lia. rewrite firstn_nil.
    apply skipn_all2. rewrite length_firstn. lia.
Qed.

Lemma keyword_parser_unfold (keyword source : string) (offset : Z) :
  0 <= offset ->
  get_keyword_parser keyword source offset
  = (if keyword_at keyword source offset
     then Ok (str_len keyword)
     else Raise (ValueError (NoKeywordHere keyword))).
Proof.
  intros Ho.
  assert (Hs : chars (str_slice source offset (offset + str_len keyword))
               = firstn (List.length (chars keyword))
                        (skipn (Z.to_nat offset) (chars source))).
  { unfold str_slice. rewrite chars_str. unfold clamp_index, str_len, len.
    destruct (Z.ltb_spec offset 0); [lia|].
    destruct (Z.ltb_spec (offset + Z.of_nat (List.length (chars keyword))) 0); [lia|].
    rewrite <- slice_is_firstn_skipn. f_equal; [|f_equal]; lia. }
  assert (Heq : String.eqb (str_slice source offset (offset + str_len keyword)) keyword
                = keyword_at keyword source offset).
  { unfold keyword_at. apply eq_true_iff_eq.
    rewrite is_prefix_firstn, <- Hs, String.eqb_eq. split.
    - now intros ->.
    - intros E. apply (f_equal str) in E. unfold str, chars in E.
      now rewrite !string_of_list_ascii_of_string in E. }
  unfold get_keyword_parser. now rewrite Heq.
Qed.

Lemma keyword_parser_contract (keyword source : string) (offset : Z) :
  0 <= offset ->
  obeys_contract source offset (keyword, get_keyword_parser keyword) = true.
Proof.
  intros Ho. unfold obeys_contract. cbn [snd].
  rewrite (keyword_parser_unfold keyword source offset Ho).
  destruct (keyword_at keyword source offset); [|reflexivity].
  unfold str_len, len. apply Z.leb_le. lia.
Qed.

Lemma skip_while_contract (blank : ascii -> bool) (token source : string)
                          (offset : Z) :
  0 <= offset ->
  obeys_contract source offset
    (token, fun source offset =>
              skip_while blank source offset
                         (Z.to_nat (str_len source - offset)) 0) = true.
Proof.
  intros Ho. unfold obeys_contract. cbn [snd].
  destruct (skip_while_run blank source offset Ho
              (Z.to_nat (str_len source - offset)) 0)
    as (n & -> & Hn & _); [lia|lia|intros k Hk; lia|].
  now apply Z.leb_le.
Qed.

(** X17. A keyword scanner at an offset that is not negative returns
    the length of the keyword exactly when the keyword stands in the
    source at the offset, and raises [ValueError] otherwise; a keyword
    that is not empty never matches across the end of the source, and
    the scanner keeps the contract of a scanner. *)
Theorem keyword_parser_matches (keyword source : string) (offset : Z) :
  0 <= offset ->
  get_keyword_parser keyword source offset
  = (if keyword_at keyword source offset
     then Ok (str_len keyword)
     else Raise (ValueError (NoKeywordHere keyword)))
  /\ (keyword_at keyword source offset = true ->
      str_len keyword = 0 \/ offset + str_len keyword <= str_len source)
  /\ obeys_contract source offset (keyword, get_keyword_parser keyword) = true.
Proof.
  intros Ho. pose proof (keyword_parser_unfold keyword source offset Ho) as Hget.
  split; [exact Hget|]. split.
  - unfold keyword_at. rewrite is_prefix_firstn. intros E.
    apply (f_equal (@List.length ascii)) in E.
    rewrite length_firstn, length_skipn in E. unfold str_len, len. lia.
  - unfold obeys_contract. cbn [snd]. rewrite Hget.
    destruct (keyword_at keyword source offset); [|reflexivity].
    unfold str_len, len. apply Z.leb_le. lia.
Qed.

Lemma keyword_parser_matches_witness :
  get_keyword_parser "let" "a let b" 2 = Ok 3
  /\ get_keyword_parser "let" "a let b" 3
     = Raise (ValueError (NoKeywordHere "let"))
  /\ get_keyword_parser "let" "a le" 2
     = Raise (ValueError (NoKeywordHere "let")).
Proof.
  split; [|split].
  - exact (proj1 (keyword_parser_matches "let" "a let b" 2 ltac:(lia))).
  - exact (proj1 (keyword_parser_matches "let" "a let b" 3 ltac:(lia))).
  - exact (proj1 (keyword_parser_matches "let" "a le" 2 ltac:(lia))).
Defined.

(** X18. The identifier scanner of [rat.py] at an offset inside the
    source: a first character that is not a letter raises [ValueError];
    a letter is consumed, together with the next character when that is
    a letter, a digit or an underscore, and never more than these two.
    At or behind the end of the source the scanner raises [IndexError],
    which is not the error of a scanner that does not match. *)
Theorem parse_identifier_two_characters (source : string) (offset : Z) :
  0 <= offset ->
  (offset < str_len source ->
   exists c,
     str_getitem source offset = Ok c
     /\ (isalpha c = false ->
         Rat.parse_identifier source offset = Raise (ValueError NotAnIdentifier))
     /\ (isalpha c = true ->
         exists n, Rat.parse_identifier source offset = Ok n
                   /\ 1 <= n <= 2 /\ offset + n <= str_len source
                   /\ (n = 2 <-> exists d, str_getitem source (offset + 1) = Ok d
                                           /\ (isalnum d || Ascii.eqb d "_") = true))
     /\ obeys_contract source offset ("identifier", Rat.parse_identifier) = true)
  /\ (str_len source <= offset ->
      Rat.parse_identifier source offset = Raise IndexError
      /\ obeys_contract source offset ("identifier", Rat.parse_identifier) = false).
Proof.
  intros Ho. split.
  - intros Hlt. destruct (str_getitem_in_range source offset) as (c & Hc); [lia|].
    exists c. split; [exact Hc|].
    assert (Halpha : isalpha c = true ->
              exists n, Rat.parse_identifier source offset = Ok n
                        /\ 1 <= n <= 2 /\ offset + n <= str_len source
                        /\ (n = 2 <-> exists d, str_getitem source (offset + 1) = Ok d
                                                /\ (isalnum d || Ascii.eqb d "_") = true)).
    { intros Ha. unfold Rat.parse_identifier. rewrite Hc. cbn [obind]. rewrite Ha.
      cbn [negb]. destruct (Z.ltb_spec (offset + 1) (str_len source)) as [Hl|Hg].
      - destruct (str_getitem_in_range source (offset + 1)) as (d & Hd); [lia|].
        rewrite Hd. cbn [obind]. destruct (isalnum d || Ascii.eqb d "_") eqn:Ed.
        + exists 2. split; [f_equal; lia|]. split; [lia|]. split; [lia|].
          split; [intros _; now exists d|reflexivity].
        + exists 1. split; [f_equal; lia|]. split; [lia|]. split; [lia|].
          split; [lia|]. intros (d' & Hd' & Ed'). congruence.
      - cbn [obind]. exists 1. split; [f_equal; lia|]. split; [lia|]. split; [lia|].
        split; [lia|]. intros (d & Hd & _).
        unfold str_getitem, list_getitem in Hd. fold (str_len source) in *.
        rewrite norm_index_out in Hd; [discriminate|]. unfold str_len in *. lia. }
    split; [|split; [exact Halpha|]].
    + intros Ha. unfold Rat.parse_identifier. rewrite Hc. cbn [obind].
      now rewrite Ha.
    + unfold obeys_contract. cbn [snd]. destruct (isalpha c) eqn:Ha.
      * destruct (Halpha eq_refl) as (n & -> & Hn & _). apply Z.leb_le. lia.
      * unfold Rat.parse_identifier. rewrite Hc. cbn [obind]. now rewrite Ha.
  - intros Hend.
    assert (E : Rat.parse_identifier source offset = Raise IndexError).
    { unfold Rat.parse_identifier, str_getitem, list_getitem.
      rewrite norm_index_out; [reflexivity|]. unfold str_len in *. lia. }
    split; [exact E|]. unfold obeys_contract. cbn [snd]. now rewrite E.
Qed.

Lemma parse_identifier_two_characters_witness :
  exists n, Rat.parse_identifier "x=fuy" 2 = Ok n
            /\ 1 <= n <= 2 /\ 2 + n <= str_len "x=fuy"
            /\ (n = 2 <-> exists d, str_getitem "x=fuy" (2 + 1) = Ok d
                                    /\ (isalnum d || Ascii.eqb d "_") = true).
Proof.
  destruct (proj1 (parse_identifier_two_characters "x=fuy" 2 ltac:(lia))
              ltac:(vm_compute; reflexivity)) as (c & Hc & _ & Ha & _).
  apply Ha. vm_compute in Hc. inversion Hc. reflexivity.
Defined.
End TokenFacts.

(** ** Building a syntax *)

Module GrammarFacts.
Import SequentialSets SetSpec SetFacts SetExtras PrefixFacts.
Import TokenParsers TokenSpec TokenFacts Syntax SyntaxSpec.

Section Unseen.
Context {T : Type} `{PyEqLeibniz T}.

Lemma fromkeys_unseen (l : list T) : fromkeys l = unseen [] l.
Proof. unfold fromkeys. now rewrite fold_keys_unseen. Qed.

Lemma unseen_NoDup (l : list T) : forall seen,
  NoDup l -> (forall x, In x l -> ~ In x seen) -> unseen seen l = l.
Proof.
  induction l as [|x l IH]; intros seen Hnd Hdis; [reflexivity|].
  inversion Hnd as [|? ? Hx Hnd']; subst. cbn [unseen].
  destruct (existsb (py_eqb x) seen) eqn:E.
  - apply existsb_In in E. exfalso. apply (Hdis x); [now left|assumption].
  - f_equal. apply IH; [assumption|]. intros y Hy Hin.
    apply in_app_or in Hin as [Hin|[<-|[]]].
    + apply (Hdis y); [now right|assumption].
    + contradiction.
Qed.

Lemma unseen_seen (l : list T) : forall seen,
  (forall x, In x l -> In x seen) -> unseen seen l = [].
Proof.
  induction l as [|x l IH]; intros seen Hin; [reflexivity|].
  cbn [unseen]. assert (E : existsb (py_eqb x) seen = true).
  { apply existsb_In. apply Hin. now left. }
  rewrite E. apply IH. intros y Hy. apply Hin. now right.
Qed.

Lemma unseen_In (l : list T) : forall seen x,
  In x (unseen seen l) -> In x l /\ ~ In x seen.
Proof.
  induction l as [|y l IH]; intros seen x; [intros []|].
  cbn [unseen]. destruct (existsb (py_eqb y) seen) eqn:E.
  - intros Hx. destruct (IH _ _ Hx). split; [now right|assumption].
  - intros [<-|Hx].
    + split; [now left|]. intros Hin. apply existsb_In in Hin. congruence.
    + destruct (IH _ _ Hx) as [H1 H2]. split; [now right|].
      intros Hin. apply H2. apply in_or_app. now left.
Qed.

(** Filtering commutes with keeping the first occurrences. *)
Lemma filter_unseen (q : T -> bool) (l : list T) : forall seen seen',
  (forall y, q y = true -> (In y seen <-> In y seen')) ->
  filter q (unseen seen l) = unseen seen' (filter q l).
Proof.
  induction l as [|x l IH]; intros seen seen' Hag; [reflexivity|].
  cbn [unseen filter]. destruct (q x) eqn:Eq.
  - cbn [unseen].
    destruct (existsb (py_eqb x) seen) eqn:E1;
      destruct (existsb (py_eqb x) seen') eqn:E2.
    + now apply IH.
    + apply existsb_In in E1. apply (Hag x Eq) in E1. apply existsb_In in E1.
      congruence.
    + apply existsb_In in E2. apply (Hag x Eq) in E2. apply existsb_In in E2.
      congruence.
    + cbn [filter]. rewrite Eq. f_equal. apply IH.
      intros y Hy. rewrite !in_app_iff. now rewrite (Hag y Hy).
  - destruct (existsb (py_eqb x) seen) eqn:E1.
    + now apply IH.
    + cbn [filter]. rewrite Eq. apply IH. intros y Hy.
      rewrite in_app_iff. rewrite <- (Hag y Hy). split; [|tauto].
      intros [Hin|[<-|[]]]; [assumption|congruence].
Qed.

Lemma filter_fromkeys (q : T -> bool) (l : list T) :
  filter q (fromkeys l) = fromkeys (filter q l).
Proof. rewrite !fromkeys_unseen. apply filter_unseen. tauto. Qed.

Lemma fromkeys_NoDup_id (l : list T) : NoDup l -> fromkeys l = l.
Proof.
  intros Hnd. rewrite fromkeys_unseen. apply unseen_NoDup; [assumption|].
  intros x _ [].
Qed.
End Unseen.


Lemma unseen_map_Some (l : list string) : forall seen,
  unseen (map Some seen) (map Some l) = map Some (unseen seen l).
Proof.
  induction l as [|x l IH]; intros seen; [reflexivity|].
  cbn [map unseen].
  assert (E : existsb (py_eqb (Some x)) (map Some seen) = existsb (py_eqb x) seen).
  { clear. induction seen as [|y seen IH]; [reflexivity|].
    cbn [map existsb]. now rewrite IH. }
  rewrite E. destruct (existsb (py_eqb x) seen).
  - apply IH.
  - cbn [map]. f_equal. rewrite <- IH. now rewrite map_app.
Qed.

Lemma filter_map_Some {A} (q : option A -> bool) (l : list A) :
  filter q (map Some l) = map Some (filter (fun t => q (Some t)) l).
Proof.
  induction l as [|x l IH]; [reflexivity|]. cbn [map filter].
  destruct (q (Some x)); cbn [map]; now rewrite IH.
Qed.

Lemma filter_none {A} (q : A -> bool) (l : list A) :
  (forall x, In x l -> q x = false) -> filter q l = [].
Proof.
  induction l as [|x l IH]; intros Hq; [reflexivity|]. cbn [filter].
  rewrite (Hq x (or_introl eq_refl)). apply IH. intros y Hy. apply Hq. now right.
Qed.

Lemma flat_map_filter {A B} (q : B -> bool) (f : A -> list B) (l : list A) :
  flat_map (fun r => filter q (f r)) l = filter q (flat_map f l).
Proof.
  induction l as [|x l IH]; [reflexivity|]. cbn [flat_map].
  now rewrite filter_app, IH.
Qed.

Lemma fold_left_pointwise {A B} (f g : A -> B -> A) (l : list B) :
  (forall a b, f a b = g a b) -> forall a, fold_left f l a = fold_left g l a.
Proof.
  intros E. induction l as [|x l IH]; intros a; [reflexivity|].
  cbn [fold_left]. now rewrite E, IH.
Qed.

Lemma fold_build {V} (g : string -> V) (l : list string) : forall d : dict string V,
  NoDup l -> (forall x, In x l -> ~ In x (dict_keys d)) ->
  fold_left (fun d t => dict_set d t (g t)) l d = d ++ map (fun t => (t, g t)) l.
Proof.
  induction l as [|x l IH]; intros d Hnd Hdis; cbn [fold_left map].
  - now rewrite app_nil_r.
  - inversion Hnd as [|? ? Hx Hnd']; subst.
    assert (Hn : dict_get d x = None).
    { apply dict_get_None. apply Hdis. now left. }
    rewrite (dict_set_new _ _ _ Hn). rewrite IH; [now rewrite <- app_assoc|assumption|].
    intros y Hy. unfold dict_keys. rewrite map_app, in_app_iff. cbn.
    intros [Hin|[->|[]]]; [|contradiction].
    apply (Hdis y); [now right|exact Hin].
Qed.

Lemma dict_get_built {V} (g : string -> V) (l : list string) (t : string) :
  dict_get (map (fun t => (t, g t)) l) t = if in_dec py_eq_dec t l then Some (g t) else None.
Proof.
  induction l as [|x l IH]; [reflexivity|]. cbn [map dict_get].
  destruct (py_eqb x t) eqn:E.
  - apply py_eqb_eq in E. subst x.
    destruct (in_dec py_eq_dec t (t :: l)) as [_|Hn]; [reflexivity|].
    exfalso. apply Hn. now left.
  - rewrite IH. assert (x <> t) by (intros ->; rewrite py_eqb_refl in E; discriminate).
    destruct (in_dec py_eq_dec t l) as [Hin|Hn];
      destruct (in_dec py_eq_dec t (x :: l)) as [Hin'|Hn']; try reflexivity.
    + exfalso. apply Hn'. now right.
    + destruct Hin' as [->|Hin']; [congruence|contradiction].
Qed.

Lemma dict_get_entry_of {K V} `{PyEqLeibniz K} (d : dict K V) (k : K) (v : V) :
  dict_get d k = Some v -> In (k, v) d.
Proof.
  induction d as [|[k' v'] d IH]; cbn [dict_get]; [discriminate|].
  destruct (py_eqb k' k) eqn:E.
  - apply py_eqb_eq in E. subst. intros Hv. inversion Hv. now left.
  - intros Hv. right. now apply IH.
Qed.

Lemma dyn_update_values (l : list (option string)) : forall s : symbol_set,
  hash s = None -> coherent (base s) ->
  exists s', exec (dyn_update l) s = Ok s'
             /\ hash s' = None /\ coherent (base s')
             /\ dyn_iter s' = dyn_iter s ++ unseen (dyn_iter s) l.
Proof.
  induction l as [|x l IH]; intros s Hh Hc.
  - exists s. split; [reflexivity|]. split; [assumption|]. split; [assumption|].
    cbn [unseen]. now rewrite app_nil_r.
  - unfold dyn_update. cbn [for_each]. rewrite exec_seq, exec_dyn_add, Hh.
    cbn [obind]. fold (dyn_update l). cbn [unseen].
    assert (Ec : dyn_contains s x = existsb (py_eqb x) (dyn_iter s)).
    { apply eq_true_iff_eq. rewrite (dyn_contains_iff s x Hc). symmetry.
      apply existsb_In. }
    rewrite <- Ec. destruct (dyn_contains s x) eqn:E.
    + now apply IH.
    + destruct (IH (mkDyn (appended (base s) x) None) eq_refl)
        as (s' & Es & Hh' & Hc' & Hv).
      { apply coherent_appended; [assumption|]. now apply dyn_contains_false. }
      exists s'. split; [exact Es|]. split; [exact Hh'|]. split; [exact Hc'|].
      rewrite Hv. unfold dyn_iter. cbn [base appended values].
      now rewrite <- app_assoc.
Qed.

Lemma is_head_contains (rules : list Rule) (extra : option (dict string scanner))
                       (t : string) :
  dyn_contains (nodes (from_rules rules extra)) (Some t) = is_head rules t.
Proof.
  apply eq_true_iff_eq. rewrite nodes_contains. unfold is_head.
  rewrite existsb_In. reflexivity.
Qed.

Lemma tokens_values (rules : list Rule) (extra : option (dict string scanner)) :
  exists tk, tokens (from_rules rules extra) = Ok tk
             /\ dyn_iter tk = map Some (rule_tokens rules).
Proof.
  set (self := from_rules rules extra).
  unfold tokens, symbols.
  destruct (dyn_update_values (dyn_iter (nodes self))
              (dyn_init (map Some (flat_map body (rule_list self))))
              eq_refl (init_coherent _)) as (sy & E & _ & _ & Hv).
  unfold symbol_set in *. rewrite E. cbn [obind]. eexists. split; [reflexivity|].
  rewrite Hv. unfold dyn_iter at 1. unfold dyn_init at 1. cbn [base].
  unfold init at 1. cbn [values]. rewrite filter_app.
  rewrite (filter_none _ (unseen _ _)).
  - rewrite app_nil_r. rewrite fromkeys_NoDup_id.
    + unfold dyn_iter, dyn_init, init. cbn [base values].
      rewrite fromkeys_unseen. change (@nil (option string)) with (map (@Some string) []).
      rewrite unseen_map_Some, filter_map_Some. unfold rule_tokens, first_occurrences.
      f_equal. rewrite (filter_unseen _ _ [] []) by tauto. f_equal.
      apply filter_ext. intros t. unfold self. now rewrite is_head_contains.
    + apply NoDup_filter. unfold dyn_iter, dyn_init, init. cbn [base values].
      apply fromkeys_NoDup.
  - intros y Hy. apply unseen_In in Hy as [Hy _].
    apply (dyn_contains_iff (nodes self) y (init_coherent _)) in Hy.
    now rewrite Hy.
Qed.

(** X19. [from_rules] gives every terminal of the rules exactly one
    scanner and nothing else: the keys of [token_parsers] are the body
    symbols that head no rule, each once, in the order of their first
    occurrence, and they are the set [tokens] of the syntax.  The scanner
    of a terminal is the one passed in for it, or else the built-in one
    of the empty string and of the blank, or else the keyword scanner.
    When the scanners passed in keep the scanner contract at an offset
    that is not negative, all scanners of the syntax keep it. *)
Theorem from_rules_scanners (rules : list Rule)
                            (extra : option (dict string scanner)) :
  let self := from_rules rules extra in
  let given := match extra with Some d => d | None => [] end in
  dict_keys (token_parsers self) = rule_tokens rules
  /\ NoDup (dict_keys (token_parsers self))
  /\ (exists tk, tokens self = Ok tk
                 /\ dyn_iter tk = map Some (dict_keys (token_parsers self)))
  /\ (forall t, ~ In t (rule_tokens rules) -> dict_get (token_parsers self) t = None)
  /\ (forall t, In t (rule_tokens rules) ->
        exists scan,
          dict_get (token_parsers self) t = Some scan
          /\ (forall p, dict_get given t = Some p -> scan = p)
          /\ (dict_get given t = None ->
              (t = "" -> scan = ignore_spaces)
              /\ (t = " " -> scan = ignore_spaces_and_newlines)
              /\ (t <> "" -> t <> " " -> scan = get_keyword_parser t)))
  /\ (forall source i,
        0 <= i ->
        forallb (obeys_contract source i) given = true ->
        forallb (obeys_contract source i) (token_parsers self) = true).
Proof.
  cbn zeta.
  set (given := match extra with Some d => d | None => [] end).
  set (g := fun t : string =>
              match dict_get given t with
              | Some p => p
              | None => match dict_get TOKEN_PARSERS t with
                        | Some p => p
                        | None => get_keyword_parser t
                        end
              end).
  assert (Hl : flat_map (fun r => filter (fun t => negb (existsb (py_eqb (Some t))
                                                           (map head rules)))
                                         (body r)) rules
               = filter (fun t => negb (is_head rules t)) (flat_map body rules)).
  { apply flat_map_filter. }
  assert (Htp : token_parsers (from_rules rules extra)
                = map (fun t => (t, g t)) (rule_tokens rules)).
  { unfold from_rules. cbn [token_parsers]. fold given.
    rewrite (fold_left_pointwise _ (fun d t => dict_set d t (g t))).
    - unfold dyn_iter, dyn_init, init. cbn [base values]. rewrite Hl.
      rewrite fold_build; [|apply fromkeys_NoDup|intros x _ []].
      cbn [app]. now rewrite fromkeys_unseen.
    - intros d t. unfold g. destruct (dict_get given t); [reflexivity|].
      destruct (dict_get TOKEN_PARSERS t); reflexivity. }
  assert (Hkeys : dict_keys (token_parsers (from_rules rules extra))
                  = rule_tokens rules).
  { rewrite Htp. unfold dict_keys. rewrite map_map. cbn [fst]. apply map_id. }
  split; [exact Hkeys|]. split; [|split; [|split; [|split]]].
  - rewrite Hkeys. unfold rule_tokens, first_occurrences.
    rewrite <- fromkeys_unseen. apply fromkeys_NoDup.
  - rewrite Hkeys. apply tokens_values.
  - intros t Hn. rewrite Htp, dict_get_built.
    destruct (in_dec py_eq_dec t (rule_tokens rules)); [contradiction|reflexivity].
  - intros t Hin. exists (g t). rewrite Htp, dict_get_built.
    destruct (in_dec py_eq_dec t (rule_tokens rules)); [|contradiction].
    split; [reflexivity|]. split.
    + intros p Hp. unfold g. now rewrite Hp.
    + intros Hnone. unfold g. rewrite Hnone. split; [|split].
      * intros ->. reflexivity.
      * intros ->. reflexivity.
      * intros H1 H2. unfold TOKEN_PARSERS. cbn [dict_get].
        change (py_eqb "" t) with (String.eqb "" t).
        change (py_eqb " " t) with (String.eqb " " t).
        destruct (String.eqb_spec "" t); [congruence|].
        destruct (String.eqb_spec " " t); [congruence|]. reflexivity.
  - intros source i Hi Hgiven. rewrite Htp. apply forallb_forall.
    intros e He. apply in_map_iff in He as (t & <- & _).
    unfold g. destruct (dict_get given t) as [p|] eqn:Ep.
    + apply dict_get_entry_of in Ep. rewrite forallb_forall in Hgiven.
      apply (Hgiven _ Ep).
    + unfold TOKEN_PARSERS. cbn [dict_get].
      destruct (py_eqb "" t); [now apply skip_while_contract|].
      destruct (py_eqb " " t); [now apply skip_while_contract|].
      now apply keyword_parser_contract.
Qed.

Lemma split_go_nonempty (sep : list ascii) (s : list ascii) :
  forall budget skip word, split_go sep s budget skip word <> [].
Proof.
  induction s as [|c s IH]; intros budget skip word; cbn [split_go]; [discriminate|].
  destruct skip; [|apply IH].
  destruct (_ && _); [discriminate|apply IH].
Qed.

Lemma split_str_step_nonempty (sep : string) (result : list string) (word : string) :
  split_str_step sep result word <> [].
Proof.
  unfold split_str_step. destruct (rev result) as [|last before].
  - intros E. apply app_eq_nil in E as [_ E]. discriminate.
  - destruct (_ && _); intros E; apply app_eq_nil in E as [_ E]; discriminate.
Qed.

Lemma split_str_nonempty (text : string) :
  exists h b, split_str text " " (-1) = Ok (h :: b).
Proof.
  unfold split_str, str_split. cbn [chars list_ascii_of_string obind].
  set (words := split_go _ _ _ _ _).
  assert (Hw : words <> []) by apply split_go_nonempty.
  assert (Hf : forall l acc, l <> [] -> fold_left (split_str_step " ") l acc <> []).
  { clear. intros l. induction l as [|w l IH]; intros acc Hl; [congruence|].
    cbn [fold_left]. destruct l as [|w' l].
    - cbn [fold_left]. apply split_str_step_nonempty.
    - apply IH. discriminate. }
  specialize (Hf words [] Hw).
  destruct (fold_left (split_str_step " ") words []) as [|h b]; [congruence|].
  now exists h, b.
Qed.

(** X20. [from_description] never fails: every shorthand string splits
    into at least one word, so the unpacking into a head and a body
    always succeeds.  The syntax has one rule for each entry, in order:
    a [Rule] is taken as it is, a string gives the rule of its first
    word and the remaining words. *)
Theorem from_description_total (rules : list (string + Rule))
                               (extra : option (dict string scanner)) :
  exists self,
    from_description rules extra = Ok self
    /\ List.length (rule_list self) = List.length rules
    /\ (forall i r, nth_error rules i = Some (inr r) ->
                    nth_error (rule_list self) i = Some r)
    /\ (forall i text, nth_error rules i = Some (inl text) ->
          exists h b, split_str text " " (-1) = Ok (h :: b)
                      /\ nth_error (rule_list self) i = Some (mkRule (Some h) b)).
Proof.
  assert (Hreal : exists rs,
             real_rules rules = Ok rs
             /\ List.length rs = List.length rules
             /\ (forall i r, nth_error rules i = Some (inr r) ->
                             nth_error rs i = Some r)
             /\ (forall i text, nth_error rules i = Some (inl text) ->
                   exists h b, split_str text " " (-1) = Ok (h :: b)
                               /\ nth_error rs i = Some (mkRule (Some h) b))).
  { induction rules as [|r rules IH].
    - exists []. split; [reflexivity|]. split; [reflexivity|].
      split; intros [|i] ? Hi; discriminate.
    - destruct IH as (rs & E & Hlen & Hr & Hs). cbn [real_rules].
      destruct r as [text|r].
      + destruct (split_str_nonempty text) as (h & b & Esp).
        rewrite Esp. cbn [obind]. rewrite E. cbn [obind].
        eexists. split; [reflexivity|]. split; [cbn; now rewrite Hlen|]. split.
        * intros [|i] r' Hi; [discriminate|]. cbn in *. now apply Hr.
        * intros [|i] text' Hi; cbn in *.
          -- inversion Hi; subst. now exists h, b.
          -- now apply Hs.
      + cbn [obind]. rewrite E. cbn [obind].
        eexists. split; [reflexivity|]. split; [cbn; now rewrite Hlen|]. split.
        * intros [|i] r' Hi; cbn in *; [now inversion Hi|now apply Hr].
        * intros [|i] text' Hi; [discriminate|]. cbn in *. now apply Hs. }
  destruct Hreal as (rs & E & Hlen & Hr & Hs).
  exists (from_rules rs extra). unfold from_description. rewrite E. cbn [obind].
  split; [reflexivity|]. unfold from_rules. cbn [rule_list]. tauto.
Qed.

(** X21. The dot of an item splits the body of its rule: with the dot
    inside the body, [next] is the symbol at the dot and [tail] is what
    follows that symbol; with the dot at or behind the end, [next] is
    [None] and [tail] is empty.  Neither raises for a dot that is not
    negative. *)
Theorem item_next_tail_split (item : LR1Item) :
  0 <= dot item ->
  (dot item < len (body (rule item)) ->
   exists x,
     item_next item = Ok (Some x)
     /\ body (rule item)
        = firstn (Z.to_nat (dot item)) (body (rule item)) ++ x :: item_tail item)
  /\ (len (body (rule item)) <= dot item ->
      item_next item = Ok None /\ item_tail item = []).
Proof.
  intros Hd. unfold item_next, item_tail, slice_from, clamp_index, list_getitem.
  split.
  - intros Hlt. destruct (Z.ltb_spec (dot item) (len (body (rule item)))); [|lia].
    unfold len in *.
    assert (Hn : norm_index (body (rule item)) (dot item)
                 = Some (Z.to_nat (dot item))).
    { pose proof (norm_index_nat (body (rule item)) (Z.to_nat (dot item))) as Hn.
      rewrite Z2Nat.id in Hn by lia. apply Hn. lia. }
    rewrite Hn.
    destruct (nth_error (body (rule item)) (Z.to_nat (dot item))) as [x|] eqn:E.
    + exists x. cbn [obind]. split; [reflexivity|].
      destruct (Z.ltb_spec (dot item + 1) 0); [lia|].
      replace (Z.to_nat (Z.min (dot item + 1) (Z.of_nat (List.length (body (rule item))))))
        with (S (Z.to_nat (dot item))) by lia.
      now apply split_at_nth.
    + apply nth_error_None in E. lia.
  - intros Hge. destruct (Z.ltb_spec (dot item) (len (body (rule item)))); [lia|].
    split; [reflexivity|]. destruct (Z.ltb_spec (dot item + 1) 0); [lia|].
    apply skipn_all2. unfold len in *. lia.
Qed.

Lemma item_next_tail_split_witness :
  exists x,
    item_next (mkItem 1 (mkRule (Some "s") ["a"; "b"; "c"]) None) = Ok (Some x)
    /\ ["a"; "b"; "c"]
       = firstn (Z.to_nat 1) ["a"; "b"; "c"]
         ++ x :: item_tail (mkItem 1 (mkRule (Some "s") ["a"; "b"; "c"]) None).
Proof.
  apply (proj1 (item_next_tail_split
                  (mkItem 1 (mkRule (Some "s") ["a"; "b"; "c"]) None)
                  ltac:(cbn; lia))).
  vm_compute. reflexivity.
Defined.
End GrammarFacts.

(** ** Rules by head, prefixes of a sequence, and the closure of an item set *)

Module ItemFacts.
Import SequentialSets SetSpec SetFacts SetExtras PrefixFacts GrammarFacts.
Import Syntax SyntaxSpec.

#[export] Instance list_Leibniz {A} `{PyEqLeibniz A} : PyEqLeibniz (list A).
Proof.
  intros x. induction x as [|a x IH]; intros [|b y];
    unfold py_eqb, list_PyEq; cbn [list_eqb]; split; try discriminate; auto.
  - rewrite andb_true_iff. intros [E1 E2]. apply py_eqb_eq in E1.
    apply IH in E2. congruence.
  - intros E. inversion E; subst. rewrite andb_true_iff. split.
    + now apply py_eqb_eq.
    + now apply IH.
Qed.

#[export] Instance Rule_Leibniz : PyEqLeibniz Rule.
Proof.
  intros [h b] [h' b']. unfold py_eqb, Rule_PyEq. cbn [head body].
  rewrite andb_true_iff.
  change (py_eqb h h' = true /\ py_eqb b b' = true <-> mkRule h b = mkRule h' b').
  rewrite !py_eqb_eq. split; [intros [-> ->]; reflexivity|intros E; inversion E; auto].
Qed.

#[export] Instance LR1Item_Leibniz : PyEqLeibniz LR1Item.
Proof.
  intros [d r f] [d' r' f']. unfold py_eqb, LR1Item_PyEq. cbn [dot rule follower].
  rewrite !andb_true_iff.
  change ((py_eqb d d' = true /\ py_eqb r r' = true) /\ py_eqb f f' = true
          <-> mkItem d r f = mkItem d' r' f').
  rewrite !py_eqb_eq. split; [intros [[-> ->] ->]; reflexivity|].
  intros E; inversion E; auto.
Qed.

Section Generic.
Context {T : Type} `{PyEqLeibniz T}.

Lemma fold_build_keys {V} (g : T -> V) (l : list T) : forall d : dict T V,
  NoDup l -> (forall x, In x l -> ~ In x (dict_keys d)) ->
  fold_left (fun d t => dict_set d t (g t)) l d = d ++ map (fun t => (t, g t)) l.
Proof.
  induction l as [|x l IH]; intros d Hnd Hdis; cbn [fold_left map].
  - now rewrite app_nil_r.
  - inversion Hnd as [|? ? Hx Hnd']; subst.
    assert (Hn : dict_get d x = None).
    { apply dict_get_None. apply Hdis. now left. }
    rewrite (dict_set_new _ _ _ Hn).
    rewrite IH; [now rewrite <- app_assoc|assumption|].
    intros y Hy. unfold dict_keys. rewrite map_app, in_app_iff. cbn.
    intros [Hin|[->|[]]]; [|contradiction].
    apply (Hdis y); [now right|exact Hin].
Qed.

Lemma dict_get_built_keys {V} (g : T -> V) (l : list T) (t : T) :
  In t l -> dict_get (map (fun t => (t, g t)) l) t = Some (g t).
Proof.
  induction l as [|x l IH]; [intros []|]. cbn [map dict_get].
  destruct (py_eqb x t) eqn:E.
  - apply py_eqb_eq in E. now subst x.
  - intros [->|Hin]; [now rewrite py_eqb_refl in E|now apply IH].
Qed.

Lemma unseen_app (a b : list T) : forall seen,
  unseen seen (a ++ b) = unseen seen a ++ unseen (seen ++ unseen seen a) b.
Proof.
  induction a as [|x a IH]; intros seen; cbn [app unseen].
  - now rewrite app_nil_r.
  - destruct (existsb (py_eqb x) seen); [apply IH|].
    cbn [app]. f_equal. rewrite IH. f_equal. f_equal.
    now rewrite <- app_assoc.
Qed.

Lemma unseen_members (l : list T) : forall seen x,
  In x (seen ++ unseen seen l) <-> In x seen \/ In x l.
Proof.
  induction l as [|y l IH]; intros seen x; cbn [unseen].
  - rewrite app_nil_r. simpl. tauto.
  - destruct (existsb (py_eqb y) seen) eqn:E.
    + rewrite IH. apply existsb_In in E. simpl. intuition (subst; auto).
    + replace (seen ++ y :: unseen (seen ++ [y]) l)
        with ((seen ++ [y]) ++ unseen (seen ++ [y]) l)
        by (now rewrite <- app_assoc).
      rewrite IH, in_app_iff. simpl. tauto.
Qed.

(** A loop that adds the values [g x] to a set that is not hashed. *)
Lemma ofold_add_values {A} (g : A -> T) (l : list A) : forall s : DynSet T,
  hash s = None -> coherent (base s) ->
  exists s',
    ofold (fun s x => exec (dyn_add (g x)) s) l s = Ok s'
    /\ hash s' = None /\ coherent (base s')
    /\ dyn_iter s' = dyn_iter s ++ unseen (dyn_iter s) (map g l).
Proof.
  induction l as [|x l IH]; intros s Hh Hc.
  - exists s. split; [reflexivity|]. split; [assumption|]. split; [assumption|].
    cbn [map unseen]. now rewrite app_nil_r.
  - cbn [ofold map unseen]. rewrite exec_dyn_add, Hh. cbn [obind].
    assert (Ec : dyn_contains s (g x) = existsb (py_eqb (g x)) (dyn_iter s)).
    { apply eq_true_iff_eq. rewrite (dyn_contains_iff s (g x) Hc). symmetry.
      apply existsb_In. }
    rewrite <- Ec. destruct (dyn_contains s (g x)) eqn:E.
    + now apply IH.
    + destruct (IH (mkDyn (appended (base s) (g x)) None) eq_refl)
        as (s' & Es & Hh' & Hc' & Hv).
      { apply coherent_appended; [assumption|]. now apply dyn_contains_false. }
      exists s'. split; [exact Es|]. split; [exact Hh'|]. split; [exact Hc'|].
      rewrite Hv. unfold dyn_iter. cbn [base appended values].
      now rewrite <- app_assoc.
Qed.

Lemma exec_dyn_remove (s : DynSet T) (v : T) :
  hash s = None -> coherent (base s) -> In v (dyn_iter s) ->
  exists s', exec (dyn_remove v) s = Ok s'
             /\ hash s' = None /\ coherent (base s')
             /\ forall x, In x (dyn_iter s') <-> In x (dyn_iter s) /\ x <> v.
Proof.
  intros Hh Hc Hin. destruct s as [[vs d] h]. cbn [hash base] in *. subst h.
  unfold dyn_iter in *. cbn [base values] in *.
  destruct (exists_last (l := vs)) as (l & f & ->).
  { intros ->. contradiction. }
  destruct (In_nth_error _ _ Hin) as (i & Hi).
  destruct (remove_present l f d v i Hc Hi) as (s' & Hr & Hc' & Hv & _).
  exists (mkDyn s' None).
  unfold exec, run, dyn_remove, bind, check_mutable, super. cbn [hash base].
  rewrite Hr. cbn [obind]. split; [reflexivity|]. split; [reflexivity|].
  split; [exact Hc'|]. cbn [base]. rewrite Hv.
  destruct Hc as (Hnd & _). cbn [values] in Hnd.
  assert (Hf : ~ In f l).
  { apply NoDup_remove_2 in Hnd. now rewrite app_nil_r in Hnd. }
  assert (Hl : NoDup l).
  { apply NoDup_remove_1 in Hnd. now rewrite app_nil_r in Hnd. }
  intros x. destruct (Nat.ltb_spec i (List.length l)) as [Hlt|Hge].
  - rewrite nth_error_app1 in Hi by assumption.
    pose proof (split_at_nth l i v Hi) as Hsplit.
    assert (Hv1 : ~ In v (firstn i l ++ skipn (S i) l)).
    { rewrite Hsplit in Hl. now apply NoDup_remove_2 in Hl. }
    assert (Hvf : v <> f) by (intros ->; apply Hf; eapply nth_error_In; eauto).
    set (A := firstn i l) in *. set (B := skipn (S i) l) in *.
    clearbody A B. clear Hi Hlt. subst l.
    rewrite !in_app_iff in *. simpl. rewrite ?in_app_iff. simpl. split.
    + intros [Hx|[<-|Hx]].
      * split; [tauto|]. intros ->. tauto.
      * split; [tauto|congruence].
      * split; [tauto|]. intros ->. tauto.
    + intros [[[Hx|[Hx|Hx]]|[Hx|[]]] Hne]; try tauto. congruence.
  - assert (i = List.length l).
    { assert (i < List.length (l ++ [f]))%nat by (apply nth_error_Some; congruence).
      rewrite length_app in *. simpl in *. lia. }
    subst i. rewrite nth_error_app2, Nat.sub_diag in Hi by lia.
    cbn in Hi. inversion Hi; subst v. rewrite in_app_iff. simpl. split.
    + intros Hx. split; [tauto|]. intros ->. contradiction.
    + intros [[Hx|[Hx|[]]] Hne]; [assumption|congruence].
Qed.
End Generic.

Section RulesByHead.
Variable self : Syntax.

Lemma grouped_step (done : list Rule) (d : dict (option string) (DynSet Rule))
                   (r : Rule) :
  GrammarSpec.grouped self done d -> In (head r) (dyn_iter (nodes self)) ->
  exists d', dict_exec d (head r) (dyn_add r) = Ok d' /\ GrammarSpec.grouped self (done ++ [r]) d'.
Proof.
  intros [Hk Hg] Hr. destruct (Hg _ Hr) as (set & Hget & Hh & Hc & Hv).
  unfold dict_exec, dict_getitem. rewrite Hget. cbn [obind].
  rewrite exec_dyn_add, Hh. cbn [obind]. eexists. split; [reflexivity|].
  assert (Ec : dyn_contains set r = existsb (py_eqb r) (dyn_iter set)).
  { apply eq_true_iff_eq. rewrite (dyn_contains_iff set r Hc). symmetry.
    apply existsb_In. }
  split.
  - rewrite dict_set_keys_old; [exact Hk|]. rewrite Hget. discriminate.
  - intros h Hin. destruct (py_eq_dec (head r) h) as [<-|Hne].
    + rewrite dict_get_set_eq. eexists. split; [reflexivity|].
      rewrite filter_app. cbn [filter]. rewrite py_eqb_refl.
      rewrite unseen_app. cbn [app unseen]. rewrite <- Hv, <- Ec.
      destruct (dyn_contains set r) eqn:E.
      * split; [exact Hh|]. split; [exact Hc|]. now rewrite app_nil_r.
      * split; [reflexivity|]. split.
        -- apply coherent_appended; [assumption|]. now apply dyn_contains_false.
        -- reflexivity.
    + rewrite dict_get_set_ne by assumption.
      destruct (Hg _ Hin) as (set' & Hget' & Hh' & Hc' & Hv').
      exists set'. split; [exact Hget'|]. split; [exact Hh'|]. split; [exact Hc'|].
      rewrite filter_app. cbn [filter]. rewrite (py_eqb_neq _ _ Hne).
      now rewrite app_nil_r.
Qed.

Lemma grouped_fold (todo : list Rule) : forall done d,
  GrammarSpec.grouped self done d ->
  (forall r, In r todo -> In (head r) (dyn_iter (nodes self))) ->
  exists d',
    ofold (fun rules rule => dict_exec rules (head rule) (dyn_add rule)) todo d
    = Ok d'
    /\ GrammarSpec.grouped self (done ++ todo) d'.
Proof.
  induction todo as [|r todo IH]; intros done d Hg Hin.
  - exists d. split; [reflexivity|]. now rewrite app_nil_r.
  - cbn [ofold].
    destruct (grouped_step done d r Hg (Hin r (or_introl eq_refl)))
      as (d1 & E1 & Hg1).
    rewrite E1. cbn [obind].
    destruct (IH (done ++ [r]) d1 Hg1) as (d' & E & Hg').
    { intros r' Hr'. apply Hin. now right. }
    exists d'. split; [exact E|]. now rewrite <- app_assoc in Hg'.
Qed.

(** X22. [rules] never fails and groups the rules by their head: the
    keys are the heads in the order of their first occurrence, and a
    head is mapped to the set of the rules with that head, each once,
    in the order of the rule list.  Anything that heads no rule is no
    key. *)
Theorem rules_by_head :
  exists d,
    rules self = Ok d
    /\ dict_keys d = first_occurrences (map head (rule_list self))
    /\ (forall h, In h (map head (rule_list self)) ->
          exists set,
            dict_get d h = Some set
            /\ dyn_iter set
               = first_occurrences
                   (filter (fun r => py_eqb (head r) h) (rule_list self)))
    /\ (forall h, ~ In h (map head (rule_list self)) -> dict_get d h = None).
Proof.
  assert (HK : dyn_iter (nodes self) = first_occurrences (map head (rule_list self))).
  { unfold nodes, dyn_iter, dyn_init, init. cbn [base values].
    apply fromkeys_unseen. }
  assert (HKin : forall h, In h (dyn_iter (nodes self))
                          <-> In h (map head (rule_list self))).
  { intros h. apply nodes_In. }
  assert (H0 : GrammarSpec.grouped self []
               (fold_left (fun d node => dict_set d node (dyn_init []))
                          (dyn_iter (nodes self)) [])).
  { unfold GrammarSpec.grouped.
    rewrite (fold_build_keys (fun _ => dyn_init [])).
    - cbn [app]. split.
      + unfold dict_keys. rewrite map_map. cbn [fst]. apply map_id.
      + intros h Hh. exists (dyn_init []).
        rewrite (dict_get_built_keys (fun _ => dyn_init []) _ h Hh).
        split; [reflexivity|]. split; [reflexivity|].
        split; [apply init_coherent|reflexivity].
    - unfold nodes, dyn_iter, dyn_init, init. cbn [base values].
      apply fromkeys_NoDup.
    - intros x _ []. }
  destruct (grouped_fold (rule_list self) [] _ H0) as (d & E & Hk & Hg).
  { intros r Hr. apply HKin. now apply in_map. }
  exists d. split; [exact E|]. split; [now rewrite Hk, HK|]. split.
  - intros h Hh. apply HKin in Hh. destruct (Hg h Hh) as (set & Hget & _ & _ & Hv).
    exists set. split; [exact Hget|exact Hv].
  - intros h Hn. apply dict_get_None. rewrite Hk, HKin. exact Hn.
Qed.
End RulesByHead.

Lemma existsb_is_none (l : list (option string)) :
  existsb GrammarSpec.is_none l = true <-> In None l.
Proof.
  rewrite existsb_exists. split.
  - intros ([x|] & Hx & E); [discriminate|assumption].
  - intros Hin. now exists None.
Qed.

Lemma sequence_loop_first (table : prefix_table) (sequence : list (option string)) :
  (forall s, In (Some s) sequence -> dict_get table (Some s) <> None) ->
  forall acc : symbol_set,
    hash acc = None -> coherent (base acc) ->
    exists r,
      sequence_prefixes_loop table sequence acc = Ok r
      /\ hash r = None /\ coherent (base r)
      /\ forall y, In y (dyn_iter r)
                   <-> (In y (dyn_iter acc) /\ y <> None)
                       \/ (In None (dyn_iter acc)
                           /\ In y (GrammarSpec.first_of table sequence)).
Proof.
  induction sequence as [|symbol rest IH]; intros Hkeys acc Hh Hc.
  - exists acc. split; [reflexivity|]. split; [assumption|]. split; [assumption|].
    intros y. cbn. destruct y as [y|].
    + split; [intros Hy; left; split; [assumption|discriminate]|].
      intros [[Hy _]|[_ [E|[]]]]; [assumption|discriminate].
    + split; [intros Hy; right; tauto|]. intros [[_ Hy]|[Hy _]]; [congruence|assumption].
  - cbn [sequence_prefixes_loop GrammarSpec.first_of].
    destruct (dyn_contains acc None) eqn:En.
    + destruct symbol as [s|].
      * cbn [andb]. apply (dyn_contains_iff acc None Hc) in En.
        destruct (exec_dyn_remove acc None Hh Hc En) as (acc1 & E1 & Hh1 & Hc1 & Hm1).
        unfold symbol_set in *. rewrite E1. cbn [obind].
        unfold dict_getitem.
        pose proof (Hkeys s (or_introl eq_refl)) as Hkey.
        lazymatch goal with
        | |- context [@dict_get ?K ?V ?I table (Some s)] =>
            change (@dict_get K V I table (Some s))
              with (dict_get table (Some s)) in *;
            destruct (dict_get table (Some s)) as [set|] eqn:Eset;
            [|now elim Hkey]
        end.
        cbn [obind].
        destruct (exec_update (dyn_iter set) acc1 Hh1 Hc1)
          as (acc2 & E2 & Hh2 & Hc2 & Hm2).
        unfold symbol_set in *. rewrite E2. cbn [obind].
        destruct (IH (fun s' Hs' => Hkeys s' (or_intror Hs')) acc2 Hh2 Hc2)
          as (r & Er & Hhr & Hcr & Hmr).
        exists r. split; [exact Er|]. split; [exact Hhr|]. split; [exact Hcr|].
        intros y. rewrite Hmr, !Hm2, !Hm1.
        destruct (existsb GrammarSpec.is_none (dyn_iter set)) eqn:Ee.
        -- apply existsb_is_none in Ee. rewrite in_app_iff, filter_In.
           destruct y as [y|]; cbn [GrammarSpec.is_none negb];
             intuition (try congruence; try discriminate).
        -- assert (Hnn : ~ In None (dyn_iter set)).
           { intros Hin. apply existsb_is_none in Hin. congruence. }
           destruct y as [y|]; intuition (try congruence; try discriminate).
      * cbn [andb]. exists acc. split; [reflexivity|]. split; [assumption|].
        split; [assumption|]. apply (dyn_contains_iff acc None Hc) in En.
        intros y. cbn. destruct y as [y|].
        -- split; [intros Hy; left; split; [assumption|discriminate]|].
           intros [[Hy _]|[_ [E|[]]]]; [assumption|discriminate].
        -- split; [intros Hy; right; tauto|]. intros [[_ Hy]|[Hy _]]; [congruence|assumption].
    + cbn [andb]. exists acc. split; [reflexivity|]. split; [assumption|].
      split; [assumption|].
      assert (Hnn : ~ In None (dyn_iter acc)).
      { intros Hin. apply (dyn_contains_iff acc None Hc) in Hin. congruence. }
      intros y. split.
      * intros Hy. left. split; [assumption|]. intros ->. contradiction.
      * intros [[Hy _]|[Hy _]]; [assumption|contradiction].
Qed.

(** X23. [get_sequence_prefixes] computes what a sequence of symbols can
    start with: the prefixes of its first symbol, and, as long as the
    symbols read so far can all be empty, those of the next one; [None]
    is in the result exactly when the whole sequence can be empty or an
    end marker [None] is reached.  It succeeds whenever the symbols of
    the sequence are keys of the table, and raises [KeyError] for a
    first symbol that is not. *)
Theorem get_sequence_prefixes_first (table : prefix_table)
                                    (sequence : list (option string)) :
  ((forall s, In (Some s) sequence -> dict_get table (Some s) <> None) ->
   exists r,
     get_sequence_prefixes table sequence = Ok r
     /\ hash r = None /\ coherent (base r)
     /\ forall y, In y (dyn_iter r) <-> In y (GrammarSpec.first_of table sequence))
  /\ (forall s rest,
        sequence = Some s :: rest -> dict_get table (Some s) = None ->
        get_sequence_prefixes table sequence = Raise KeyError).
Proof.
  split.
  - intros Hkeys.
    destruct (sequence_loop_first table sequence Hkeys (dyn_init [None]) eq_refl
                (init_coherent _)) as (r & E & Hh & Hc & Hm).
    exists r. split; [exact E|]. split; [exact Hh|]. split; [exact Hc|].
    intros y. rewrite Hm. unfold dyn_iter at 1 2, dyn_init, init.
    cbn [base values fromkeys fold_left dict_set dict_keys map fst].
    cbn. intuition congruence.
  - intros s rest -> Hnone. unfold get_sequence_prefixes.
    cbn [sequence_prefixes_loop].
    assert (Hin : In None (dyn_iter (dyn_init [@None string]))) by (cbn; tauto).
    assert (Ec : dyn_contains (dyn_init [@None string]) None = true) by reflexivity.
    rewrite Ec. cbn [andb].
    destruct (exec_dyn_remove (dyn_init [@None string]) None eq_refl
                (init_coherent _) Hin) as (acc1 & E1 & _).
    unfold symbol_set in *. rewrite E1. cbn [obind].
    unfold dict_getitem. now rewrite Hnone.
Qed.

Section Closure.
Variable rules : dict (option string) (DynSet Rule).
Variable table : prefix_table.

Lemma add_items_values (followers : list (option string)) (rs : list Rule) :
  forall items : item_set,
    hash items = None -> coherent (base items) ->
    exists items',
      ofold (fun items rule =>
               ofold (fun items follower =>
                        exec (dyn_add (mkItem 0 rule follower)) items)
                     followers items)
            rs items = Ok items'
      /\ hash items' = None /\ coherent (base items')
      /\ dyn_iter items'
         = dyn_iter items
           ++ unseen (dyn_iter items)
                     (flat_map (fun rule => map (mkItem 0 rule) followers) rs).
Proof.
  induction rs as [|r rs IH]; intros items Hh Hc.
  - exists items. split; [reflexivity|]. split; [assumption|]. split; [assumption|].
    cbn [flat_map unseen]. now rewrite app_nil_r.
  - cbn [ofold flat_map].
    destruct (ofold_add_values (mkItem 0 r) followers items Hh Hc)
      as (items1 & E1 & Hh1 & Hc1 & Hv1).
    unfold item_set in *. rewrite E1. cbn [obind].
    destruct (IH items1 Hh1 Hc1) as (items' & E & Hh' & Hc' & Hv').
    exists items'. split; [exact E|]. split; [exact Hh'|]. split; [exact Hc'|].
    rewrite Hv', Hv1, unseen_app. now rewrite <- app_assoc.
Qed.

Lemma close_item_spec (items items' : item_set) (item : LR1Item) :
  hash items = None -> coherent (base items) ->
  close_item rules table items item = Ok items' ->
  hash items' = None /\ coherent (base items')
  /\ (exists added, dyn_iter items' = dyn_iter items ++ added
                    /\ Forall (GrammarSpec.fresh_item rules) added)
  /\ GrammarSpec.closed_under rules table items' item.
Proof.
  intros Hh Hc. unfold close_item.
  destruct (get_sequence_prefixes table _) as [fs| |] eqn:Efs; try discriminate.
  cbn [obind]. destruct (item_next item) as [nx| |] eqn:Enx; try discriminate.
  cbn [obind].
  set (rs := match dict_get rules nx with
             | Some of_head => dyn_iter of_head
             | None => []
             end).
  destruct (add_items_values (dyn_iter fs) rs items Hh Hc)
    as (r & E & Hhr & Hcr & Hvr).
  unfold item_set in *. rewrite E. intros Hr. inversion Hr; subst items'.
  split; [exact Hhr|]. split; [exact Hcr|]. split.
  - eexists. split; [exact Hvr|]. apply Forall_forall. intros it Hit.
    apply unseen_In in Hit as [Hit _]. apply in_flat_map in Hit as (rule & Hrule & Hit).
    apply in_map_iff in Hit as (f & <- & _). split; [reflexivity|].
    unfold rs in Hrule. destruct (dict_get rules nx) as [set|] eqn:Eset; [|contradiction].
    exists nx, set. split; [exact Eset|exact Hrule].
  - intros fs' nx' set rule f Hfs' Hnx' Hset Hrule Hf.
    rewrite Hfs' in Efs. inversion Efs; subst fs'.
    rewrite Hnx' in Enx. inversion Enx; subst nx'.
    rewrite Hvr. apply unseen_members. right.
    apply in_flat_map. exists rule. split.
    + unfold rs. now rewrite Hset.
    + now apply in_map.
Qed.

Lemma closure_loop_spec (fuel : nat) : forall (cursor : nat) (items r : item_set),
  hash items = None -> coherent (base items) ->
  closure_loop rules table fuel cursor items = Ok r ->
  hash r = None /\ coherent (base r)
  /\ (exists more, dyn_iter r = dyn_iter items ++ more
                   /\ Forall (GrammarSpec.fresh_item rules) more)
  /\ (forall k item, (cursor <= k)%nat -> nth_error (dyn_iter r) k = Some item ->
                     GrammarSpec.closed_under rules table r item).
Proof.
  induction fuel as [|fuel IH]; intros cursor items r Hh Hc;
    cbn [closure_loop];
    destruct (nth_error (dyn_iter items) cursor) as [item|] eqn:En;
    try discriminate.
  - intros E. inversion E; subst r. split; [assumption|]. split; [assumption|].
    split; [exists []; split; [now rewrite app_nil_r|constructor]|].
    intros k it Hk Hit. apply nth_error_None in En.
    assert (k < List.length (dyn_iter items))%nat by (apply nth_error_Some; congruence).
    lia.
  - destruct (close_item rules table items item) as [items1| |] eqn:E1;
      try discriminate.
    cbn [obind]. intros E.
    destruct (close_item_spec items items1 item Hh Hc E1)
      as (Hh1 & Hc1 & (added & Hv1 & Hf1) & Hcl1).
    destruct (IH (S cursor) items1 r Hh1 Hc1 E)
      as (Hhr & Hcr & (more & Hvr & Hfr) & Hclr).
    split; [exact Hhr|]. split; [exact Hcr|]. split.
    + exists (added ++ more). split.
      * rewrite Hvr, Hv1. now rewrite <- app_assoc.
      * apply Forall_app. now split.
    + intros k it Hk Hit. destruct (Nat.eq_dec k cursor) as [->|Hne].
      * assert (it = item).
        { rewrite Hvr, Hv1, <- app_assoc in Hit.
          rewrite nth_error_app1 in Hit
            by (apply nth_error_Some; congruence).
          congruence. }
        subst it. intros fs nx set rule f Hfs Hnx Hset Hrule Hf.
        rewrite Hvr. apply in_or_app. left.
        exact (Hcl1 fs nx set rule f Hfs Hnx Hset Hrule Hf).
      * apply (Hclr k it); [lia|exact Hit].
  - intros E. inversion E; subst r. split; [assumption|]. split; [assumption|].
    split; [exists []; split; [now rewrite app_nil_r|constructor]|].
    intros k it Hk Hit. apply nth_error_None in En.
    assert (k < List.length (dyn_iter items))%nat by (apply nth_error_Some; congruence).
    lia.
Qed.

Lemma close_item_added (items items' : item_set) (item : LR1Item) :
  hash items = None -> coherent (base items) ->
  close_item rules table items item = Ok items' ->
  forall new, In new (dyn_iter items') ->
              In new (dyn_iter items) \/ GrammarSpec.asked_by rules table item new.
Proof.
  intros Hh Hc. unfold close_item.
  destruct (get_sequence_prefixes table _) as [fs| |] eqn:Efs; try discriminate.
  cbn [obind]. destruct (item_next item) as [nx| |] eqn:Enx; try discriminate.
  cbn [obind].
  set (rs := match dict_get rules nx with
             | Some of_head => dyn_iter of_head
             | None => []
             end).
  destruct (add_items_values (dyn_iter fs) rs items Hh Hc)
    as (r & E & _ & _ & Hvr).
  unfold item_set in *. rewrite E. intros Hr. inversion Hr; subst items'.
  intros new Hnew. rewrite Hvr in Hnew. apply in_app_or in Hnew as [Hnew|Hnew];
    [now left|right].
  apply unseen_In in Hnew as [Hnew _].
  apply in_flat_map in Hnew as (rule & Hrule & Hnew).
  apply in_map_iff in Hnew as (f & <- & Hf).
  unfold rs in Hrule. destruct (dict_get rules nx) as [set|] eqn:Eset; [|contradiction].
  exists fs, nx, set, rule, f. repeat split; assumption.
Qed.

Lemma closure_loop_least (S : LR1Item -> Prop) :
  (forall item new, S item -> GrammarSpec.asked_by rules table item new -> S new) ->
  forall (fuel cursor : nat) (items r : item_set),
    hash items = None -> coherent (base items) ->
    (forall item, In item (dyn_iter items) -> S item) ->
    closure_loop rules table fuel cursor items = Ok r ->
    forall item, In item (dyn_iter r) -> S item.
Proof.
  intros Hstep. induction fuel as [|fuel IH]; intros cursor items r Hh Hc HS;
    cbn [closure_loop];
    destruct (nth_error (dyn_iter items) cursor) as [item|] eqn:En;
    try discriminate.
  - intros E. inversion E; subst r. exact HS.
  - destruct (close_item rules table items item) as [items1| |] eqn:E1;
      try discriminate.
    cbn [obind]. intros E.
    destruct (close_item_spec items items1 item Hh Hc E1) as (Hh1 & Hc1 & _).
    apply (IH (Datatypes.S cursor) items1 r Hh1 Hc1); [|exact E].
    intros new Hnew.
    destruct (close_item_added items items1 item Hh Hc E1 new Hnew) as [Hold|Hask].
    + now apply HS.
    + apply (Hstep item new); [|exact Hask]. apply HS.
      now apply nth_error_In with cursor.
  - intros E. inversion E; subst r. exact HS.
Qed.

Lemma item_next_returns (item : LR1Item) :
  0 <= dot item -> exists next, item_next item = Ok next.
Proof.
  intros Hd. unfold item_next, list_getitem.
  destruct (Z.ltb_spec (dot item) (len (body (rule item)))); [|now exists None].
  unfold len in *.
  pose proof (norm_index_nat (body (rule item)) (Z.to_nat (dot item))) as Hn.
  rewrite Z2Nat.id in Hn by lia. rewrite Hn by lia.
  destruct (nth_error (body (rule item)) (Z.to_nat (dot item))) as [x|] eqn:E.
  - now exists (Some x).
  - apply nth_error_None in E. lia.
Qed.

Lemma tail_in_body (item : LR1Item) (s : string) :
  In s (item_tail item) -> In s (body (rule item)).
Proof.
  unfold item_tail, slice_from. intros Hs.
  rewrite <- (firstn_skipn (clamp_index (body (rule item)) (dot item + 1))
                           (body (rule item))).
  apply in_or_app. now right.
Qed.

Lemma first_of_members (sequence : list (option string)) (y : option string) :
  In y (GrammarSpec.first_of table sequence) ->
  y = None \/ exists k set, dict_get table k = Some set /\ In y (dyn_iter set).
Proof.
  induction sequence as [|[s|] rest IH]; cbn [GrammarSpec.first_of].
  - intros [<-|[]]. now left.
  - destruct (dict_get table (Some s)) as [set|] eqn:Eset; [|intros []].
    destruct (existsb GrammarSpec.is_none (dyn_iter set)).
    + intros Hy. apply in_app_or in Hy as [Hy|Hy]; [|now apply IH].
      apply filter_In in Hy as [Hy _]. right. exists (Some s), set. now split.
    + intros Hy. right. exists (Some s), set. now split.
  - intros [<-|[]]. now left.
Qed.

Lemma followers_of_expandable (item : LR1Item) :
  GrammarSpec.expandable table item ->
  exists followers,
    get_sequence_prefixes table (map Some (item_tail item) ++ [follower item])
    = Ok followers
    /\ forall y, In y (dyn_iter followers) ->
                 y = None
                 \/ exists k set, dict_get table k = Some set /\ In y (dyn_iter set).
Proof.
  intros (_ & Hknown & Hfollower).
  assert (Hkeys : forall s, In (Some s) (map Some (item_tail item) ++ [follower item]) ->
                            dict_get table (Some s) <> None).
  { intros s Hs. apply in_app_or in Hs as [Hs|[Hs|[]]].
    - apply in_map_iff in Hs as (s' & E & Hs). inversion E; subst s'.
      apply Hknown. now apply tail_in_body.
    - now apply Hfollower. }
  destruct (sequence_loop_first table _ Hkeys (dyn_init [None]) eq_refl
              (init_coherent _)) as (r & E & _ & _ & Hm).
  exists r. split; [exact E|]. intros y Hy. apply Hm in Hy as [[Hy Hne]|[_ Hy]].
  - left. cbn in Hy. destruct Hy as [<-|[]]. congruence.
  - exact (first_of_members _ y Hy).
Qed.

Lemma close_item_returns (items : item_set) (item : LR1Item) :
  hash items = None -> coherent (base items) ->
  GrammarSpec.expandable table item ->
  exists items', close_item rules table items item = Ok items'.
Proof.
  intros Hh Hc Hitem. unfold close_item.
  destruct (followers_of_expandable item Hitem) as (fs & Efs & _).
  rewrite Efs. cbn [obind].
  destruct (item_next_returns item (proj1 Hitem)) as (nx & Enx).
  rewrite Enx. cbn [obind].
  destruct (add_items_values (dyn_iter fs)
              (match dict_get rules nx with
               | Some of_head => dyn_iter of_head
               | None => []
               end) items Hh Hc) as (r & E & _).
  exists r. exact E.
Qed.

Section Returns.
Hypothesis rules_known :
  forall h set r, dict_get rules h = Some set -> In r (dyn_iter set) ->
                  GrammarSpec.known table r.
Hypothesis table_known : GrammarSpec.prefixes_known table.
Variable core : item_set.

Lemma asked_stays (item new : LR1Item) :
  GrammarSpec.expandable table item ->
  GrammarSpec.asked_by rules table item new ->
  GrammarSpec.expandable table new
  /\ In new (GrammarSpec.closure_universe rules table core).
Proof.
  intros Hitem (fs & nx & set & rule & f & Efs & _ & Eset & Hrule & Hf & ->).
  destruct (followers_of_expandable item Hitem) as (fs' & Efs' & Hm).
  rewrite Efs in Efs'. inversion Efs'; subst fs'.
  split.
  - split; [cbn; lia|]. split.
    + cbn [Syntax.rule]. exact (rules_known nx set rule Eset Hrule).
    + cbn [follower]. intros x ->.
      destruct (Hm _ Hf) as [E|(k & set' & Eset' & Hx)]; [discriminate|].
      exact (table_known k set' x Eset' Hx).
  - unfold GrammarSpec.closure_universe. apply in_or_app. right.
    apply in_flat_map. exists rule. split.
    + apply in_flat_map. exists (nx, set). split; [|exact Hrule].
      now apply dict_get_entry_of.
    + apply in_map. destruct (Hm _ Hf) as [->|(k & set' & Eset' & Hx)];
        [now left|right].
      apply in_flat_map. exists (k, set'). split; [|exact Hx].
      now apply dict_get_entry_of.
Qed.

Lemma closure_loop_returns (fuel : nat) : forall (cursor : nat) (items : item_set),
  hash items = None -> coherent (base items) ->
  (forall item, In item (dyn_iter items) ->
                GrammarSpec.expandable table item
                /\ In item (GrammarSpec.closure_universe rules table core)) ->
  (List.length (GrammarSpec.closure_universe rules table core) - cursor <= fuel)%nat ->
  exists r, closure_loop rules table fuel cursor items = Ok r.
Proof.
  induction fuel as [|fuel IH]; intros cursor items Hh Hc Hin Hfuel;
    cbn [closure_loop];
    destruct (nth_error (dyn_iter items) cursor) as [item|] eqn:En;
    try (now exists items).
  - assert (Hlt : (cursor < List.length (dyn_iter items))%nat)
      by (apply nth_error_Some; congruence).
    assert (Hle : (List.length (dyn_iter items)
                   <= List.length (GrammarSpec.closure_universe rules table core))%nat).
    { apply NoDup_incl_length; [apply Hc|]. intros x Hx. now apply Hin. }
    lia.
  - assert (Hitem : In item (dyn_iter items)) by now apply nth_error_In with cursor.
    destruct (close_item_returns items item Hh Hc (proj1 (Hin item Hitem)))
      as (items1 & E1).
    rewrite E1. cbn [obind].
    destruct (close_item_spec items items1 item Hh Hc E1) as (Hh1 & Hc1 & _).
    apply (IH (S cursor) items1 Hh1 Hc1); [|lia].
    intros new Hnew.
    destruct (close_item_added items items1 item Hh Hc E1 new Hnew) as [Hold|Hask].
    + now apply Hin.
    + exact (asked_stays item new (proj1 (Hin item Hitem)) Hask).
Qed.
End Returns.

(** X24. [lr1_closure] returns the LR(1) closure of the core and
    nothing more.  What it returns is not hashed and starts with the
    items of the core, in their order; it is closed: for every item of
    it, every rule of the symbol behind its dot and every terminal that
    can follow that symbol, the item with the dot in front of that rule
    is in it; and it is the least such set: every set of items that
    holds the core and is closed in this way holds the whole result.
    It does return: when the table knows the symbols of the rules and
    of the core items, holds only known symbols as prefixes, and no
    core item has a negative dot, the loop ends within as many rounds
    as there are items of the core and pairs of a rule and a follower. *)
Theorem lr1_closure_closed (core : item_set) :
  (forall fuel items,
     lr1_closure rules table fuel core = Ok items ->
     hash items = None /\ coherent (base items)
     /\ (exists more, dyn_iter items = first_occurrences (dyn_iter core) ++ more)
     /\ (forall item, In item (dyn_iter items) ->
                      GrammarSpec.closed_under rules table items item)
     /\ (forall S : LR1Item -> Prop,
           (forall item, In item (dyn_iter core) -> S item) ->
           (forall item new,
              S item -> GrammarSpec.asked_by rules table item new -> S new) ->
           forall item, In item (dyn_iter items) -> S item))
  /\ ((forall h set r, dict_get rules h = Some set -> In r (dyn_iter set) ->
                       GrammarSpec.known table r) ->
      GrammarSpec.prefixes_known table ->
      (forall item, In item (dyn_iter core) -> GrammarSpec.expandable table item) ->
      forall fuel,
        (List.length (GrammarSpec.closure_universe rules table core) <= fuel)%nat ->
        exists items, lr1_closure rules table fuel core = Ok items).
Proof.
  assert (Hcore : forall item, In item (dyn_iter (dyn_init (dyn_iter core))) ->
                               In item (dyn_iter core)).
  { intros item. unfold dyn_iter at 1, dyn_init, init. cbn [base values].
    apply fromkeys_In. }
  unfold lr1_closure. split.
  - intros fuel items E.
    destruct (closure_loop_spec fuel O (dyn_init (dyn_iter core)) items eq_refl
                (init_coherent _) E) as (Hh & Hc & (more & Hv & _) & Hcl).
    split; [exact Hh|]. split; [exact Hc|]. split; [|split].
    + exists more. rewrite Hv. f_equal.
      unfold dyn_iter at 1, dyn_init, init. cbn [base values].
      apply fromkeys_unseen.
    + intros item Hin. destruct (In_nth_error _ _ Hin) as (k & Hk).
      apply (Hcl k item); [lia|exact Hk].
    + intros S Hbase Hstep.
      apply (closure_loop_least S Hstep fuel O (dyn_init (dyn_iter core)) items
               eq_refl (init_coherent _)); [|exact E].
      intros item Hin. apply Hbase. now apply Hcore.
  - intros Hrules Htable Hexp fuel Hfuel.
    apply (closure_loop_returns Hrules Htable core fuel O (dyn_init (dyn_iter core))
             eq_refl (init_coherent _)); [|lia].
    intros item Hin. apply Hcore in Hin. split; [now apply Hexp|].
    unfold GrammarSpec.closure_universe. apply in_or_app. now left.
Qed.
End Closure.

Lemma lr1_closure_closed_witness :
  exists items,
    lr1_closure DemoSpec.nullable_rules DemoSpec.nullable_prefixes 22
                DemoSpec.nullable_root = Ok items
    /\ hash items = None /\ coherent (base items)
    /\ (exists more,
          dyn_iter items = first_occurrences (dyn_iter DemoSpec.nullable_root) ++ more)
    /\ (forall item, In item (dyn_iter items) ->
                     GrammarSpec.closed_under DemoSpec.nullable_rules
                       DemoSpec.nullable_prefixes items item)
    /\ (forall S : LR1Item -> Prop,
          (forall item, In item (dyn_iter DemoSpec.nullable_root) -> S item) ->
          (forall item new,
             S item ->
             GrammarSpec.asked_by DemoSpec.nullable_rules DemoSpec.nullable_prefixes
               item new -> S new) ->
          forall item, In item (dyn_iter items) -> S item).
Proof.
  destruct (lr1_closure_closed DemoSpec.nullable_rules DemoSpec.nullable_prefixes
              DemoSpec.nullable_root) as [Hresult Hreturns].
  assert (Hrules : forall h set r,
             dict_get DemoSpec.nullable_rules h = Some set -> In r (dyn_iter set) ->
             GrammarSpec.known DemoSpec.nullable_prefixes r).
  { intros h set r Hget Hr b Hb. apply dict_get_entry_of in Hget.
    vm_compute in Hget.
    destruct Hget as [E|[E|[]]]; inversion E; subst h set; clear E;
      cbn in Hr; repeat (destruct Hr as [Hr|Hr]); try contradiction; subst r;
      cbn in Hb; repeat (destruct Hb as [Hb|Hb]); try contradiction; subst b;
      vm_compute; discriminate. }
  assert (Htable : GrammarSpec.prefixes_known DemoSpec.nullable_prefixes).
  { intros k set x Hget Hx. apply dict_get_entry_of in Hget.
    vm_compute in Hget.
    destruct Hget as [E|[E|[E|[E|[E|[]]]]]]; inversion E; subst k set; clear E;
      cbn in Hx; repeat (destruct Hx as [Hx|Hx]); try contradiction;
      try discriminate; inversion Hx; subst x; vm_compute; discriminate. }
  assert (Hcore : forall item, In item (dyn_iter DemoSpec.nullable_root) ->
                               GrammarSpec.expandable DemoSpec.nullable_prefixes item).
  { intros item [<-|[]]. split; [cbn; lia|]. split.
    - intros b [<-|[]]. vm_compute. discriminate.
    - intros x Hx. discriminate. }
  destruct (Hreturns Hrules Htable Hcore 22%nat ltac:(vm_compute; lia)) as (items & E).
  exists items. split; [exact E|]. exact (Hresult 22%nat items E).
Defined.

Lemma get_sequence_prefixes_first_witness :
  exists r,
    get_sequence_prefixes DemoSpec.nullable_prefixes [Some "A"; Some "t"; None] = Ok r
    /\ hash r = None /\ coherent (base r)
    /\ forall y, In y (dyn_iter r)
                 <-> In y (GrammarSpec.first_of DemoSpec.nullable_prefixes
                             [Some "A"; Some "t"; None]).
Proof.
  apply (proj1 (get_sequence_prefixes_first DemoSpec.nullable_prefixes
                  [Some "A"; Some "t"; None])).
  intros s [E|[E|[E|[]]]]; inversion E; subst; vm_compute; discriminate.
Defined.
End ItemFacts.

(** ** The prefixes table is a fixed point *)

Module FirstFacts.
Import SequentialSets SetSpec SetFacts Syntax PrefixSpec PrefixFacts.

Lemma quiet_add_first node (p p' : prefix_table) (d : bool) x :
  add_first node (p, d) x = Ok (p', true) ->
  p' = p /\ d = true /\ holds p node x.
Proof.
  rewrite add_first_unfold.
  destruct (dict_get p node) as [s|] eqn:Es; [|discriminate].
  destruct (dyn_contains s x) eqn:Ex.
  - intros E. inversion E; subst. split; [reflexivity|]. split; [reflexivity|].
    now exists s.
  - destruct (hash s); discriminate.
Qed.

Lemma quiet_add_firsts node (xs : list (option string)) :
  forall (p p' : prefix_table) (d : bool),
    ofold (add_first node) xs (p, d) = Ok (p', true) ->
    p' = p /\ d = true /\ forall x, In x xs -> holds p node x.
Proof.
  induction xs as [|x xs IH]; intros p p' d; cbn [ofold].
  - intros E. inversion E; subst. split; [reflexivity|]. split; [reflexivity|].
    intros x [].
  - destruct (add_first node (p, d) x) as [[p1 d1]| |] eqn:E1; try discriminate.
    cbn [obind]. intros E. destruct (IH _ _ _ E) as (-> & -> & Hxs).
    destruct (quiet_add_first _ _ _ _ _ E1) as (-> & -> & Hx).
    split; [reflexivity|]. split; [reflexivity|].
    intros y [<-|Hy]; [exact Hx|now apply Hxs].
Qed.

Lemma quiet_scan_body node (symbols : list string) :
  forall (p p' : prefix_table) (d : bool),
    scan_body node symbols (p, d) = Ok (p', true) ->
    p' = p /\ d = true /\ first_closed p node symbols.
Proof.
  induction symbols as [|b symbols IH]; intros p p' d.
  - rewrite scan_body_nil. apply quiet_add_first.
  - cbn [scan_body fst]. unfold dict_getitem at 1.
    destruct (dict_get p (Some b)) as [sb|] eqn:Eb; [|discriminate]. cbn [obind].
    destruct (ofold (add_first node) (exclude_nones (dyn_iter sb)) (p, d))
      as [[p1 d1]| |] eqn:E1; try discriminate. cbn [obind fst].
    unfold dict_getitem.
    destruct (dict_get p1 (Some b)) as [sb'|] eqn:Eb'; [|discriminate]. cbn [obind].
    assert (Hquiet : d1 = true -> p1 = p /\ d = true
                                 /\ forall x, In x (exclude_nones (dyn_iter sb)) ->
                                              holds p node x).
    { intros ->. exact (quiet_add_firsts _ _ _ _ _ E1). }
    assert (Hfirst : (forall x, In x (exclude_nones (dyn_iter sb)) -> holds p node x) ->
                     forall x, In x (dyn_iter sb) -> x <> None -> holds p node x).
    { intros Hall x Hx Hne. apply Hall. unfold exclude_nones. apply filter_In.
      split; [exact Hx|]. destruct x; [reflexivity|congruence]. }
    destruct (dyn_contains sb' None) eqn:En; cbn [negb].
    + intros E. destruct (IH _ _ _ E) as (-> & -> & Hrest).
      destruct (Hquiet eq_refl) as (-> & -> & Hall).
      split; [reflexivity|]. split; [reflexivity|].
      exists sb. split; [exact Eb|]. split; [now apply Hfirst|].
      intros _. exact Hrest.
    + intros E. inversion E; subst.
      destruct (Hquiet eq_refl) as (-> & -> & Hall).
      split; [reflexivity|]. split; [reflexivity|].
      exists sb. split; [exact Eb|]. split; [now apply Hfirst|].
      rewrite Eb in Eb'. inversion Eb'; subst. congruence.
Qed.

Lemma quiet_rules (rules : list Rule) :
  forall (p p' : prefix_table) (d : bool),
    ofold (fun st rule => scan_body (head rule) (body rule) st) rules (p, d)
    = Ok (p', true) ->
    p' = p /\ d = true
    /\ forall r, In r rules -> first_closed p (head r) (body r).
Proof.
  induction rules as [|r rules IH]; intros p p' d; cbn [ofold].
  - intros E. inversion E; subst. split; [reflexivity|]. split; [reflexivity|].
    intros r [].
  - destruct (scan_body (head r) (body r) (p, d)) as [[p1 d1]| |] eqn:E1;
      try discriminate.
    cbn [obind]. intros E. destruct (IH _ _ _ E) as (-> & -> & Hrest).
    destruct (quiet_scan_body _ _ _ _ _ E1) as (-> & -> & Hr).
    split; [reflexivity|]. split; [reflexivity|].
    intros r' [<-|Hr']; [exact Hr|now apply Hrest].
Qed.

Lemma loop_keeps_sound (U : list (option string)) (self : Syntax) (fuel : nat) :
  In None U ->
  forall p p',
    prefixes_loop self fuel p = Ok p' ->
    sound U p -> covers p (rule_list self) ->
    sound U p' /\ covers p' (rule_list self).
Proof.
  intros HU. induction fuel as [|fuel IH]; intros p p'; cbn [prefixes_loop];
    [discriminate|].
  intros E Hs Hc. unfold prefixes_pass in E.
  destruct (rules_progress U HU (rule_list self) (p, true) Hs Hc)
    as ([p1 d1] & E1 & Hs1 & Hk1 & _).
  rewrite E1 in E. cbn [obind fst] in *.
  assert (Hc1 : covers p1 (rule_list self)).
  { intros r Hr. destruct (Hc r Hr) as [Hh Hb]. split; [now apply Hk1|].
    intros b Hin. now apply Hk1, Hb. }
  destruct d1.
  - inversion E; subst. now split.
  - now apply (IH p1 p').
Qed.

(** X25. The table [prefixes] returns is a fixed point: one more pass
    over the rules adds nothing, and for every rule the set of its head
    holds what the first symbol of the body can start with, then, as
    long as the symbols read can be empty, what the next symbol can
    start with, and the marker [None] when all of them can be empty.
    Every symbol of every rule has its set, and the sets hold only
    terminals of the grammar and [None]. *)
Theorem prefixes_closed (self : Syntax) (fuel : nat) (table : prefix_table) :
  prefixes self fuel = Ok table ->
  prefixes_pass self table = Ok (table, true)
  /\ (forall r, In r (rule_list self) -> first_closed table (head r) (body r))
  /\ covers table (rule_list self)
  /\ (exists tk, tokens self = Ok tk /\ sound (None :: dyn_iter tk) table).
Proof.
  intros E. unfold prefixes in E.
  destruct (tokens_ok self) as (tk & Etk & Htk). rewrite Etk in E. cbn [obind] in E.
  destruct (initial_table self tk (None :: dyn_iter tk) Htk) as [Hs Hc].
  { intros y Hy. now right. }
  cbn zeta in Hs, Hc.
  destruct (loop_keeps_sound (None :: dyn_iter tk) self fuel (or_introl eq_refl)
              _ _ E Hs Hc) as [Hs' Hc'].
  destruct (loop_last_pass self fuel _ _ E) as (p0 & E0).
  unfold prefixes_pass in E0.
  destruct (quiet_rules _ _ _ _ E0) as (-> & _ & Hclosed).
  split; [exact E0|]. split; [exact Hclosed|]. split; [exact Hc'|].
  exists tk. split; [exact Etk|exact Hs'].
Qed.

Lemma prefixes_closed_witness :
  exists table,
    prefixes DemoSpec.nullable_grammar 3 = Ok table
    /\ prefixes_pass DemoSpec.nullable_grammar table = Ok (table, true)
    /\ (forall r, In r (rule_list DemoSpec.nullable_grammar) ->
                  first_closed table (head r) (body r)).
Proof.
  destruct (prefixes DemoSpec.nullable_grammar 3) as [table| |] eqn:E;
    [|vm_compute in E; discriminate..].
  exists table. split; [reflexivity|].
  destruct (prefixes_closed DemoSpec.nullable_grammar 3 table E) as (H1 & H2 & _).
  now split.
Defined.
End FirstFacts.

(** ** The ACTION table without conflicts, and the driver's failures *)

Module ParserFacts.
Import SequentialSets SetSpec SetFacts Syntax FuelSpec FuelFacts ActionSpec.
Import PrefixFacts ActionFacts.

Lemma dict_get_nth_of {K V} `{PyEqLeibniz K} (d : dict K V) : forall i k v,
  NoDup (dict_keys d) -> nth_error d i = Some (k, v) -> dict_get d k = Some v.
Proof.
  induction d as [|[k0 v0] d IH]; intros [|i] k v Hnd Hi; simpl in *; try discriminate.
  - inversion Hi; subst. now rewrite py_eqb_refl.
  - inversion Hnd; subst. rewrite py_eqb_neq.
    + eapply IH; eauto.
    + intros ->. apply nth_error_In in Hi.
      apply (in_map fst) in Hi. contradiction.
Qed.

Lemma assign_all_fresh (l : list entry) : forall acts : action_table,
  has_conflict l = false ->
  (forall e, In e l -> dict_get acts (fst e) = None) ->
  assign_all l acts = Ok (acts ++ l).
Proof.
  induction l as [|[k a] l IH]; intros acts Hc Hfresh.
  - cbn. now rewrite app_nil_r.
  - cbn [has_conflict fst] in Hc. apply orb_false_iff in Hc as [Hex Hc].
    pose proof (Hfresh (k, a) (or_introl eq_refl)) as Hk. cbn [fst] in Hk.
    unfold assign_all. cbn [ofold fst snd]. unfold assign at 1, dict_mem.
    rewrite Hk. cbn [obind].
    fold (assign_all l (dict_set acts k a)).
    rewrite (dict_set_new acts k a Hk).
    rewrite IH; [now rewrite <- app_assoc|exact Hc|].
    intros e He. apply dict_get_None. unfold dict_keys. rewrite map_app, in_app_iff.
    cbn [map fst]. intros [Hin|[Hke|[]]].
    + apply dict_get_None in Hin; [exact Hin|]. apply Hfresh. now right.
    + assert (Ht : existsb (fun e' : entry => py_eqb (fst e') k) l = true).
      { apply existsb_exists. exists e. split; [exact He|].
        rewrite <- Hke. apply py_eqb_refl. }
      apply Bool.diff_true_false. rewrite <- Ht. exact Hex.
Qed.

Lemma no_conflict_keys (l : list entry) :
  has_conflict l = false -> NoDup (map fst l).
Proof.
  induction l as [|e l IH]; intros Hc; [constructor|].
  cbn [has_conflict] in Hc. apply orb_false_iff in Hc as [Hex Hc].
  cbn [map]. constructor; [|now apply IH].
  intros Hin. apply in_map_iff in Hin as (e' & Hk & He').
  assert (Ht : existsb (fun e' : entry => py_eqb (fst e') (fst e)) l = true).
  { apply existsb_exists. exists e'. split; [exact He'|].
    rewrite Hk. apply py_eqb_refl. }
  apply Bool.diff_true_false. rewrite <- Ht. exact Hex.
Qed.

Section NoConflict.
Variable hash_item : LR1Item -> Z.
Variable syntax : Syntax.
Variable root_node : string.

(** X26. Without two assignments to one (state, lookahead) pair the
    ACTION table is built, with this fuel and with any larger one, and
    it holds the planned assignments and nothing else, in the order in
    which they are made: each pair has at most one action, and looking
    a pair up gives the action planned for it. *)
Theorem actions_without_conflict (fuel : nat) (entries : list entry) :
  planned_entries hash_item syntax root_node fuel = Ok entries ->
  has_conflict entries = false ->
  actions hash_item syntax root_node fuel = Ok entries
  /\ (forall fuel', (fuel <= fuel')%nat ->
                    actions hash_item syntax root_node fuel' = Ok entries)
  /\ NoDup (dict_keys entries)
  /\ (forall key a, dict_get entries key = Some a <-> In (key, a) entries).
Proof.
  intros Hp Hc.
  assert (Ha : actions hash_item syntax root_node fuel = Ok entries).
  { revert Hp. unfold planned_entries, actions, build_actions.
    destruct (item_sets_and_gotos hash_item syntax root_node fuel)
      as [[item_sets gotos]| |]; try discriminate. cbn [obind].
    destruct (rules syntax) as [rules| |]; try discriminate. cbn [obind].
    destruct (prefixes syntax fuel) as [table| |]; try discriminate. cbn [obind].
    destruct (tokens syntax) as [tokens| |]; try discriminate. cbn [obind].
    destruct (closures_of rules table fuel (dyn_iter item_sets))
      as [closures| |] eqn:Ec; try discriminate. cbn [obind].
    intros E. inversion E; subst.
    pose proof (states_assign rules table tokens gotos fuel (dyn_iter item_sets)
                  closures 0 [] Ec) as Hs.
    rewrite assign_all_fresh in Hs; [|exact Hc|reflexivity]. cbn [obind app] in Hs.
    set (o := ofold _ (dyn_iter item_sets) _).
    assert (Ho : o = Ok (0 + len closures, all_entries gotos tokens 0 closures))
      by exact Hs.
    rewrite Ho. reflexivity. }
  pose proof (no_conflict_keys entries Hc) as Hnd.
  split; [exact Ha|]. split; [|split; [exact Hnd|]].
  - intros fuel' Hle.
    exact (settles_Ok _ _ _ (actions_settles hash_item syntax root_node fuel fuel' Hle) Ha).
  - intros key a. split.
    + apply GrammarFacts.dict_get_entry_of.
    + intros Hin. destruct (In_nth_error _ _ Hin) as (n & Hn).
      exact (dict_get_nth_of entries n key a Hnd Hn).
Qed.
End NoConflict.
Lemma actions_without_conflict_witness :
  exists entries,
    actions (fun _ => 0) DemoSpec.demo "stmts" 8 = Ok entries
    /\ NoDup (dict_keys entries).
Proof.
  destruct (planned_entries (fun _ => 0) DemoSpec.demo "stmts" 8)
    as [entries| |] eqn:E; [|vm_compute in E; discriminate..].
  assert (Hc : has_conflict entries = false).
  { vm_compute in E. inversion E. reflexivity. }
  destruct (actions_without_conflict (fun _ => 0) DemoSpec.demo "stmts" 8 entries E Hc)
    as (Ha & _ & Hnd & _).
  exists entries. split; assumption.
Defined.

Section Failures.
Variable syntax : Syntax.

(** X27. A reduce by a rule with an empty body raises [IndexError]:
    the slice that should keep the stack, [stack[:-0]], is empty, and
    so is the stack below a body that is as long as the stack allows
    or longer.  The parser cannot reduce an empty rule, whatever the
    grammar and the text. *)
Theorem reduce_empty_body_fails (actions : action_table) (gotos : goto_table)
      (source : string) (c : config) (state : Z) (rule : Rule) :
  list_getitem (stack c) (-1) = Ok (State state) ->
  dict_get actions (state, token c) = Some (Reduce rule) ->
  body rule = [] \/ len (stack c) <= 2 * len (body rule) ->
  parse_step syntax (Ok (actions, gotos)) source c = Raise IndexError.
Proof.
  intros Htop Hact Hshort. unfold parse_step. destruct (span c) as [i j].
  cbn [obind]. rewrite Htop. cbn [obind]. rewrite Hact.
  assert (Hs : slice_to (stack c) (- len (body rule) * 2) = []).
  { assert (Hn : len (body rule) = 0 \/ len (stack c) <= 2 * len (body rule)).
    { destruct Hshort as [->|Hle]; [now left|now right]. }
    assert (H0 : 0 <= len (body rule)) by (unfold len; lia).
    assert (H1 : 0 <= len (stack c)) by (unfold len; lia).
    unfold slice_to, clamp_index.
    destruct (Z.ltb_spec (- len (body rule) * 2) 0) as [Hlt|Hge].
    - replace (Z.to_nat (Z.max (- len (body rule) * 2 + len (stack c)) 0))
        with 0%nat by lia.
      reflexivity.
    - replace (Z.to_nat (Z.min (- len (body rule) * 2) (len (stack c))))
        with 0%nat by lia.
      reflexivity. }
  cbn zeta. rewrite Hs. reflexivity.
Qed.

(** X28. Without an action for the state on top of the stack and the
    current token the driver raises [ValueError] with the span of the
    token, the token, and the lookaheads the state has an action for:
    each once, the current token not among them. *)
Theorem unexpected_token_lists_expected (actions : action_table)
      (gotos : goto_table) (source : string) (c : config) (state : Z) :
  list_getitem (stack c) (-1) = Ok (State state) ->
  dict_get actions (state, token c) = None ->
  exists expected,
    parse_step syntax (Ok (actions, gotos)) source c
    = Raise (ValueError (UnexpectedToken (fst (span c)) (snd (span c))
                           (token c) expected))
    /\ NoDup expected
    /\ ~ In (token c) expected
    /\ (forall t, In t expected <-> dict_get actions (state, t) <> None).
Proof.
  intros Htop Hact. exists (expected_tokens actions state).
  assert (Hin : forall t, In t (expected_tokens actions state)
                          <-> dict_get actions (state, t) <> None).
  { intros t. unfold expected_tokens. rewrite fromkeys_In, in_map_iff. split.
    - intros ([s t'] & Ht & Hk). cbn [snd] in Ht. subst t'.
      apply filter_In in Hk as [Hk Hs]. cbn [fst] in Hs.
      apply Z.eqb_eq in Hs. subst s. intros Hn.
      apply dict_get_None in Hn. contradiction.
    - intros Hn. exists (state, t). split; [reflexivity|].
      apply filter_In. cbn [fst]. split; [|apply Z.eqb_refl].
      destruct (in_dec py_eq_dec (state, t) (dict_keys actions)) as [Hk|Hk];
        [exact Hk|].
      apply dict_get_None in Hk. contradiction. }
  split; [|split; [|split]].
  - unfold parse_step. destruct (span c) as [i j]. cbn [obind fst snd].
    rewrite Htop. cbn [obind]. now rewrite Hact.
  - unfold expected_tokens. apply fromkeys_NoDup.
  - rewrite Hin. intros Hn. contradiction.
  - exact Hin.
Qed.
End Failures.

Lemma reduce_empty_body_fails_witness :
  parse_step DemoSpec.nullable_grammar
    (Ok ([((0, None), Reduce (mkRule (Some "A") []))], []))
    "" (mkConfig [State 0] None (0, 0))
  = Raise IndexError.
Proof.
  apply (reduce_empty_body_fails DemoSpec.nullable_grammar
           [((0, None), Reduce (mkRule (Some "A") []))] []
           "" (mkConfig [State 0] None (0, 0)) 0 (mkRule (Some "A") []));
    [reflexivity|reflexivity|now left].
Defined.

(** The grammar with [A -> epsilon] accepts the empty text, and its
    parser fails on it. *)
Example nullable_grammar_empty_text :
  parse (fun _ => 0) DemoSpec.nullable_grammar "A" 6 4 "" 0 = Raise IndexError.
Proof. vm_compute. reflexivity. Qed.

Lemma unexpected_token_lists_expected_witness :
  exists expected,
    parse_step DemoSpec.twins
      (Ok ([((0, Some "first"), Shift 1); ((1, None), Accept);
            ((0, Some "second"), Shift 2)], []))
      "y" (mkConfig [State 0] (Some "third") (0, 1))
    = Raise (ValueError (UnexpectedToken 0 1 (Some "third") expected))
    /\ NoDup expected
    /\ ~ In (Some "third") expected
    /\ (forall t, In t expected
                  <-> dict_get [((0, Some "first"), Shift 1); ((1, None), Accept);
                                ((0, Some "second"), Shift 2)] (0, t) <> None).
Proof.
  apply (unexpected_token_lists_expected DemoSpec.twins
           [((0, Some "first"), Shift 1); ((1, None), Accept);
            ((0, Some "second"), Shift 2)] []
           "y" (mkConfig [State 0] (Some "third") (0, 1)) 0);
    reflexivity.
Defined.
End ParserFacts.

(** ** The states of the parser *)

Module StateFacts.
Import SequentialSets SetSpec SetFacts SetMutators PrefixFacts GrammarFacts ItemFacts.
Import Syntax StateSpec ActionFacts.

Section AnyEq.
Context {T : Type} `{PyEq T}.

Lemma dict_set_absent {V} (d : dict T V) (k : T) (v : V) :
  dict_get d k = None -> dict_set d k v = d ++ [(k, v)].
Proof.
  induction d as [|[k' v'] d IH]; cbn [dict_get dict_set app]; [reflexivity|].
  destruct (py_eqb k' k); [discriminate|]. intros Hn. now rewrite IH.
Qed.

Lemma enumerate_app {A} (l l' : list A) : forall k,
  enumerate (l ++ l') k = enumerate l k ++ enumerate l' (k + len l).
Proof.
  induction l as [|x l IH]; intros k; cbn [app enumerate].
  - change (len (@nil A)) with 0. now rewrite Z.add_0_r.
  - rewrite IH.
    replace (k + 1 + len l) with (k + len (x :: l))
      by (unfold len; cbn [List.length]; lia).
    reflexivity.
Qed.

Lemma aligned_length (s : SequentialSet T) :
  aligned s -> len (indexes s) = len (values s).
Proof.
  unfold aligned, len. intros ->. now rewrite length_map, enumerate_length.
Qed.

(** Looking a value up in the position map of an aligned set finds the
    first value that is [==] to it. *)
Lemma aligned_lookup (vs : list T) (e : T) : forall k i,
  dict_get (map (fun '(i, v) => (v, i)) (enumerate vs k)) e = Some i ->
  exists n x, i = k + Z.of_nat n /\ nth_error vs n = Some x /\ py_eqb x e = true.
Proof.
  induction vs as [|x vs IH]; intros k i; cbn [enumerate map dict_get];
    [discriminate|].
  destruct (py_eqb x e) eqn:E.
  - intros Hi. inversion Hi; subst. exists 0%nat, x. split; [lia|]. now split.
  - intros Hi. destruct (IH _ _ Hi) as (n & y & -> & Hn & Hy).
    exists (S n), y. split; [lia|]. now split.
Qed.

(** [push] on an aligned set, whatever [==] is: the position returned
    is a position of the set afterwards, where the value itself or a
    value [==] to it stands, and the set has at most grown at its
    end. *)
Lemma push_aligned (s : SequentialSet T) (e : T) :
  aligned s ->
  exists j s',
    push e s = (Ok j, s') /\ aligned s'
    /\ 0 <= j < len (values s')
    /\ (exists more, values s' = values s ++ more /\ Forall (eq e) more)
    /\ ((exists x, nth_error (values s) (Z.to_nat j) = Some x /\ py_eqb x e = true)
        \/ j = len (values s)).
Proof.
  intros Ha. pose proof (aligned_length s Ha) as Hlen.
  unfold push, bind, gets, ret.
  destruct (dict_get (indexes s) e) as [i|] eqn:Ei.
  - rewrite Ha in Ei. destruct (aligned_lookup _ _ _ _ Ei) as (n & x & -> & Hn & Hx).
    assert (Hlt : (n < List.length (values s))%nat)
      by (apply nth_error_Some; congruence).
    destruct (Z.eqb_spec (0 + Z.of_nat n) (len (values s))) as [Heq|_];
      [unfold len in Heq; lia|].
    exists (0 + Z.of_nat n), s. split; [reflexivity|]. split; [exact Ha|].
    split; [unfold len; lia|]. split.
    + exists []. split; [now rewrite app_nil_r|constructor].
    + left. exists x. split; [|exact Hx].
      replace (Z.to_nat (0 + Z.of_nat n)) with n by lia. exact Hn.
  - rewrite Hlen, Z.eqb_refl. unfold indexes_set, values_append, modify.
    cbn [values indexes].
    eexists _, _. split; [reflexivity|]. cbn [values indexes].
    split; [|split; [|split]].
    + unfold aligned. cbn [values indexes].
      rewrite (dict_set_absent _ _ _ Ei), enumerate_app, map_app, Ha.
      cbn [enumerate map]. now rewrite Z.add_0_l.
    + rewrite len_app. unfold len. cbn [List.length]. lia.
    + exists [e]. split; [reflexivity|]. constructor; [reflexivity|constructor].
    + now right.
Qed.
End AnyEq.
Section States.
Variable hash_item : LR1Item -> Z.
Variable root_node : string.

Lemma advanced_items (next_symbol : option string) (items : list LR1Item) :
  forall moved,
    advanced next_symbol items = Ok moved ->
    forall m, In m moved ->
              exists item, In item items
                           /\ m = mkItem (dot item + 1) (rule item) (follower item).
Proof.
  induction items as [|item items IH]; intros moved; cbn [advanced].
  - intros E. inversion E. intros m [].
  - destruct (expects next_symbol item) as [keep| |]; try discriminate.
    cbn [obind].
    destruct (advanced next_symbol items) as [rest| |]; try discriminate.
    cbn [obind]. intros E. inversion E; subst. intros m Hm.
    destruct keep.
    + destruct Hm as [<-|Hm].
      * exists item. split; [now left|reflexivity].
      * destruct (IH rest eq_refl m Hm) as (it & Hit & ->).
        exists it. split; [now right|reflexivity].
    + destruct (IH rest eq_refl m Hm) as (it & Hit & ->).
      exists it. split; [now right|reflexivity].
Qed.

(** X30. The items a goto set is made of: among items whose dot is
    not negative, exactly those with the symbol behind the dot, each
    with the dot moved over it, in the order of the closure.  The
    selection never fails. *)
Theorem advanced_is_goto (next_symbol : option string) (items : list LR1Item) :
  (forall item, In item items -> 0 <= dot item) ->
  advanced next_symbol items
  = Ok (map advance (filter (waits_for next_symbol) items)).
Proof.
  induction items as [|item items IH]; intros Hdots; [reflexivity|].
  cbn [advanced filter]. rewrite IH by (intros it Hit; apply Hdots; now right).
  pose proof (Hdots item (or_introl eq_refl)) as Hd.
  assert (He : expects next_symbol item = Ok (waits_for next_symbol item)).
  { unfold expects, waits_for, symbol_at_dot, list_getitem.
    destruct (Z.ltb_spec (dot item) (len (body (rule item)))) as [Hlt|Hge].
    - assert (Hn : norm_index (body (rule item)) (dot item)
                   = Some (Z.to_nat (dot item))).
      { pose proof (norm_index_nat (body (rule item)) (Z.to_nat (dot item))) as Hn.
        rewrite Z2Nat.id in Hn by lia. apply Hn. unfold len in *. lia. }
      rewrite Hn.
      destruct (nth_error (body (rule item)) (Z.to_nat (dot item))) as [x|] eqn:Ex;
        [reflexivity|].
      apply nth_error_None in Ex. unfold len in *. lia.
    - destruct (nth_error (body (rule item)) (Z.to_nat (dot item))) as [x|] eqn:Ex;
        [|reflexivity].
      assert (Z.to_nat (dot item) < List.length (body (rule item)))%nat
        by (apply nth_error_Some; congruence).
      unfold len in *. lia. }
  rewrite He. cbn [obind]. now destruct (waits_for next_symbol item).
Qed.

Lemma hashed_base (items : item_set) : base (hashed hash_item items) = base items.
Proof. unfold hashed, dyn_hash. destruct (hash items); reflexivity. Qed.

Lemma hashed_frozen (items : item_set) : hash (hashed hash_item items) <> None.
Proof. unfold hashed, dyn_hash. destruct (hash items) eqn:E; cbn; congruence. Qed.

Lemma root_is_not_moved (moved : list LR1Item) :
  (forall m, In m moved -> 1 <= dot m) ->
  py_eqb (root_set hash_item root_node) (hashed hash_item (dyn_init moved)) = false.
Proof.
  intros Hdots. unfold py_eqb, DynSet_PyEq, dyn_eqb, dyn_iter, dyn_contains, root_set.
  rewrite !hashed_base. unfold dyn_init. cbn [base].
  change (values (init [root_item root_node])) with [root_item root_node].
  cbn [forallb].
  destruct (contains (init moved) (root_item root_node)) eqn:E.
  - apply (contains_iff _ _ (init_coherent moved)) in E.
    unfold init in E. cbn [values] in E. rewrite fromkeys_In in E.
    specialize (Hdots _ E). cbn in Hdots. lia.
  - cbn [andb]. apply andb_false_r.
Qed.

Lemma add_goto_ok (i : Z) (closure : item_set) (st st' : DynSet item_set * goto_table)
                  (next_symbol : option string) :
  states_ok hash_item root_node st ->
  (forall item, In item (dyn_iter closure) -> 0 <= dot item) ->
  add_goto hash_item i closure st next_symbol = Ok st' ->
  states_ok hash_item root_node st'.
Proof.
  destruct st as [[b h] gotos]. intros (Hh & Ha & H0 & Hsets & Hg) Hdots.
  cbn [fst snd hash base] in *. subst h. unfold add_goto.
  destruct (advanced next_symbol (dyn_iter closure)) as [moved| |] eqn:Em;
    try discriminate.
  cbn [obind].
  destruct (len (dyn_iter (dyn_init moved)) =? 0).
  - intros E. inversion E; subst. unfold states_ok. cbn [fst snd hash base]. tauto.
  - assert (Hm : forall m, In m moved -> 1 <= dot m).
    { intros m Hin. destruct (advanced_items _ _ _ Em m Hin) as (it & Hit & ->).
      cbn [dot]. specialize (Hdots _ Hit). lia. }
    destruct (push_aligned b (hashed hash_item (dyn_init moved)) Ha)
      as (j & b' & Ep & Ha' & Hj & (more & Hv & Hmore) & Hwhere).
    unfold run, dyn_push, bind, check_mutable, super. cbn [hash base].
    rewrite Ep. cbn [obind]. intros E. inversion E; subst st'. clear E.
    unfold states_ok, dyn_iter in *. cbn [fst snd hash base] in *.
    assert (Hlen0 : (0 < List.length (values b))%nat).
    { apply nth_error_Some. congruence. }
    split; [reflexivity|]. split; [exact Ha'|]. split; [|split].
    + rewrite Hv. rewrite nth_error_app1 by assumption. exact H0.
    + intros k set Hk. rewrite Hv in Hk.
      destruct (Nat.ltb_spec k (List.length (values b))) as [Hlt|Hge].
      * rewrite nth_error_app1 in Hk by assumption. now apply Hsets.
      * rewrite nth_error_app2 in Hk by assumption.
        apply nth_error_In in Hk. rewrite Forall_forall in Hmore.
        specialize (Hmore _ Hk). subst set.
        split; [apply hashed_frozen|]. rewrite hashed_base.
        split; [apply init_coherent|].
        intros item Hitem. unfold dyn_init, init in Hitem. cbn [base values] in Hitem.
        rewrite fromkeys_In in Hitem. specialize (Hm _ Hitem).
        destruct k; [lia|exact Hm].
    + intros key j' Hget.
      assert (Hle : len (values b) <= len (values b')).
      { rewrite Hv, len_app. unfold len. lia. }
      destruct (py_eq_dec (i, next_symbol) key) as [<-|Hne].
      * rewrite dict_get_set_eq in Hget. inversion Hget; subst j'.
        split; [|lia]. destruct (Z.eq_dec j 0) as [->|Hnz]; [|lia].
        exfalso. destruct Hwhere as [(x & Hx & Hxe)|Hj0].
        -- change (Z.to_nat 0) with 0%nat in Hx.
           rewrite H0 in Hx. inversion Hx; subst x.
           rewrite (root_is_not_moved moved Hm) in Hxe. discriminate.
        -- unfold len in Hj0. lia.
      * rewrite dict_get_set_ne in Hget by assumption.
        specialize (Hg _ _ Hget). lia.
Qed.

Lemma add_gotos_ok (i : Z) (closure : item_set) (symbols : list (option string)) :
  (forall item, In item (dyn_iter closure) -> 0 <= dot item) ->
  forall st st',
    states_ok hash_item root_node st ->
    ofold (add_goto hash_item i closure) symbols st = Ok st' ->
    states_ok hash_item root_node st'.
Proof.
  intros Hdots. induction symbols as [|x symbols IH]; intros st st' Hok; cbn [ofold].
  - intros E. inversion E; subst. exact Hok.
  - destruct (add_goto hash_item i closure st x) as [st1| |] eqn:E1; try discriminate.
    cbn [obind]. apply IH. exact (add_goto_ok i closure st st1 x Hok Hdots E1).
Qed.

Lemma item_sets_loop_ok rules table (symbols : symbol_set) (closure_fuel fuel : nat) :
  forall cursor st st',
    states_ok hash_item root_node st ->
    item_sets_loop hash_item rules table symbols closure_fuel fuel cursor st = Ok st' ->
    states_ok hash_item root_node st'.
Proof.
  induction fuel as [|fuel IH]; intros cursor st st' Hok; cbn [item_sets_loop];
    destruct (nth_error (dyn_iter (fst st)) cursor) as [core|] eqn:Ec;
    try discriminate; try (intros E; inversion E; subst; exact Hok).
  destruct (lr1_closure rules table closure_fuel core) as [closure| |] eqn:Ecl;
    try discriminate.
  cbn [obind].
  destruct (ofold (add_goto hash_item (Z.of_nat cursor) closure)
                  (dyn_iter symbols) st) as [st1| |] eqn:E1; try discriminate.
  cbn [obind]. apply IH.
  apply (add_gotos_ok (Z.of_nat cursor) closure (dyn_iter symbols)) with (st := st);
    [|exact Hok|exact E1].
  destruct Hok as (_ & _ & _ & Hsets & _).
  destruct (Hsets _ _ Ec) as (_ & _ & Hcore).
  unfold lr1_closure in Ecl.
  destruct (closure_loop_spec rules table closure_fuel O
              (dyn_init (dyn_iter core)) closure eq_refl
              (init_coherent _) Ecl) as (_ & _ & (more & Hv & Hfresh) & _).
  intros item Hin. rewrite Hv in Hin. apply in_app_or in Hin as [Hin|Hin].
  - unfold dyn_iter at 1, dyn_init, init in Hin. cbn [base values] in Hin.
    rewrite fromkeys_In in Hin. specialize (Hcore _ Hin).
    destruct cursor; lia.
  - rewrite Forall_forall in Hfresh. destruct (Hfresh _ Hin) as [Hd _]. lia.
Qed.

(** X29. The states the parser is built from: state 0 is the set of
    the root item, every state is a hashed (closed to change) set of
    items without duplicates, and every goto leads to a state that
    exists and is not state 0.  So the test [if j] on a goto in
    [actions], which would drop a shift to state 0, never drops
    one. *)
Theorem goto_targets (syntax : Syntax) (fuel : nat)
                     (item_sets : DynSet item_set) (gotos : goto_table) :
  item_sets_and_gotos hash_item syntax root_node fuel = Ok (item_sets, gotos) ->
  nth_error (dyn_iter item_sets) 0 = Some (root_set hash_item root_node)
  /\ (forall set, In set (dyn_iter item_sets) ->
                  hash set <> None /\ coherent (base set))
  /\ (forall key j, dict_get gotos key = Some j ->
                    0 < j < len (dyn_iter item_sets))
  /\ (forall i actions t,
        add_shift gotos i actions t
        = match dict_get gotos (i, t) with
          | Some j => assign actions (i, t) (Shift j)
          | None => Ok actions
          end).
Proof.
  unfold item_sets_and_gotos.
  destruct (rules syntax) as [rules| |]; try discriminate. cbn [obind].
  destruct (prefixes syntax fuel) as [table| |]; try discriminate. cbn [obind].
  destruct (symbols syntax) as [symbols| |]; try discriminate. cbn [obind].
  intros E.
  assert (Hinit : states_ok hash_item root_node
                    (dyn_init [hashed hash_item
                                 (dyn_init [mkItem 0 (mkRule None [root_node]) None])],
                     [])).
  { unfold states_ok. cbn [fst snd]. split; [reflexivity|]. split; [reflexivity|].
    split; [reflexivity|]. split.
    - assert (Hv : forall R : item_set, dyn_iter (dyn_init [R]) = [R])
        by reflexivity.
      intros k set Hk. rewrite Hv in Hk.
      destruct k as [|k]; [|destruct k; discriminate].
      cbn [nth_error] in Hk. inversion Hk; subst set.
      split; [apply hashed_frozen|].
      rewrite hashed_base. split; [apply init_coherent|].
      intros item Hitem. unfold dyn_iter in Hitem. rewrite hashed_base in Hitem.
      destruct Hitem as [<-|[]]. apply Z.le_refl.
    - intros key j Hj. discriminate. }
  destruct (item_sets_loop_ok rules table symbols fuel fuel O _ _ Hinit E)
    as (_ & _ & H0 & Hsets & Hg).
  cbn [fst snd] in *. split; [exact H0|]. split; [|split; [exact Hg|]].
  - intros set Hin. destruct (In_nth_error _ _ Hin) as (k & Hk).
    destruct (Hsets _ _ Hk) as (Hh & Hc & _). now split.
  - intros i actions t. unfold add_shift.
    destruct (dict_get gotos (i, t)) as [j|] eqn:Ej; [|reflexivity].
    destruct (Hg _ _ Ej) as [Hpos _].
    destruct (Z.eqb_spec j 0); [lia|reflexivity].
Qed.
End States.

Lemma goto_targets_witness :
  exists item_sets gotos,
    item_sets_and_gotos (fun _ => 0) DemoSpec.demo "stmts" 8 = Ok (item_sets, gotos)
    /\ nth_error (dyn_iter item_sets) 0 = Some (root_set (fun _ => 0) "stmts")
    /\ (forall key j, dict_get gotos key = Some j ->
                      0 < j < len (dyn_iter item_sets)).
Proof.
  destruct (item_sets_and_gotos (fun _ => 0) DemoSpec.demo "stmts" 8)
    as [[item_sets gotos]| |] eqn:E; [|vm_compute in E; discriminate..].
  exists item_sets, gotos. split; [reflexivity|].
  destruct (goto_targets (fun _ => 0) "stmts" DemoSpec.demo 8 item_sets gotos E)
    as (H0 & _ & Hg & _).
  now split.
Defined.

Lemma advanced_is_goto_witness :
  advanced (Some "b")
    [mkItem 0 (mkRule (Some "s") ["a"; "b"]) None;
     mkItem 1 (mkRule (Some "s") ["a"; "b"]) None;
     mkItem 0 (mkRule (Some "t") ["b"]) (Some "a");
     mkItem 1 (mkRule (Some "t") ["b"]) (Some "a")]
  = Ok [mkItem 2 (mkRule (Some "s") ["a"; "b"]) None;
        mkItem 1 (mkRule (Some "t") ["b"]) (Some "a")].
Proof.
  apply (advanced_is_goto (Some "b")
           [mkItem 0 (mkRule (Some "s") ["a"; "b"]) None;
            mkItem 1 (mkRule (Some "s") ["a"; "b"]) None;
            mkItem 0 (mkRule (Some "t") ["b"]) (Some "a");
            mkItem 1 (mkRule (Some "t") ["b"]) (Some "a")]).
  intros item [<-|[<-|[<-|[<-|[]]]]]; cbn; lia.
Defined.
End StateFacts.
